(** * Nano Studio Pro: the generation orchestration pipeline

    A shallow embedding of [apps/nano-studio-pro/services/geminiService.ts]
    (the retry controller, the two remote call adapters, the prompt
    composition and the strategy dispatch of [processImagesWithGemini]) and of
    the aspect-ratio computation of [handleProcess] in the application
    component, followed by the properties of the specification that were
    checked against them.

    Conventions.
    - JavaScript strings are [string]s, one [ascii] per code unit: the model
      covers the code units 0..255.  Case mapping is the one of JavaScript
      on these code units (ASCII and Latin-1 letters, the sharp s); the two
      code units whose upper case lies above 255 are set apart by
      [Js.upper_covered].  White space is the class of the regular
      expressions within that range.
    - An asynchronous function is a computation [M A] over a [World] that
      records every observable effect (remote requests, status-sink calls,
      console output, timer waits) in a trace; [await] is sequencing.
    - The replies of the remote service, [JSON.parse] and the unit of a
      batch that settles first are parameters of the development, gathered
      in a [Platform]. *)

From Stdlib Require Import String Ascii List Bool Arith ZArith Lia DecimalString
  DecimalNat.
Import ListNotations.

Open Scope list_scope.
Open Scope string_scope.

(* ================================================================= *)
(** ** JavaScript string primitives used by the service *)
(* ================================================================= *)

Module Js.

Definition str (c : ascii) : string := String c EmptyString.

(** The double quote and the line feed, as one-character strings. *)
Definition dquote : string := str (ascii_of_nat 34).
Definition nl : string := str (ascii_of_nat 10).

Fixpoint string_map (f : ascii -> ascii) (s : string) : string :=
  match s with
  | EmptyString => EmptyString
  | String c s' => String (f c) (string_map f s')
  end.

(** The lower case of a code unit: the capitals of ASCII (65..90) and those
    of Latin-1 (192..222, but not the multiplication sign 215) lie 32 below
    their small letters; no other code unit below 256 has a lower case. *)
Definition lower_unit (c : ascii) : ascii :=
  let n := nat_of_ascii c in
  if (((65 <=? n) && (n <=? 90))
      || ((192 <=? n) && (n <=? 222) && negb (n =? 215)))%nat
  then ascii_of_nat (n + 32) else c.

(** The upper case of a code unit: the small letters of ASCII (97..122) and
    those of Latin-1 (224..254, but not the division sign 247) lie 32 above
    their capitals, and the sharp s (223) becomes two capitals.  The upper
    case of the micro sign (181) and of the y with diaeresis (255) is a code
    unit above 255: these two are left as they are, and a text that holds
    one of them is not [upper_covered]. *)
Definition upper_units (c : ascii) : string :=
  let n := nat_of_ascii c in
  if (((97 <=? n) && (n <=? 122))
      || ((224 <=? n) && (n <=? 254) && negb (n =? 247)))%nat
  then str (ascii_of_nat (n - 32))
  else if (n =? 223)%nat then "SS"
  else str c.

(** [s.toLowerCase()]. *)
Definition toLowerCase : string -> string := string_map lower_unit.

(** [s.toUpperCase()], for the texts that are [upper_covered]. *)
Fixpoint toUpperCase (s : string) : string :=
  match s with
  | EmptyString => EmptyString
  | String c s' => upper_units c ++ toUpperCase s'
  end.

(** The upper case of [s] is made of code units below 256: [s] holds
    neither the micro sign nor the y with diaeresis. *)
Fixpoint upper_covered (s : string) : bool :=
  match s with
  | EmptyString => true
  | String c s' =>
      negb ((nat_of_ascii c =? 181) || (nat_of_ascii c =? 255))%nat
      && upper_covered s'
  end.

(** [s.includes(pat)]. *)
Fixpoint includes (s pat : string) : bool :=
  prefix pat s ||
  match s with
  | EmptyString => false
  | String _ s' => includes s' pat
  end.

(** [s.slice(0, n)]. *)
Fixpoint slice0 (n : nat) (s : string) : string :=
  match n, s with
  | S n', String c s' => String c (slice0 n' s')
  | _, _ => EmptyString
  end.

(** [s.split(c)]: never empty, the pieces between the occurrences of [c]. *)
Fixpoint split (c : ascii) (s : string) : list string :=
  match s with
  | EmptyString => [EmptyString]
  | String d s' =>
      if Ascii.eqb d c then EmptyString :: split c s'
      else match split c s' with
           | [] => [str d]
           | p :: ps => String d p :: ps
           end
  end.

(** The character class [\s], within one byte. *)
Definition is_space (c : ascii) : bool :=
  let n := nat_of_ascii c in
  (((9 <=? n) && (n <=? 13)) || (n =? 32) || (n =? 160))%nat.

(** [s.replace(/\s+/g, '-')]: every maximal run of white space becomes one
    hyphen. *)
Fixpoint hyphenate_from (in_run : bool) (s : string) : string :=
  match s with
  | EmptyString => EmptyString
  | String c s' =>
      if is_space c
      then (if in_run then hyphenate_from true s'
            else String "-" (hyphenate_from true s'))
      else String c (hyphenate_from false s')
  end.

Definition hyphenate : string -> string := hyphenate_from false.

Fixpoint trimStart (s : string) : string :=
  match s with
  | EmptyString => EmptyString
  | String c s' => if is_space c then trimStart s' else s
  end.

Fixpoint trimEnd (s : string) : string :=
  match s with
  | EmptyString => EmptyString
  | String c s' =>
      match trimEnd s' with
      | EmptyString => if is_space c then EmptyString else str c
      | t => String c t
      end
  end.

(** [s.trim()]. *)
Definition trim (s : string) : string := trimEnd (trimStart s).

Fixpoint drop (n : nat) (s : string) : string :=
  match n, s with
  | S n', String _ s' => drop n' s'
  | _, _ => s
  end.

(** The replacement text of [String.prototype.replace] for a string pattern
    (the abstract operation GetSubstitution with no capture groups):
    a doubled dollar is a dollar, dollar-ampersand the matched text,
    dollar-backquote the text before the match, dollar-quote the text after
    it; a dollar before anything else stands for itself. *)
Fixpoint GetSubstitution (matched before after template : string) : string :=
  match template with
  | EmptyString => EmptyString
  | String c rest =>
      if Ascii.eqb c "$" then
        match rest with
        | EmptyString => str "$"
        | String d rest' =>
            if Ascii.eqb d "$" then
              String "$" (GetSubstitution matched before after rest')
            else if Ascii.eqb d "&" then
              matched ++ GetSubstitution matched before after rest'
            else if Ascii.eqb d "`" then
              before ++ GetSubstitution matched before after rest'
            else if Ascii.eqb d "'" then
              after ++ GetSubstitution matched before after rest'
            else
              String "$" (GetSubstitution matched before after rest)
        end
      else String c (GetSubstitution matched before after rest)
  end.

(** [s.replace(pat, template)] with a string pattern: only the first
    occurrence is replaced.  [before] is the text already scanned. *)
Fixpoint replace_from (before s pat template : string) : string :=
  if prefix pat s then
    let after := drop (String.length pat) s in
    before ++ GetSubstitution pat before after template ++ after
  else
    match s with
    | EmptyString => before
    | String c s' => replace_from (before ++ str c) s' pat template
    end.

Definition replace (s pat template : string) : string :=
  replace_from EmptyString s pat template.

(** Decimal rendering of a number inside a template literal. *)
Definition string_of_nat (n : nat) : string :=
  NilEmpty.string_of_uint (Nat.to_uint n).

(** A value used as a condition: the empty string is falsy. *)
Definition truthy (s : string) : bool :=
  match s with EmptyString => false | _ => true end.

(** [s || d] on strings. *)
Definition or_else (s d : string) : string := if truthy s then s else d.

End Js.

(* ================================================================= *)
(** ** Data model *)
(* ================================================================= *)

(** A thrown value: the two properties the service reads from it.
    [new Error(m)] has a message and no status. *)
Record JsError : Type := {
  status : option Z;
  message : option string
}.

Definition mkError (m : string) : JsError :=
  {| status := None; message := Some m |}.

(** The event a failed [FileReader] rejects with: neither property. *)
Definition readerErrorEvent : JsError :=
  {| status := None; message := None |}.

(** [TypeError] raised by reading a property of [undefined] or [null]. *)
Definition typeError (m : string) : JsError := mkError m.

(** A part of a request or of a response. *)
Inductive Part : Type :=
| TextPart (text : string)
| InlinePart (data : option string) (mimeType : string)
| OtherPart.

Inductive ImageSize : Type := Size1K | Size2K | Size4K.

Inductive HarmCategory : Type :=
| HARM_CATEGORY_HARASSMENT
| HARM_CATEGORY_HATE_SPEECH
| HARM_CATEGORY_SEXUALLY_EXPLICIT
| HARM_CATEGORY_DANGEROUS_CONTENT.

Inductive HarmBlockThreshold : Type := BLOCK_ONLY_HIGH.

(** The [config] field of a [generateContent] call: the analysis call asks
    for JSON, the generation call carries the image configuration and the
    safety settings. *)
Inductive Config : Type :=
| JsonConfig (responseMimeType : string)
| ImageConfig (imageSize : ImageSize) (aspectRatio : string)
              (safetySettings : list (HarmCategory * HarmBlockThreshold)).

Record GenerateContentParameters : Type := {
  model : string;
  contents : list Part;
  config : Config
}.

Record Candidate : Type := {
  content : option (list Part)
}.

(** The response of the service; [text] is the accessor of the client
    library. *)
Record GenerateContentResponse : Type := {
  candidates : list Candidate;
  text : option string
}.

(** A browser [File]: what [FileReader.readAsDataURL] yields ([None] when
    the read fails) and its MIME type. *)
Record File : Type := {
  readAsDataURL : option string;
  type : string
}.

(** [SourceImage], with the fields the service reads. *)
Record SourceImage : Type := {
  file : File;
  label : string
}.

Record ProcessedImage : Type := {
  url : string;
  filename : string
}.

Inductive PresetType : Type :=
| GHOST_MANNEQUIN
| LIFESTYLE
| ANGLES
| BG_REMOVE_REPAIR.

Definition PresetType_eqb (a b : PresetType) : bool :=
  match a, b with
  | GHOST_MANNEQUIN, GHOST_MANNEQUIN
  | LIFESTYLE, LIFESTYLE
  | ANGLES, ANGLES
  | BG_REMOVE_REPAIR, BG_REMOVE_REPAIR => true
  | _, _ => false
  end.

(** [Preset], with the fields the service reads ([PRESETS.find] compares
    the [id] only); the prompt templates are user-editable text that reaches
    the service as [customPrompt]. *)
Record Preset : Type := {
  id : PresetType;
  presetLabel : string
}.

Definition PRESETS : list Preset :=
  [ {| id := GHOST_MANNEQUIN;  presetLabel := "Ghost Mannequin" |};
    {| id := ANGLES;           presetLabel := "Multi-Angle Generation" |};
    {| id := BG_REMOVE_REPAIR; presetLabel := "Remove BG & Repair" |};
    {| id := LIFESTYLE;        presetLabel := "Lifestyle Shot" |} ].

(* ================================================================= *)
(** ** Effects: the world, its trace and the computation monad *)
(* ================================================================= *)

(** What an execution does that an observer can see. *)
Inductive Event : Type :=
| EvInvoke                       (* the retry controller calls [fn()] *)
| EvWarn (msg : string)          (* [console.warn] *)
| EvError (msg : string)         (* [console.error] *)
| EvStatus (msg : string)        (* [onStatusUpdate(msg)] *)
| EvDelay (ms : Z)               (* [await delay(ms)] *)
| EvRemote (apiKey : string) (req : GenerateContentParameters).
                                 (* [ai.models.generateContent(req)] *)

(** [calls] counts the remote requests issued so far; [trace] lists the
    events, oldest first. *)
Record World : Type := {
  calls : nat;
  trace : list Event
}.

Definition initial_world : World := {| calls := 0; trace := [] |}.

(** How an awaited computation ends.  [Diverged] marks a loop that ran out
    of fuel in the model; no source construct produces it. *)
Inductive Outcome (A : Type) : Type :=
| Resolved (a : A)
| Rejected (e : JsError)
| Diverged.

Arguments Resolved {A} a.
Arguments Rejected {A} e.
Arguments Diverged {A}.

Definition M (A : Type) : Type := World -> Outcome A * World.

Definition ret {A} (a : A) : M A := fun w => (Resolved a, w).

Definition throw {A} (e : JsError) : M A := fun w => (Rejected e, w).

Definition diverge {A} : M A := fun w => (Diverged, w).

Definition bind {A B} (c : M A) (k : A -> M B) : M B :=
  fun w =>
    match c w with
    | (Resolved a, w') => k a w'
    | (Rejected e, w') => (Rejected e, w')
    | (Diverged, w') => (Diverged, w')
    end.

(** [try { c } catch (e) { h e }]. *)
Definition try_catch {A} (c : M A) (h : JsError -> M A) : M A :=
  fun w =>
    match c w with
    | (Rejected e, w') => h e w'
    | r => r
    end.

(** The world after some more events. *)
Definition record_events (evs : list Event) (w : World) : World :=
  {| calls := calls w; trace := trace w ++ evs |}.

Definition emit (ev : Event) : M unit :=
  fun w => (Resolved tt, record_events [ev] w).

Declare Scope js_scope.
Delimit Scope js_scope with js.

Notation "x <- c ;; k" := (bind c (fun x => k))
  (at level 100, c at next level, right associativity) : js_scope.
Notation "c ;; k" := (bind c (fun _ => k))
  (at level 100, right associativity) : js_scope.

Open Scope js_scope.

(** [if (onStatusUpdate) onStatusUpdate(msg)]: the sink is optional; a call
    of it is recorded in the trace. *)
Definition status_update (onStatusUpdate : bool) (msg : string) : M unit :=
  if onStatusUpdate then emit (EvStatus msg) else ret tt.

(** [await delay(ms)]. *)
Definition delay (ms : Z) : M unit := emit (EvDelay ms).

(* ================================================================= *)
(** ** The retry controller: [runWithRetry] *)
(* ================================================================= *)

Definition status_is (e : JsError) (code : Z) : bool :=
  match status e with
  | Some s => Z.eqb s code
  | None => false
  end.

(** [e.message?.includes(pat)], falsy when there is no message. *)
Definition message_includes (e : JsError) (pat : string) : bool :=
  match message e with
  | Some m => Js.includes m pat
  | None => false
  end.

(** [e.message?.toLowerCase().includes(pat)]. *)
Definition message_lower_includes (e : JsError) (pat : string) : bool :=
  match message e with
  | Some m => Js.includes (Js.toLowerCase m) pat
  | None => false
  end.

Definition isRateLimit (e : JsError) : bool :=
  status_is e 429 || message_includes e "429"
  || message_lower_includes e "quota".

Definition isServerOverload (e : JsError) : bool :=
  status_is e 503 || message_includes e "503".

Definition retry_message (attempt retries : nat) : string :=
  "High traffic. Retrying in 10s... (Attempt " ++ Js.string_of_nat attempt
  ++ "/" ++ Js.string_of_nat retries ++ ")".

(** The body of [while (true)], one iteration per unit of [fuel]. *)
Fixpoint runWithRetry_loop {T} (fuel : nat) (fn : M T) (onStatusUpdate : bool)
    (retries attempt : nat) : M T :=
  match fuel with
  | 0 => diverge
  | S fuel' =>
      try_catch (emit EvInvoke ;; fn)
        (fun e =>
           let attempt := S attempt in
           if (retries <? attempt)%nat then throw e
           else if isRateLimit e || isServerOverload e then
             let waitTime := 10000%Z in
             let msg := retry_message attempt retries in
             emit (EvWarn ("Gemini API Busy. " ++ msg)) ;;
             status_update onStatusUpdate msg ;;
             delay waitTime ;;
             status_update onStatusUpdate "Resuming processing..." ;;
             runWithRetry_loop fuel' fn onStatusUpdate retries attempt
           else throw e)
  end.

(** [runWithRetry(fn, onStatusUpdate, retries)]: the loop starts with
    [attempt = 0]; [retries + 1] iterations always suffice. *)
Definition runWithRetry {T} (fn : M T) (onStatusUpdate : bool)
    (retries : nat) : M T :=
  runWithRetry_loop (S retries) fn onStatusUpdate retries 0.

(** The default value of the parameter [retries]. *)
Definition default_retries : nat := 10.

(* ================================================================= *)
(** ** Parsed JSON and the parameters of the platform *)
(* ================================================================= *)

(** A value produced by [JSON.parse].  A number is kept by its rendering;
    zero is apart because it is falsy. *)
#[local] Set Warnings "-register-all".

Inductive JsValue : Type :=
| JNull
| JFalse
| JTrue
| JZero
| JNumber (rendering : string)
| JString (s : string)
| JArray (items : list JsValue)
| JObject (fields : list (string * JsValue)).

Definition js_truthy (v : JsValue) : bool :=
  match v with
  | JNull | JFalse | JZero => false
  | JString s => Js.truthy s
  | JTrue | JNumber _ | JArray _ | JObject _ => true
  end.

(** The conversion to a string that a template literal applies. *)
Fixpoint ToString (v : JsValue) : string :=
  match v with
  | JNull => "null"
  | JFalse => "false"
  | JTrue => "true"
  | JZero => "0"
  | JNumber r => r
  | JString s => s
  | JArray items =>
      (fix join (l : list JsValue) : string :=
         match l with
         | [] => EmptyString
         | [x] => match x with JNull => EmptyString | _ => ToString x end
         | x :: l' =>
             match x with JNull => EmptyString | _ => ToString x end
             ++ "," ++ join l'
         end) items
  | JObject _ => "[object Object]"
  end.

(** The own property [name] of an object, whose keys are distinct. *)
Fixpoint lookup_field (name : string) (fields : list (string * JsValue))
  : option JsValue :=
  match fields with
  | [] => None
  | (k, v) :: fields' =>
      if String.eqb k name then Some v else lookup_field name fields'
  end.

(** What the service does not define itself: the reply of the remote
    service to the [n]-th request of an execution, [JSON.parse], and, for a
    batch awaited with [Promise.all], the index of the unit whose rejection
    settles first. *)
Record Platform : Type := {
  service : nat -> string -> GenerateContentParameters
            -> JsError + GenerateContentResponse;
  JSON_parse : string -> JsError + JsValue;
  first_rejection : nat
}.

(** [json.name || fallback]: reading a property of [null] throws; a
    primitive or an array has no such property.  A truthy value that is not
    a string is represented by its string conversion. *)
Definition property_or (json : JsValue) (name fallback : string) : M string :=
  match json with
  | JNull => throw (typeError "Cannot read properties of null")
  | JObject fields =>
      match lookup_field name fields with
      | Some v => ret (if js_truthy v then ToString v else fallback)
      | None => ret fallback
      end
  | _ => ret fallback
  end.

Definition of_sum {A} (r : JsError + A) : M A :=
  match r with
  | inl e => throw e
  | inr a => ret a
  end.

(** [await ai.models.generateContent(req)] with a client made for [apiKey]:
    one remote request. *)
Definition generateContent (P : Platform) (apiKey : string)
    (req : GenerateContentParameters) : M GenerateContentResponse :=
  fun w =>
    of_sum (service P (calls w) apiKey req)
      {| calls := S (calls w); trace := trace w ++ [EvRemote apiKey req] |}.

(** [Promise.all] over units started together.  Every unit runs to its end
    whatever the others do; the units are run here one after the other, so
    the order of the events of different units in the trace is the model's,
    not the scheduler's. *)
Fixpoint run_all {A} (units : list (M A)) (w : World)
  : list (Outcome A) * World :=
  match units with
  | [] => ([], w)
  | u :: units' =>
      let (o, w1) := u w in
      let (os, w2) := run_all units' w1 in
      (o :: os, w2)
  end.

Fixpoint all_resolved {A} (os : list (Outcome A)) : option (list A) :=
  match os with
  | [] => Some []
  | Resolved a :: os' => option_map (cons a) (all_resolved os')
  | _ :: _ => None
  end.

Fixpoint any_diverged {A} (os : list (Outcome A)) : bool :=
  match os with
  | [] => false
  | Diverged :: _ => true
  | _ :: os' => any_diverged os'
  end.

Fixpoint lowest_rejection {A} (os : list (Outcome A)) : option JsError :=
  match os with
  | [] => None
  | Rejected e :: _ => Some e
  | _ :: os' => lowest_rejection os'
  end.

(** The settled value: the list of results in the order of the units when
    all fulfil, else the rejection that settles first ([first] when that
    unit did reject). *)
Definition settle_all {A} (first : nat) (os : list (Outcome A))
  : Outcome (list A) :=
  if any_diverged os then Diverged
  else
    match all_resolved os with
    | Some vs => Resolved vs
    | None =>
        match nth_error os first with
        | Some (Rejected e) => Rejected e
        | _ =>
            match lowest_rejection os with
            | Some e => Rejected e
            | None => Diverged
            end
        end
    end.

Definition Promise_all {A} (P : Platform) (units : list (M A)) : M (list A) :=
  fun w =>
    let (os, w') := run_all units w in
    (settle_all (first_rejection P) os, w').

(** [xs.map(async (x, idx) => f x idx)]. *)
Fixpoint mapi_from {A B} (i : nat) (f : A -> nat -> B) (xs : list A) : list B :=
  match xs with
  | [] => []
  | x :: xs' => f x i :: mapi_from (S i) f xs'
  end.

Definition mapi {A B} (f : A -> nat -> B) (xs : list A) : list B :=
  mapi_from 0 f xs.

(* ================================================================= *)
(** ** The remote call adapters *)
(* ================================================================= *)

Definition GENERATOR_MODEL : string := "gemini-3-pro-image-preview".
Definition ANALYZER_MODEL : string := "gemini-2.5-flash".

(** [s.split(',')[1]]. *)
Definition base64_payload (dataUrl : string) : option string :=
  nth_error (Js.split "," dataUrl) 1.

(** [fileToGenerativePart]: rejects when the reader fails. *)
Definition fileToGenerativePart (f : File) : M Part :=
  match readAsDataURL f with
  | None => throw readerErrorEvent
  | Some base64String => ret (InlinePart (base64_payload base64String) (type f))
  end.

(** The capture of the regular expression [:(.*?);]: the text between a
    colon and the first semicolon after it on the same line, for the first
    colon that has one. *)
Fixpoint until_semicolon (s : string) : option string :=
  match s with
  | EmptyString => None
  | String c s' =>
      if Ascii.eqb c ";" then Some EmptyString
      else if (nat_of_ascii c =? 10)%nat || (nat_of_ascii c =? 13)%nat then None
      else option_map (String c) (until_semicolon s')
  end.

Fixpoint match_mime (s : string) : option string :=
  match s with
  | EmptyString => None
  | String c s' =>
      if Ascii.eqb c ":" then
        match until_semicolon s' with
        | Some m => Some m
        | None => match_mime s'
        end
      else match_mime s'
  end.

Definition base64ToGenerativePart (base64DataUrl : string) : Part :=
  let base64Data := base64_payload base64DataUrl in
  let mimeType :=
    match match_mime base64DataUrl with
    | Some m => Js.or_else m "image/png"
    | None => "image/png"
    end in
  InlinePart base64Data mimeType.

Record AnalysisResult : Type := {
  description : string;
  analysisFilename : string
}.

Definition analysis_prompt : string :=
  "Analyze this product image." ++ Js.nl ++
  "      " ++ Js.nl ++
  "      1. VISUAL DESCRIPTION: Write a concise paragraph describing the product's visual identity (logos, text, materials, colors, construction) to preserve in editing." ++ Js.nl ++
  "      2. FILENAME: Generate a filename in this format: " ++ Js.dquote ++ "Brand-Design-Color-Category" ++ Js.dquote
    ++ ". Example: " ++ Js.dquote ++ "Nike-AirMax90-Red-Sneakers" ++ Js.dquote
    ++ ". Use " ++ Js.dquote ++ "Unknown" ++ Js.dquote ++ " if brand is not visible." ++ Js.nl ++
  "      " ++ Js.nl ++
  "      Return the result as a valid JSON object:" ++ Js.nl ++
  "      {" ++ Js.nl ++
  "        " ++ Js.dquote ++ "description" ++ Js.dquote ++ ": " ++ Js.dquote ++ "..." ++ Js.dquote ++ "," ++ Js.nl ++
  "        " ++ Js.dquote ++ "filename" ++ Js.dquote ++ ": " ++ Js.dquote ++ "..." ++ Js.dquote ++ Js.nl ++
  "      }".

(** The text the analysis adapter parses: [response.text || "{}"]. *)
Definition analysis_text (response : GenerateContentResponse) : string :=
  match text response with
  | Some t => Js.or_else t "{}"
  | None => "{}"
  end.

(** The request of the analysis adapter for a file. *)
Definition analysis_request (imagePart : Part) : GenerateContentParameters :=
  {| model := ANALYZER_MODEL;
     contents := [imagePart; TextPart analysis_prompt];
     config := JsonConfig "application/json" |}.

(** The operation the analysis adapter hands to the retry controller. *)
Definition analysis_attempt (P : Platform) (f : File) (apiKey : string)
  : M AnalysisResult :=
  try_catch
    (imagePart <- fileToGenerativePart f ;;
     response <- generateContent P apiKey (analysis_request imagePart) ;;
     let text := analysis_text response in
     json <- of_sum (JSON_parse P text) ;;
     d <- property_or json "description" EmptyString ;;
     n <- property_or json "filename" "processed-product" ;;
     ret {| description := d; analysisFilename := n |})
    (fun e =>
       emit (EvWarn "Analysis failed, proceeding without analysis:") ;;
       throw e).

Definition analyzeProductFeatures (P : Platform) (f : File) (apiKey : string)
    (onStatusUpdate : bool) : M AnalysisResult :=
  if negb (Js.truthy apiKey) then
    ret {| description := EmptyString; analysisFilename := "product" |}
  else
    status_update onStatusUpdate "Analyzing product identity..." ;;
    try_catch
      (runWithRetry (analysis_attempt P f apiKey) onStatusUpdate default_retries)
      (fun e =>
         emit (EvError "Analysis completely failed:") ;;
         ret {| description := EmptyString;
                analysisFilename := "processed-product" |}).

Definition safetySettings_all : list (HarmCategory * HarmBlockThreshold) :=
  [ (HARM_CATEGORY_HARASSMENT, BLOCK_ONLY_HIGH);
    (HARM_CATEGORY_HATE_SPEECH, BLOCK_ONLY_HIGH);
    (HARM_CATEGORY_SEXUALLY_EXPLICIT, BLOCK_ONLY_HIGH);
    (HARM_CATEGORY_DANGEROUS_CONTENT, BLOCK_ONLY_HIGH) ].

(** The loop over [responseParts]: the data of the first part that has
    inline data, the data being present and not empty. *)
Fixpoint first_inline_data (parts : list Part) : option string :=
  match parts with
  | [] => None
  | InlinePart (Some d) _ :: parts' =>
      if Js.truthy d then Some d else first_inline_data parts'
  | _ :: parts' => first_inline_data parts'
  end.

(** What the generation adapter makes of a response. *)
Definition extract_image (response : GenerateContentResponse) : M string :=
  match candidates response with
  | [] => throw (mkError "No candidates returned from the model.")
  | candidate :: _ =>
      let found :=
        match content candidate with
        | Some responseParts => first_inline_data responseParts
        | None => None
        end in
      match found with
      | Some d => ret ("data:image/png;base64," ++ d)
      | None =>
          let textOutput :=
            match text response with Some t => t | None => EmptyString end in
          if Js.truthy textOutput then
            throw (mkError ("Model returned text instead of image: "
                            ++ Js.slice0 150 textOutput ++ "..."))
          else throw (mkError "No image generated.")
      end
  end.

(** The request of the generation adapter. *)
Definition generation_request_of (parts : list Part) (imageSize : ImageSize)
    (aspectRatio : string) : GenerateContentParameters :=
  {| model := GENERATOR_MODEL;
     contents := parts;
     config := ImageConfig imageSize aspectRatio safetySettings_all |}.

(** The operation the generation adapter hands to the retry controller. *)
Definition generation_attempt (P : Platform) (parts : list Part)
    (apiKey : string) (imageSize : ImageSize) (aspectRatio : string)
  : M string :=
  response <- generateContent P apiKey
    (generation_request_of parts imageSize aspectRatio) ;;
  extract_image response.

Definition callGeminiGenerator (P : Platform) (parts : list Part)
    (apiKey : string) (imageSize : ImageSize) (onStatusUpdate : bool)
    (aspectRatio : string) : M string :=
  if negb (Js.truthy apiKey) then throw (mkError "API Key not provided.")
  else
    runWithRetry (generation_attempt P parts apiKey imageSize aspectRatio)
      onStatusUpdate default_retries.

Definition ImageSize_text (r : ImageSize) : string :=
  match r with
  | Size1K => "1K"
  | Size2K => "2K"
  | Size4K => "4K"
  end.

(** [upscaleImage]: one generation call, no analysis; the aspect ratio is
    the default of the adapter's parameter. *)
Definition upscaleImage (P : Platform) (base64Image : string)
    (resolution : ImageSize) (apiKey : string) (onStatusUpdate : bool)
  : M string :=
  let imgPart := base64ToGenerativePart base64Image in
  let prompt :=
    "Generate a " ++ ImageSize_text resolution
    ++ " HIGH-RESOLUTION version of this image. " ++ Js.nl
    ++ "TASK: Upscale and refine details. " ++ Js.nl
    ++ "CRITICAL: Maintain the EXACT product appearance, text, logos, and geometry. Do not alter the content, only enhance sharpness, clarity, and resolution. Output must be photo-realistic." in
  status_update onStatusUpdate
    ("Upscaling to " ++ ImageSize_text resolution ++ "...") ;;
  callGeminiGenerator P [imgPart; TextPart prompt] apiKey resolution
    onStatusUpdate "1:1".

(* ================================================================= *)
(** ** Prompt composition and strategy dispatch: [processImagesWithGemini] *)
(* ================================================================= *)

(** [bodyType || 'Men']. *)
Definition selectedBodyType_of (bodyType : option string) : string :=
  match bodyType with
  | Some b => Js.or_else b "Men"
  | None => "Men"
  end.

Definition strictBodyInstruction_of (selectedBodyType : string) : string :=
  Js.nl ++ Js.nl
  ++ "CRITICAL REQUIREMENT: The target body type for this generation is strict: "
  ++ Js.toUpperCase selectedBodyType ++ ". " ++ Js.nl
  ++ "If the prompt implies a human figure, model, or mannequin, it MUST match the "
  ++ selectedBodyType
  ++ " anatomy and proportions. Do not generate any other gender or age group.".

(** [referenceImageBase64 && presetId !== PresetType.BG_REMOVE_REPAIR],
    joined with the second test of [referenceImageBase64] at each use: the
    reference image to attach, if any. *)
Definition reference_to_use (referenceImageBase64 : option string)
    (presetId : PresetType) : option string :=
  match referenceImageBase64 with
  | Some r =>
      if Js.truthy r && negb (PresetType_eqb presetId BG_REMOVE_REPAIR)
      then Some r else None
  | None => None
  end.

Definition preserve_heading : string :=
  "IMPORTANT - PRESERVE THESE DETECTED PRODUCT DETAILS:".

(** The instruction text of a per-image unit. *)
Definition augmentedPrompt_of (customPrompt selectedBodyType description : string)
  : string :=
  let promptWithBodyType := Js.replace customPrompt "<BodyType>" selectedBodyType in
  promptWithBodyType ++ Js.nl ++ strictBodyInstruction_of selectedBodyType
  ++ Js.nl ++ Js.nl ++ preserve_heading ++ Js.nl ++ description.

(** One unit of the per-image batch: the body of the callback mapped over
    [sourceImages]. *)
Definition ghost_unit (P : Platform) (total : nat) (customPrompt apiKey : string)
    (imageQuality : ImageSize) (onStatusUpdate : bool)
    (reference : option string) (selectedBodyType : string)
    (img : SourceImage) (idx : nat) : M ProcessedImage :=
  status_update onStatusUpdate
    ("Analyzing image " ++ Js.string_of_nat (idx + 1) ++ "/"
     ++ Js.string_of_nat total ++ "...") ;;
  a <- analyzeProductFeatures P (file img) apiKey onStatusUpdate ;;
  status_update onStatusUpdate
    ("Generating image " ++ Js.string_of_nat (idx + 1) ++ "/"
     ++ Js.string_of_nat total ++ "...") ;;
  imgPart <- fileToGenerativePart (file img) ;;
  let augmentedPrompt :=
    augmentedPrompt_of customPrompt selectedBodyType (description a) in
  let requestParts :=
    (match reference with
     | Some r =>
         [TextPart "INPUT 1: STYLE REFERENCE IMAGE. Use the lighting, background style, and mood from this image. DO NOT use the object in this image.";
          base64ToGenerativePart r]
     | None => []
     end
     ++ [TextPart "INPUT 2: PRODUCT IMAGE. This is the object to be processed.";
         imgPart;
         TextPart ("TASK: " ++ augmentedPrompt)])%list in
  url <- callGeminiGenerator P requestParts apiKey imageQuality onStatusUpdate "3:4" ;;
  ret {| url := url; filename := analysisFilename a |}.

(** [sourceImages.find(i => i.label === 'Front View') || sourceImages[0]]. *)
Definition primaryImg_of (sourceImages : list SourceImage) : option SourceImage :=
  match find (fun i => String.eqb (label i) "Front View") sourceImages with
  | Some i => Some i
  | None => nth_error sourceImages 0
  end.

Definition separator : string := "========================================".

(** The loop that pushes, for every source image, its viewpoint text and
    its content. *)
Fixpoint viewpoint_parts (sourceImages : list SourceImage) : M (list Part) :=
  match sourceImages with
  | [] => ret []
  | img :: rest =>
      p <- fileToGenerativePart (file img) ;;
      ps <- viewpoint_parts rest ;;
      ret (TextPart ("Viewpoint: " ++ label img) :: p :: ps)
  end.

(** The shared context block [contextParts]. *)
Definition build_contextParts (sourceImages : list SourceImage)
    (onStatusUpdate : bool) (reference : option string) : M (list Part) :=
  styleParts <-
    match reference with
    | Some r =>
        status_update onStatusUpdate "Processing style reference..." ;;
        ret [TextPart (separator ++ Js.nl ++ "PART 1: STYLE REFERENCE" ++ Js.nl
                       ++ "Use the following image ONLY for background style, lighting, and color grading. DO NOT generate the object found in this image."
                       ++ Js.nl ++ separator);
             base64ToGenerativePart r]
    | None => ret []
    end ;;
  views <- viewpoint_parts sourceImages ;;
  ret (styleParts
       ++ TextPart (separator ++ Js.nl ++ "PART 2: SOURCE PRODUCT IMAGES" ++ Js.nl
                    ++ "The following images define the object you must generate. Preserve the identity, logos, and geometry of this object."
                    ++ Js.nl ++ separator)
       :: views)%list.

Definition default_angles : list string :=
  ["Front View"; "Side View"; "3/4 Perspective View"].

(** The angles the application offers ([AVAILABLE_ANGLES]). *)
Definition AVAILABLE_ANGLES : list string :=
  ["Front View"; "Side View"; "Back View"; "3/4 Perspective View";
   "Top Down View (Flat Lay)"; "Close-up Detail"; "Front & Back Composite"].

(** [targetAngles && targetAngles.length > 0 ? targetAngles : [...]]. *)
Definition anglesToGenerate_of (targetAngles : option (list string)) : list string :=
  match targetAngles with
  | Some (a :: l) => a :: l
  | _ => default_angles
  end.

Definition angleInstruction_of (angle : string) : string :=
  if String.eqb angle "Combined Front and Back View Side-by-Side"
     || String.eqb angle "Front & Back Composite"
  then "Create a single composite image showing both the Front View and Back View of the product side-by-side. Ensure both sides are clearly visible, same size, and evenly lit on a white background."
  else angle.

Definition anglePrompt_of (promptWithBodyType angle : string) : string :=
  let angleInstruction := angleInstruction_of angle in
  if Js.includes promptWithBodyType "{{ANGLE}}"
  then Js.replace promptWithBodyType "{{ANGLE}}" angleInstruction
  else "Generate view: " ++ angleInstruction ++ ". " ++ promptWithBodyType.

(** The instruction text of a per-angle unit. *)
Definition anglePromptWithAnalysis_of
    (customPrompt selectedBodyType description angle : string) : string :=
  let promptWithBodyType := Js.replace customPrompt "<BodyType>" selectedBodyType in
  anglePrompt_of promptWithBodyType angle ++ Js.nl
  ++ strictBodyInstruction_of selectedBodyType
  ++ Js.nl ++ Js.nl ++ preserve_heading ++ Js.nl ++ description.

(** [angle.split(' ')[0].toLowerCase().replace(/\s+/g, '-')]. *)
Definition angle_suffix (angle : string) : string :=
  Js.hyphenate (Js.toLowerCase (hd EmptyString (Js.split " " angle))).

(** One unit of the per-angle batch. *)
Definition angle_unit (P : Platform) (contextParts : list Part)
    (customPrompt apiKey : string) (imageQuality : ImageSize)
    (onStatusUpdate : bool) (selectedBodyType : string) (a : AnalysisResult)
    (angle : string) (index : nat) : M ProcessedImage :=
  let anglePromptWithAnalysis :=
    anglePromptWithAnalysis_of customPrompt selectedBodyType (description a) angle in
  let requestParts :=
    (contextParts ++ [TextPart ("TASK: " ++ anglePromptWithAnalysis)])%list in
  status_update onStatusUpdate ("Generating View: " ++ angle ++ "...") ;;
  url <- callGeminiGenerator P requestParts apiKey imageQuality onStatusUpdate "3:4" ;;
  ret {| url := url;
         filename := analysisFilename a ++ "-" ++ angle_suffix angle |}.

(** [cleanPrompt] of the single generation, with the two optional
    additions. *)
Definition cleanPrompt_of (customPrompt selectedBodyType : string)
    (environment additionalContext : option string) : string :=
  let cleanPrompt :=
    Js.or_else (Js.trim (Js.replace customPrompt "{{PROMPT}}" EmptyString))
               customPrompt in
  let cleanPrompt := Js.replace cleanPrompt "<BodyType>" selectedBodyType in
  let cleanPrompt :=
    match environment with
    | Some env =>
        if Js.truthy env
        then cleanPrompt ++ Js.nl ++ Js.nl
             ++ "ENVIRONMENT SETTING: Place the product in an " ++ env ++ " setting."
        else cleanPrompt
    | None => cleanPrompt
    end in
  match additionalContext with
  | Some ctx =>
      if Js.truthy ctx
      then cleanPrompt ++ Js.nl ++ Js.nl ++ "SPECIFIC SCENE DETAILS: " ++ ctx
      else cleanPrompt
  | None => cleanPrompt
  end.

(** The instruction text of the single generation. *)
Definition finalPromptWithAnalysis_of (presetId : PresetType)
    (customPrompt selectedBodyType : string)
    (environment additionalContext : option string) (description : string)
  : string :=
  let cleanPrompt :=
    cleanPrompt_of customPrompt selectedBodyType environment additionalContext in
  if PresetType_eqb presetId LIFESTYLE then
    "COMPOSITE TASK: " ++ cleanPrompt ++ Js.nl
    ++ strictBodyInstruction_of selectedBodyType ++ Js.nl ++ Js.nl
    ++ "STRICT REQUIREMENT: The object in the input image is the SOURCE OF TRUTH. Do not regenerate the geometry, text, or logos. You are a compositor, not a designer. Maintain these exact details:"
    ++ Js.nl ++ description
  else
    cleanPrompt ++ Js.nl ++ Js.nl ++ preserve_heading ++ Js.nl ++ description.

Definition processImagesWithGemini (P : Platform)
    (sourceImages : list SourceImage) (presetId : PresetType)
    (customPrompt apiKey : string) (imageQuality : ImageSize)
    (onStatusUpdate : bool) (referenceImageBase64 : option string)
    (targetAngles : option (list string)) (bodyType : option string)
    (targetAspectRatio : string)
    (environment additionalContext : option string)
  : M (list ProcessedImage) :=
  match find (fun p => PresetType_eqb (id p) presetId) PRESETS with
  | None => throw (mkError "Invalid preset selected")
  | Some preset =>
      let reference := reference_to_use referenceImageBase64 presetId in
      let selectedBodyType := selectedBodyType_of bodyType in
      if PresetType_eqb presetId GHOST_MANNEQUIN then
        Promise_all P
          (mapi (ghost_unit P (List.length sourceImages) customPrompt apiKey
                   imageQuality onStatusUpdate reference selectedBodyType)
                sourceImages)
      else
        let primaryImg := primaryImg_of sourceImages in
        status_update onStatusUpdate "Analyzing primary product features..." ;;
        primaryFile <-
          match primaryImg with
          | Some i => ret (file i)
          | None => throw (typeError "Cannot read properties of undefined (reading 'file')")
          end ;;
        a <- analyzeProductFeatures P primaryFile apiKey onStatusUpdate ;;
        contextParts <- build_contextParts sourceImages onStatusUpdate reference ;;
        if PresetType_eqb presetId ANGLES then
          Promise_all P
            (mapi (angle_unit P contextParts customPrompt apiKey imageQuality
                     onStatusUpdate selectedBodyType a)
                  (anglesToGenerate_of targetAngles))
        else
          let finalPromptWithAnalysis :=
            finalPromptWithAnalysis_of presetId customPrompt selectedBodyType
              environment additionalContext (description a) in
          let requestParts :=
            (contextParts ++ [TextPart ("TASK: " ++ finalPromptWithAnalysis)])%list in
          status_update onStatusUpdate "Generating final high-quality asset..." ;;
          resultUrl <- callGeminiGenerator P requestParts apiKey imageQuality
                         onStatusUpdate targetAspectRatio ;;
          ret [{| url := resultUrl; filename := analysisFilename a |}]
  end.

(* ================================================================= *)
(** ** The caller: [handleProcess] of the application component *)
(* ================================================================= *)

Module App.

(** The part of the component state that [handleProcess] reads. *)
Record State : Type := {
  apiKey : string;
  sourceImages : list SourceImage;
  selectedPreset : option Preset;
  customPrompt : string;
  imageQuality : ImageSize;
  referenceImage : option string;
  selectedAngles : list string;
  bodyType : string;
  lifestyleRatio : string;
  isPortrait : bool;
  lifestyleEnv : string;
  lifestyleContext : string
}.

Record ProcessingState : Type := {
  isProcessing : bool;
  statusMessage : option string;
  error : option string;
  processedImages : list ProcessedImage
}.

(** What [handleProcess] leaves behind: nothing but the key prompt, nothing
    at all, or a new processing state (and whether the stored key was
    cleared). *)
Inductive Handled : Type :=
| ShowKeyInput
| NothingToDo
| Finished (s : ProcessingState) (keyCleared : bool).

(** The aspect ratio string computed for the service. *)
Definition targetAspectRatio_of (presetId : PresetType) (lifestyleRatio : string)
    (isPortrait : bool) : string :=
  if PresetType_eqb presetId LIFESTYLE then
    if String.eqb lifestyleRatio "1:1" then "1:1"
    else if String.eqb lifestyleRatio "4:3" then
      (if isPortrait then "3:4" else "4:3")
    else if String.eqb lifestyleRatio "16:9" then
      (if isPortrait then "9:16" else "16:9")
    else "1:1"
  else "1:1".

Definition handleProcess (P : Platform) (st : State) : M Handled :=
  if negb (Js.truthy (apiKey st)) then ret ShowKeyInput
  else
    match sourceImages st, selectedPreset st with
    | [], _ | _, None => ret NothingToDo
    | _ :: _, Some preset =>
        let targetAspectRatio :=
          targetAspectRatio_of (id preset) (lifestyleRatio st) (isPortrait st) in
        try_catch
          (results <- processImagesWithGemini P (sourceImages st) (id preset)
                        (customPrompt st) (apiKey st) (imageQuality st) true
                        (referenceImage st) (Some (selectedAngles st))
                        (Some (bodyType st)) targetAspectRatio
                        (Some (lifestyleEnv st)) (Some (lifestyleContext st)) ;;
           ret (Finished {| isProcessing := false;
                            statusMessage := Some "Done!";
                            error := None;
                            processedImages := results |} false))
          (fun err =>
             let msg := match message err with Some m => m | None => EmptyString end in
             if Js.includes msg "Requested entity was not found"
                || Js.includes msg "403" || Js.includes msg "API key"
             then
               ret (Finished {| isProcessing := false;
                                statusMessage := None;
                                error := Some "API Key invalid or session expired. Please select a key again.";
                                processedImages := [] |} true)
             else
               ret (Finished {| isProcessing := false;
                                statusMessage := None;
                                error := Some (Js.or_else msg "An unexpected error occurred");
                                processedImages := [] |} false))
    end.

End App.

(* ================================================================= *)
(** ** Observations on traces *)
(* ================================================================= *)

Definition is_invoke (ev : Event) : bool :=
  match ev with EvInvoke => true | _ => false end.

Definition is_delay (ev : Event) : bool :=
  match ev with EvDelay _ => true | _ => false end.

Definition is_status (ev : Event) : bool :=
  match ev with EvStatus _ => true | _ => false end.

Definition is_remote (ev : Event) : bool :=
  match ev with EvRemote _ _ => true | _ => false end.


Definition count (p : Event -> bool) (tr : list Event) : nat :=
  List.length (filter p tr).

(** The requests sent to the generation model, oldest first. *)
Definition generation_request (ev : Event) : option GenerateContentParameters :=
  match ev with
  | EvRemote _ req =>
      match config req with
      | ImageConfig _ _ _ => Some req
      | JsonConfig _ => None
      end
  | _ => None
  end.

Fixpoint generation_requests (tr : list Event) : list GenerateContentParameters :=
  match tr with
  | [] => []
  | ev :: tr' =>
      match generation_request ev with
      | Some req => req :: generation_requests tr'
      | None => generation_requests tr'
      end
  end.

Definition aspectRatio_of (req : GenerateContentParameters) : option string :=
  match config req with
  | ImageConfig _ r _ => Some r
  | JsonConfig _ => None
  end.

(** The instruction text of a request: its last part, a text starting with
    the task marker. *)
Definition task_text (req : GenerateContentParameters) : option string :=
  match last (contents req) OtherPart with
  | TextPart t => Some t
  | _ => None
  end.

(** [c], started in [w], only appends to the trace, and every event it
    appends satisfies [I]. *)
Definition emits_at {A} (I : Event -> Prop) (c : M A) (w : World) : Prop :=
  exists delta, trace (snd (c w)) = (trace w ++ delta)%list /\ Forall I delta.

Definition emits {A} (I : Event -> Prop) (c : M A) : Prop :=
  forall w, emits_at I c w.

(** The events appended by a run from [w] that ended in [w']. *)
Definition new_events (w w' : World) : list Event :=
  skipn (List.length (trace w)) (trace w').

(** [c] cannot run out of fuel. *)
Definition terminates {A} (c : M A) : Prop :=
  forall w, fst (c w) <> Diverged.

(* ================================================================= *)
(** ** The retry bound, in the words of the specification *)
(* ================================================================= *)

(** The transient class as the specification lists it: status 429 or 503,
    or a message containing one of the three texts. *)
Definition listed_transient (e : JsError) : bool :=
  status_is e 429 || status_is e 503
  || message_includes e "429" || message_includes e "503"
  || message_includes e "quota".

(** The terminal class as the specification lists it. *)
Definition listed_terminal (e : JsError) : bool := negb (listed_transient e).

(** The terminal class of the code: as listed, the quota text being looked
    for in the lower-cased message. *)
Definition terminal_classified (e : JsError) : bool :=
  negb (status_is e 429) && negb (status_is e 503)
  && negb (message_includes e "429") && negb (message_includes e "503")
  && negb (message_lower_includes e "quota").


(** The controller events of one backoff: the status update, the fixed
    wait, the status update on resuming. *)
Definition backoff_events (onStatusUpdate : bool) (attempt retries : nat)
  : list Event :=
  ((if onStatusUpdate then [EvStatus (retry_message attempt retries)] else [])
   ++ [EvDelay 10000]
   ++ (if onStatusUpdate then [EvStatus "Resuming processing..."] else []))%list.


(** The world after the events of one backoff, warning included. *)
Definition after_backoff (sink : bool) (attempt retries : nat) (w : World)
  : World :=
  record_events
    (EvWarn ("Gemini API Busy. " ++ retry_message attempt retries)
     :: backoff_events sink attempt retries) w.


(* ================================================================= *)
(** ** Concrete inputs used by the examples *)
(* ================================================================= *)

(** An operation that rejects with [e] at every invocation. *)
Definition failing_operation (e : JsError) : M unit := throw e.

Definition rate_limit_error : JsError :=
  {| status := Some 429%Z; message := Some "Resource exhausted" |}.

(** A message that mentions the quota with a capital letter. *)
Definition quota_error : JsError := mkError "Quota exceeded for this project".

Definition not_found_error : JsError :=
  {| status := Some 404%Z; message := Some "Requested entity was not found" |}.

(** The events of the controller itself. *)
Definition controller_ok (I : Event -> Prop) : Prop :=
  I EvInvoke /\ (forall m, I (EvWarn m)) /\ (forall m, I (EvStatus m))
  /\ (forall ms, I (EvDelay ms)).


(* ================================================================= *)
(** ** Outcomes that do not depend on the world *)
(* ================================================================= *)

(** Whatever the world [c] starts in, its outcome satisfies [Q]. *)
Definition post {A} (c : M A) (Q : Outcome A -> Prop) : Prop :=
  forall w, Q (fst (c w)).

Definition resolves_to {A} (c : M A) (a : A) : Prop :=
  post c (fun o => o = Resolved a).

Definition rejects_with {A} (c : M A) (e : JsError) : Prop :=
  post c (fun o => o = Rejected e).

(** [c] ends, and by a rejection. *)
Definition rejects {A} (c : M A) : Prop :=
  post c (fun o => exists e, o = Rejected e).

(** [c] ends without a rejection. *)
Definition resolves {A} (c : M A) : Prop :=
  post c (fun o => exists a, o = Resolved a).

(** When [c] resolves, its value satisfies [Q]. *)
Definition ensures {A} (c : M A) (Q : A -> Prop) : Prop :=
  post c (fun o => forall a, o = Resolved a -> Q a).

(** The analysis result when the analysis failed. *)
Definition degraded_analysis : AnalysisResult :=
  {| description := EmptyString; analysisFilename := "processed-product" |}.


(** Every attempt of the analysis of [f] fails: the file cannot be read, or
    the service answers every analysis request with an error or with a text
    that [JSON.parse] rejects. *)
Definition analysis_always_fails (P : Platform) (f : File) (apiKey : string)
  : Prop :=
  match readAsDataURL f with
  | None => True
  | Some base64String =>
      forall n,
        match service P n apiKey
                (analysis_request (InlinePart (base64_payload base64String) (type f)))
        with
        | inl _ => True
        | inr response => exists e, JSON_parse P (analysis_text response) = inl e
        end
  end.

(** A service that is overloaded for good, with a parser that is never
    reached. *)
Definition overloaded_platform : Platform :=
  {| service := fun _ _ _ => inl rate_limit_error;
     JSON_parse := fun _ => inl (mkError "Unexpected end of JSON input");
     first_rejection := 0 |}.

Definition png_file (payload : string) : File :=
  {| readAsDataURL := Some ("data:image/png;base64," ++ payload);
     type := "image/png" |}.

(** A response with one candidate made of one inline image. *)
Definition image_response (d : string) : GenerateContentResponse :=
  {| candidates := [ {| content := Some [InlinePart (Some d) "image/png"] |} ];
     text := None |}.

(** A response with one candidate made of text only. *)
Definition text_response (t : string) : GenerateContentResponse :=
  {| candidates := [ {| content := Some [TextPart t] |} ];
     text := Some t |}.

(** The data of the first usable inline part of the first candidate. *)
Definition inline_image_of (response : GenerateContentResponse) : option string :=
  match candidates response with
  | [] => None
  | candidate :: _ =>
      match content candidate with
      | Some responseParts => first_inline_data responseParts
      | None => None
      end
  end.

Definition text_only_error (t : string) : JsError :=
  mkError ("Model returned text instead of image: " ++ Js.slice0 150 t ++ "...").

(** The world after one invocation by the controller that issued one remote
    request. *)
Definition after_one_request (apiKey : string) (req : GenerateContentParameters)
    (w : World) : World :=
  {| calls := S (calls w);
     trace := trace w ++ [EvInvoke; EvRemote apiKey req] |}.




(* ================================================================= *)
(** ** One logical request and the shape of its generation calls *)
(* ================================================================= *)

(** The arguments of one call of [processImagesWithGemini]. *)
Record Job : Type := {
  jobImages : list SourceImage;
  jobPreset : PresetType;
  jobPrompt : string;
  jobKey : string;
  jobQuality : ImageSize;
  jobSink : bool;
  jobReference : option string;
  jobAngles : option (list string);
  jobBodyType : option string;
  jobRatio : string;
  jobEnvironment : option string;
  jobContext : option string
}.

Definition run (P : Platform) (j : Job) : M (list ProcessedImage) :=
  processImagesWithGemini P (jobImages j) (jobPreset j) (jobPrompt j)
    (jobKey j) (jobQuality j) (jobSink j) (jobReference j) (jobAngles j)
    (jobBodyType j) (jobRatio j) (jobEnvironment j) (jobContext j).

Definition readable (img : SourceImage) : Prop :=
  readAsDataURL (file img) <> None.

(** [d] is a description that the analysis of [f] resolved with. *)
Definition analysis_derived (P : Platform) (j : Job) (f : File) (d : string)
  : Prop :=
  exists w1 w2 a,
    analyzeProductFeatures P f (jobKey j) (jobSink j) w1 = (Resolved a, w2)
    /\ description a = d.

(** The parts and the aspect ratio of a generation call of the job, [d]
    being the description obtained from the primary image: for the
    per-image strategy the call is for one of the source images, whose own
    analysis grounds the instruction; for the per-angle strategy it is for
    one of the angles; otherwise there is one instruction. *)
Definition call_shape (P : Platform) (j : Job) (d : string)
    (parts : list Part) (ratio : string) : Prop :=
  let body := selectedBodyType_of (jobBodyType j) in
  match jobPreset j with
  | GHOST_MANNEQUIN =>
      ratio = "3:4"
      /\ exists img s d' pre,
           In img (jobImages j)
           /\ readAsDataURL (file img) = Some s
           /\ analysis_derived P j (file img) d'
           /\ parts = (pre ++ [InlinePart (base64_payload s) (type (file img));
                               TextPart ("TASK: " ++ augmentedPrompt_of (jobPrompt j) body d')])%list
  | ANGLES =>
      ratio = "3:4"
      /\ exists angle pre,
           In angle (anglesToGenerate_of (jobAngles j))
           /\ parts = (pre ++ [TextPart ("TASK: " ++ anglePromptWithAnalysis_of
                                           (jobPrompt j) body d angle)])%list
  | presetId =>
      ratio = jobRatio j
      /\ exists pre,
           parts = (pre ++ [TextPart ("TASK: " ++ finalPromptWithAnalysis_of
                                        presetId (jobPrompt j) body
                                        (jobEnvironment j) (jobContext j) d)])%list
  end.

(** An event is in order when, if it is a request to the generation model,
    the request has the shape of a generation call of the job. *)
Definition request_in_shape (P : Platform) (j : Job) (d : string) (ev : Event)
  : Prop :=
  forall req, generation_request ev = Some req ->
    exists ratio, aspectRatio_of req = Some ratio
                  /\ call_shape P j d (contents req) ratio.

(** The description that grounds the shared instructions of a run started in
    [w]: the one the analysis of the primary image resolves with. *)
Definition shared_description (P : Platform) (j : Job) (w : World) : string :=
  match primaryImg_of (jobImages j) with
  | Some i =>
      match analyzeProductFeatures P (file i) (jobKey j) (jobSink j)
              (snd (status_update (jobSink j)
                      "Analyzing primary product features..." w)) with
      | (Resolved a, _) => description a
      | _ => EmptyString
      end
  | None => EmptyString
  end.

(** The job that [handleProcess] submits for a state and its preset. *)
Definition job_of (st : App.State) (preset : Preset) : Job :=
  {| jobImages := App.sourceImages st;
     jobPreset := id preset;
     jobPrompt := App.customPrompt st;
     jobKey := App.apiKey st;
     jobQuality := App.imageQuality st;
     jobSink := true;
     jobReference := App.referenceImage st;
     jobAngles := Some (App.selectedAngles st);
     jobBodyType := Some (App.bodyType st);
     jobRatio := App.targetAspectRatio_of (id preset) (App.lifestyleRatio st)
                   (App.isPortrait st);
     jobEnvironment := Some (App.lifestyleEnv st);
     jobContext := Some (App.lifestyleContext st) |}.

(* ================================================================= *)
(** ** Aspect ratios, in the words of the specification *)
(* ================================================================= *)

(** The three ratio families the caller chooses from. *)
Inductive RatioFamily : Type := Family_1_1 | Family_4_3 | Family_16_9.

Definition family_text (f : RatioFamily) : string :=
  match f with
  | Family_1_1 => "1:1"
  | Family_4_3 => "4:3"
  | Family_16_9 => "16:9"
  end.

(** The resolution table: the family and the portrait flag give the literal
    ratio. *)
Definition resolved_ratio (f : RatioFamily) (portrait : bool) : string :=
  match f, portrait with
  | Family_1_1, _ => "1:1"
  | Family_4_3, true => "3:4"
  | Family_4_3, false => "4:3"
  | Family_16_9, true => "9:16"
  | Family_16_9, false => "16:9"
  end.

(** The specification: the fixed ratio for the per-image and the per-angle
    strategy, the table for every composite strategy. *)
Definition specified_ratio (presetId : PresetType) (f : RatioFamily)
    (portrait : bool) : string :=
  match presetId with
  | GHOST_MANNEQUIN | ANGLES => "3:4"
  | LIFESTYLE | BG_REMOVE_REPAIR => resolved_ratio f portrait
  end.

(** The code: the table is consulted for the lifestyle strategy only; the
    other composite strategy always gets the square ratio. *)
Definition passed_ratio (presetId : PresetType) (f : RatioFamily)
    (portrait : bool) : string :=
  match presetId with
  | GHOST_MANNEQUIN | ANGLES => "3:4"
  | LIFESTYLE => resolved_ratio f portrait
  | BG_REMOVE_REPAIR => "1:1"
  end.

(* ================================================================= *)
(** ** Grounding, in the words of the specification *)
(* ================================================================= *)

(** [t] ends with [s]. *)
Fixpoint ends_with (t s : string) : bool :=
  String.eqb t s
  || match t with
     | EmptyString => false
     | String _ t' => ends_with t' s
     end.

(** The instruction text [t] carries the description [d]: it ends with the
    sentence that announces the details of the product, then [d] on the
    next line. *)
Definition carries_description (t d : string) : bool :=
  ends_with t ("IMPORTANT - PRESERVE THESE DETECTED PRODUCT DETAILS:"
               ++ Js.nl ++ d)
  || ends_with t ("STRICT REQUIREMENT: The object in the input image is the SOURCE OF TRUTH. Do not regenerate the geometry, text, or logos. You are a compositor, not a designer. Maintain these exact details:"
                  ++ Js.nl ++ d).

(** The texts that [t] ends with, and what follows the heading [h] in each
    of them that starts with [h]. *)
Fixpoint suffixes (t : string) : list string :=
  t :: match t with
       | EmptyString => []
       | String _ t' => suffixes t'
       end.

Definition after_heading (h s : string) : list string :=
  if prefix h s then [Js.drop (String.length h) s] else [].

(** Every description that the instruction text [t] carries. *)
Definition carried_descriptions (t : string) : list string :=
  flat_map
    (fun s =>
       after_heading ("IMPORTANT - PRESERVE THESE DETECTED PRODUCT DETAILS:"
                      ++ Js.nl) s
       ++ after_heading ("STRICT REQUIREMENT: The object in the input image is the SOURCE OF TRUTH. Do not regenerate the geometry, text, or logos. You are a compositor, not a designer. Maintain these exact details:"
                         ++ Js.nl) s)%list
    (suffixes t).

(** The instruction text of [req] is the one the job composes around the
    description [d], and it carries [d]. *)
Definition grounded_in (j : Job) (d : string) (req : GenerateContentParameters)
  : Prop :=
  let body := selectedBodyType_of (jobBodyType j) in
  match jobPreset j with
  | GHOST_MANNEQUIN =>
      task_text req = Some ("TASK: " ++ augmentedPrompt_of (jobPrompt j) body d)
  | ANGLES =>
      exists angle,
        In angle (anglesToGenerate_of (jobAngles j))
        /\ task_text req = Some ("TASK: " ++ anglePromptWithAnalysis_of
                                   (jobPrompt j) body d angle)
  | presetId =>
      task_text req = Some ("TASK: " ++ finalPromptWithAnalysis_of presetId
                              (jobPrompt j) body (jobEnvironment j)
                              (jobContext j) d)
  end
  /\ exists t, task_text req = Some t /\ carries_description t d = true.

(** The requests to the generation model that a run of the job started in
    [w] sends. *)
Definition requests_of_run (P : Platform) (j : Job) (w : World)
  : list GenerateContentParameters :=
  generation_requests (new_events w (snd (run P j w))).

(* ================================================================= *)
(** ** A studio that works: the platform of the worked examples *)
(* ================================================================= *)

Definition json_answer (d n : string) : string :=
  "{" ++ Js.dquote ++ "description" ++ Js.dquote ++ ": " ++ Js.dquote ++ d
  ++ Js.dquote ++ ", " ++ Js.dquote ++ "filename" ++ Js.dquote ++ ": "
  ++ Js.dquote ++ n ++ Js.dquote ++ "}".

Definition shoe_json : string := json_answer "red shoe" "Acme-Runner-Red-Sneakers".
Definition hat_json : string := json_answer "blue hat" "Acme-Brim-Blue-Hats".

Definition is_payload (p : Part) (payload : string) : bool :=
  match p with
  | InlinePart (Some d) _ => String.eqb d payload
  | _ => false
  end.

(** The analysis model describes the two products it knows; the generation
    model always draws.  [JSON.parse] is given on the two answers. *)
Definition studio_platform : Platform :=
  {| service := fun _ _ req =>
       match config req with
       | ImageConfig _ _ _ => inr (image_response "AAAA")
       | JsonConfig _ =>
           match contents req with
           | p :: _ =>
               if is_payload p "SHOE" then inr (text_response shoe_json)
               else if is_payload p "HAT" then inr (text_response hat_json)
               else inl not_found_error
           | [] => inl not_found_error
           end
       end;
     JSON_parse := fun s =>
       if String.eqb s shoe_json then
         inr (JObject [("description", JString "red shoe");
                       ("filename", JString "Acme-Runner-Red-Sneakers")])
       else if String.eqb s hat_json then
         inr (JObject [("description", JString "blue hat");
                       ("filename", JString "Acme-Brim-Blue-Hats")])
       else inl (mkError "Unexpected token in JSON");
     first_rejection := 0 |}.

Definition shoe_image : SourceImage :=
  {| file := png_file "SHOE"; label := "Front View" |}.

Definition hat_image : SourceImage :=
  {| file := png_file "HAT"; label := "Back View" |}.

Definition example_job (presetId : PresetType) (images : list SourceImage)
    (angles : option (list string)) (ratio : string) : Job :=
  {| jobImages := images;
     jobPreset := presetId;
     jobPrompt := "Show it on a <BodyType> model.";
     jobKey := "key";
     jobQuality := Size1K;
     jobSink := true;
     jobReference := None;
     jobAngles := angles;
     jobBodyType := Some "Women";
     jobRatio := ratio;
     jobEnvironment := None;
     jobContext := None |}.

Definition example_state (presetId : PresetType) (ratio : string)
    (portrait : bool) : App.State :=
  {| App.apiKey := "key";
     App.sourceImages := [shoe_image];
     App.selectedPreset := Some {| id := presetId; presetLabel := "preset" |};
     App.customPrompt := "Show it on a <BodyType> model.";
     App.imageQuality := Size1K;
     App.referenceImage := None;
     App.selectedAngles := default_angles;
     App.bodyType := "Men";
     App.lifestyleRatio := ratio;
     App.isPortrait := portrait;
     App.lifestyleEnv := "Outdoor";
     App.lifestyleContext := EmptyString |}.

(* ================================================================= *)
(** ** Failing runs *)
(* ================================================================= *)

(** [c] ends by a rejection with an error in [S]. *)
Definition rejects_in {A} (c : M A) (S : JsError -> Prop) : Prop :=
  post c (fun o => exists e, o = Rejected e /\ S e).

(** [c] ends, by a value or by a rejection with an error in [S]. *)
Definition resolves_or_rejects_in {A} (c : M A) (S : JsError -> Prop) : Prop :=
  post c (fun o => match o with
                   | Resolved _ => True
                   | Rejected e => S e
                   | Diverged => False
                   end).

(** The error of the generation adapter when the credential is missing. *)
Definition missing_key_error : JsError := mkError "API Key not provided.".

(** The same job, without a credential. *)
Definition without_key (j : Job) : Job :=
  {| jobImages := jobImages j;
     jobPreset := jobPreset j;
     jobPrompt := jobPrompt j;
     jobKey := EmptyString;
     jobQuality := jobQuality j;
     jobSink := jobSink j;
     jobReference := jobReference j;
     jobAngles := jobAngles j;
     jobBodyType := jobBodyType j;
     jobRatio := jobRatio j;
     jobEnvironment := jobEnvironment j;
     jobContext := jobContext j |}.

(** An event that is neither a remote request nor an activity of the retry
    controller. *)
Definition no_remote_activity (ev : Event) : Prop :=
  is_remote ev = false /\ is_delay ev = false /\ is_invoke ev = false.


(* ================================================================= *)
(** ** Angles, in the words of the specification *)
(* ================================================================= *)

(** The characters up to the first white space. *)
Fixpoint take_word (s : string) : string :=
  match s with
  | EmptyString => EmptyString
  | String c s' => if Js.is_space c then EmptyString else String c (take_word s')
  end.

(** The first word of a label, words being separated by white space. *)
Definition first_word (s : string) : string := take_word (Js.trimStart s).

(** The suffix as the specification words it: the first word, lower-cased. *)
Definition specified_suffix (angle : string) : string :=
  Js.toLowerCase (first_word angle).

(** The same job, for other angles. *)
Definition with_angles (j : Job) (angles : option (list string)) : Job :=
  {| jobImages := jobImages j;
     jobPreset := jobPreset j;
     jobPrompt := jobPrompt j;
     jobKey := jobKey j;
     jobQuality := jobQuality j;
     jobSink := jobSink j;
     jobReference := jobReference j;
     jobAngles := angles;
     jobBodyType := jobBodyType j;
     jobRatio := jobRatio j;
     jobEnvironment := jobEnvironment j;
     jobContext := jobContext j |}.

(** A label with a tabulation inside its first piece, and one that starts
    with a space. *)
Definition tabbed_label : string :=
  "Top" ++ Js.str (ascii_of_nat 9) ++ "Down View".

Definition indented_label : string := " Front View".

(** A label whose first word starts with a capital of Latin-1 (E acute,
    code unit 201) and holds a small one (e grave, 232). *)
Definition accented_label : string :=
  String (ascii_of_nat 201) "tag" ++ String (ascii_of_nat 232) "re View".

(** [stem] is a file name stem that the analysis of the primary image of the
    job resolved with. *)
Definition analysis_stem (P : Platform) (j : Job) (stem : string) : Prop :=
  exists primary w1 w2 a,
    primaryImg_of (jobImages j) = Some primary
    /\ analyzeProductFeatures P (file primary) (jobKey j) (jobSink j) w1
       = (Resolved a, w2)
    /\ analysisFilename a = stem.

(** [r] is what the unit of [angle] resolved with, in some world. *)
Definition result_of_angle (P : Platform) (j : Job) (angle : string)
    (r : ProcessedImage) : Prop :=
  exists contextParts a index w1 w2,
    angle_unit P contextParts (jobPrompt j) (jobKey j) (jobQuality j)
      (jobSink j) (selectedBodyType_of (jobBodyType j)) a angle index w1
    = (Resolved r, w2).

(* ================================================================= *)
(** ** The body-type placeholder *)
(* ================================================================= *)

Definition BodyType_placeholder : string := "<BodyType>".

(** [customPrompt.replace('{{PROMPT}}', '').trim() || customPrompt]. *)
Definition stripped_prompt (customPrompt : string) : string :=
  Js.or_else (Js.trim (Js.replace customPrompt "{{PROMPT}}" EmptyString))
             customPrompt.

(** The text in which the placeholder is looked for: the caller's text, for
    the single generation after the removal of the prompt slot. *)
Definition searched_prompt (presetId : PresetType) (customPrompt : string)
  : string :=
  match presetId with
  | GHOST_MANNEQUIN | ANGLES => customPrompt
  | LIFESTYLE | BG_REMOVE_REPAIR => stripped_prompt customPrompt
  end.

(** The two optional additions of the single generation. *)
Definition scene_addenda (environment additionalContext : option string)
  : string :=
  match environment with
  | Some env =>
      if Js.truthy env
      then Js.nl ++ Js.nl ++ "ENVIRONMENT SETTING: Place the product in an "
           ++ env ++ " setting."
      else EmptyString
  | None => EmptyString
  end
  ++ match additionalContext with
     | Some ctx =>
         if Js.truthy ctx
         then Js.nl ++ Js.nl ++ "SPECIFIC SCENE DETAILS: " ++ ctx
         else EmptyString
     | None => EmptyString
     end.

(** The instruction text of a generation call of the job, given the text
    [prompt] that results from the substitution of the body type. *)
Definition instruction_around (j : Job) (prompt d : string)
    (text : string) : Prop :=
  let body := selectedBodyType_of (jobBodyType j) in
  match jobPreset j with
  | GHOST_MANNEQUIN =>
      text = prompt ++ Js.nl ++ strictBodyInstruction_of body
             ++ Js.nl ++ Js.nl ++ preserve_heading ++ Js.nl ++ d
  | ANGLES =>
      exists angle,
        text = anglePrompt_of prompt angle ++ Js.nl
               ++ strictBodyInstruction_of body
               ++ Js.nl ++ Js.nl ++ preserve_heading ++ Js.nl ++ d
  | LIFESTYLE =>
      text = "COMPOSITE TASK: "
             ++ (prompt ++ scene_addenda (jobEnvironment j) (jobContext j))
             ++ Js.nl ++ strictBodyInstruction_of body ++ Js.nl ++ Js.nl
             ++ "STRICT REQUIREMENT: The object in the input image is the SOURCE OF TRUTH. Do not regenerate the geometry, text, or logos. You are a compositor, not a designer. Maintain these exact details:"
             ++ Js.nl ++ d
  | BG_REMOVE_REPAIR =>
      text = (prompt ++ scene_addenda (jobEnvironment j) (jobContext j))
             ++ Js.nl ++ Js.nl ++ preserve_heading ++ Js.nl ++ d
  end.

(** A prompt that names the placeholder twice, and a body type made of a
    replacement pattern. *)
Definition twice_prompt : string :=
  "Fit for <BodyType>, cut for <BodyType>.".


(* ================================================================= *)
(** ** A run whose analysis failed *)
(* ================================================================= *)

(** What a run returns when every analysis failed and every generation call
    drew the image [d]: one result per unit, named after the generic stem. *)
Definition degraded_results (j : Job) (d : string) : list ProcessedImage :=
  let url := "data:image/png;base64," ++ d in
  match jobPreset j with
  | GHOST_MANNEQUIN =>
      map (fun _ => {| url := url; filename := "processed-product" |})
          (jobImages j)
  | ANGLES =>
      map (fun angle => {| url := url;
                           filename := "processed-product" ++ "-"
                                       ++ angle_suffix angle |})
          (anglesToGenerate_of (jobAngles j))
  | _ => [{| url := url; filename := "processed-product" |}]
  end.

(** A studio whose analysis model is out of order. *)
Definition blind_platform : Platform :=
  {| service := fun _ _ req =>
       match config req with
       | ImageConfig _ _ _ => inr (image_response "AAAA")
       | JsonConfig _ => inl not_found_error
       end;
     JSON_parse := fun _ => inl (mkError "Unexpected end of JSON input");
     first_rejection := 0 |}.

(** What a run passes to the generation adapter as aspect ratio. *)
Definition dispatched_ratio (j : Job) : string :=
  match jobPreset j with
  | GHOST_MANNEQUIN | ANGLES => "3:4"
  | LIFESTYLE | BG_REMOVE_REPAIR => jobRatio j
  end.




(* ================================================================= *)
(** ** The exact parts of the requests of a run *)
(* ================================================================= *)

(** The part that [fileToGenerativePart] resolves with for a file that can
    be read. *)
Definition image_part (f : File) : Part :=
  match readAsDataURL f with
  | Some s => InlinePart (base64_payload s) (type f)
  | None => OtherPart
  end.

(** The style reference block at the head of the shared context. *)
Definition style_reference_block (reference : option string) : list Part :=
  match reference with
  | Some r =>
      [TextPart (separator ++ Js.nl ++ "PART 1: STYLE REFERENCE" ++ Js.nl
                 ++ "Use the following image ONLY for background style, lighting, and color grading. DO NOT generate the object found in this image."
                 ++ Js.nl ++ separator);
       base64ToGenerativePart r]
  | None => []
  end.

Definition source_heading : Part :=
  TextPart (separator ++ Js.nl ++ "PART 2: SOURCE PRODUCT IMAGES" ++ Js.nl
            ++ "The following images define the object you must generate. Preserve the identity, logos, and geometry of this object."
            ++ Js.nl ++ separator).

(** Every source image in order, its viewpoint text before its content. *)
Fixpoint viewpoints (sourceImages : list SourceImage) : list Part :=
  match sourceImages with
  | [] => []
  | img :: rest =>
      TextPart ("Viewpoint: " ++ label img) :: image_part (file img)
      :: viewpoints rest
  end.

(** The value of [contextParts] when the files can be read. *)
Definition shared_context (sourceImages : list SourceImage)
    (reference : option string) : list Part :=
  (style_reference_block reference ++ source_heading :: viewpoints sourceImages)%list.

(** The parts that precede the task text in a per-image request. *)
Definition ghost_inputs (reference : option string) (img : SourceImage)
  : list Part :=
  (match reference with
   | Some r =>
       [TextPart "INPUT 1: STYLE REFERENCE IMAGE. Use the lighting, background style, and mood from this image. DO NOT use the object in this image.";
        base64ToGenerativePart r]
   | None => []
   end
   ++ [TextPart "INPUT 2: PRODUCT IMAGE. This is the object to be processed.";
       image_part (file img)])%list.

(** The parts and the ratio of a generation call of the job, in full. *)
Definition exact_call (P : Platform) (j : Job) (d : string)
    (parts : list Part) (ratio : string) : Prop :=
  let body := selectedBodyType_of (jobBodyType j) in
  let reference := reference_to_use (jobReference j) (jobPreset j) in
  match jobPreset j with
  | GHOST_MANNEQUIN =>
      ratio = "3:4"
      /\ exists img d',
           In img (jobImages j)
           /\ readable img
           /\ analysis_derived P j (file img) d'
           /\ parts = (ghost_inputs reference img
                       ++ [TextPart ("TASK: " ++ augmentedPrompt_of (jobPrompt j) body d')])%list
  | ANGLES =>
      ratio = "3:4"
      /\ Forall readable (jobImages j)
      /\ exists angle,
           In angle (anglesToGenerate_of (jobAngles j))
           /\ parts = (shared_context (jobImages j) reference
                       ++ [TextPart ("TASK: " ++ anglePromptWithAnalysis_of
                                       (jobPrompt j) body d angle)])%list
  | presetId =>
      ratio = jobRatio j
      /\ Forall readable (jobImages j)
      /\ parts = (shared_context (jobImages j) reference
                  ++ [TextPart ("TASK: " ++ finalPromptWithAnalysis_of
                                  presetId (jobPrompt j) body
                                  (jobEnvironment j) (jobContext j) d)])%list
  end.

(** The files a run analyses: each source image for the per-image strategy,
    the primary image otherwise. *)
Definition analysed_file (j : Job) (f : File) : Prop :=
  match jobPreset j with
  | GHOST_MANNEQUIN => exists img, In img (jobImages j) /\ f = file img
  | _ => exists i, primaryImg_of (jobImages j) = Some i /\ f = file i
  end.

(** An event is a well-formed request of the job (or no request at all):
    made with the credential of the job; to the generation model, with the
    quality of the job and parts and ratio of an exact call; or to the
    analysis model, about a file the job analyses that can be read. *)
Definition well_formed_request (P : Platform) (j : Job) (d : string)
    (ev : Event) : Prop :=
  match ev with
  | EvRemote apiKey req =>
      apiKey = jobKey j
      /\ ((exists parts ratio,
              req = generation_request_of parts (jobQuality j) ratio
              /\ exact_call P j d parts ratio)
          \/ (exists f, analysed_file j f
                        /\ readAsDataURL f <> None
                        /\ req = analysis_request (image_part f)))
  | _ => True
  end.

(** The remote requests among some events, with their credentials. *)
Fixpoint remote_requests (tr : list Event)
  : list (string * GenerateContentParameters) :=
  match tr with
  | [] => []
  | EvRemote apiKey req :: tr' => (apiKey, req) :: remote_requests tr'
  | _ :: tr' => remote_requests tr'
  end.

(** The requests to the analysis model among some events. *)
Fixpoint analysis_requests (tr : list Event) : list GenerateContentParameters :=
  match tr with
  | [] => []
  | EvRemote _ req :: tr' =>
      match config req with
      | JsonConfig _ => req :: analysis_requests tr'
      | ImageConfig _ _ _ => analysis_requests tr'
      end
  | _ :: tr' => analysis_requests tr'
  end.

(** The inline parts of a request. *)
Definition inline_parts (parts : list Part) : list Part :=
  filter (fun p => match p with InlinePart _ _ => true | _ => false end) parts.

(* ================================================================= *)
(** ** Counting the events of a computation *)
(* ================================================================= *)

(** [c] only appends to the trace, and at most [n] events that satisfy
    [p]. *)
Definition adds_at_most {A} (p : Event -> bool) (n : nat) (c : M A) : Prop :=
  forall w, exists delta,
    trace (snd (c w)) = (trace w ++ delta)%list /\ count p delta <= n.

(** The events of a kind the retry controller does not produce by itself,
    but for the waits. *)
Definition foreign_to_controller (p : Event -> bool) : Prop :=
  p EvInvoke = false /\ (forall m, p (EvWarn m) = false)
  /\ (forall m, p (EvStatus m) = false).


(** The number of remote requests a run may send at most, and the number
    of waits: eleven requests and ten waits for each analysis and for each
    generation call. *)
Definition adapter_calls (j : Job) : nat :=
  match jobPreset j with
  | GHOST_MANNEQUIN => 2 * List.length (jobImages j)
  | ANGLES => 1 + List.length (anglesToGenerate_of (jobAngles j))
  | LIFESTYLE | BG_REMOVE_REPAIR => 2
  end.

(** From its [first]-th request on, the service answers [req] with [k]
    errors of the listed transient class, then with the response [r]. *)
Definition recovers_after (P : Platform) (apiKey : string)
    (req : GenerateContentParameters) (first k : nat)
    (r : GenerateContentResponse) : Prop :=
  (forall i, i < k ->
             exists e, service P (first + i) apiKey req = inl e
                       /\ listed_transient e = true)
  /\ service P (first + k) apiKey req = inr r.

(** A service that is overloaded for its first three requests. *)
Definition recovering_platform : Platform :=
  {| service := fun n _ _ =>
       if (n <? 3)%nat then inl rate_limit_error
       else inr (image_response "AAAA");
     JSON_parse := fun _ => inl (mkError "Unexpected end of JSON input");
     first_rejection := 0 |}.

(* ================================================================= *)
(** ** What the requests of a run carry *)
(* ================================================================= *)

(** The inline part of the style reference, when one is used. *)
Definition reference_parts (reference : option string) : list Part :=
  match reference with
  | Some r => [base64ToGenerativePart r]
  | None => []
  end.

Definition source_parts (sourceImages : list SourceImage) : list Part :=
  map (fun img => image_part (file img)) sourceImages.

(** The images of a generation request of the job: the style reference
    first when it is used, then the one product image of the unit for the
    per-image strategy, every source image in order otherwise. *)
Definition images_sent (j : Job) (req : GenerateContentParameters) : Prop :=
  let reference :=
    reference_parts (reference_to_use (jobReference j) (jobPreset j)) in
  match jobPreset j with
  | GHOST_MANNEQUIN =>
      exists img, In img (jobImages j)
                  /\ inline_parts (contents req)
                     = (reference ++ [image_part (file img)])%list
  | _ =>
      inline_parts (contents req)
      = (reference ++ source_parts (jobImages j))%list
  end.



(** Two source images, the second one labelled as the front view, and a job
    with a style reference. *)
Definition back_first_images : list SourceImage :=
  [ {| file := png_file "HAT"; label := "Back View" |};
    {| file := png_file "SHOE"; label := "Front View" |} ].

Definition styled_job (presetId : PresetType) : Job :=
  {| jobImages := back_first_images;
     jobPreset := presetId;
     jobPrompt := "Show it on a <BodyType> model.";
     jobKey := "key";
     jobQuality := Size2K;
     jobSink := true;
     jobReference := Some "data:image/jpeg;base64,STYLE";
     jobAngles := None;
     jobBodyType := None;
     jobRatio := "16:9";
     jobEnvironment := Some "Outdoor";
     jobContext := None |}.

(* ================================================================= *)
(** ** The results of a run, by where they come from *)
(* ================================================================= *)

(** [u] is the address made of an image that the service drew in answer
    to [req]. *)
Definition drawn_by (P : Platform) (apiKey : string)
    (req : GenerateContentParameters) (u : string) : Prop :=
  exists n r d,
    service P n apiKey req = inr r
    /\ inline_image_of r = Some d
    /\ u = "data:image/png;base64," ++ d.

(** [r] is a result of the unit of [img] in a per-image run: named by the
    analysis of [img], and drawn in answer to the request made of [img] and
    of the description of that analysis. *)
Definition per_image_result (P : Platform) (j : Job) (img : SourceImage)
    (r : ProcessedImage) : Prop :=
  exists w1 w2 a,
    analyzeProductFeatures P (file img) (jobKey j) (jobSink j) w1
    = (Resolved a, w2)
    /\ filename r = analysisFilename a
    /\ drawn_by P (jobKey j)
         (generation_request_of
            (ghost_inputs (reference_to_use (jobReference j) (jobPreset j)) img
             ++ [TextPart ("TASK: " ++ augmentedPrompt_of (jobPrompt j)
                             (selectedBodyType_of (jobBodyType j))
                             (description a))])%list
            (jobQuality j) "3:4")
         (url r).

(** [r] is the result of a single generation: named by the analysis of the
    primary image, and drawn in answer to the request made of every source
    image and of the description of that analysis. *)
Definition composite_result (P : Platform) (j : Job) (r : ProcessedImage)
  : Prop :=
  exists primary w1 w2 a,
    primaryImg_of (jobImages j) = Some primary
    /\ analyzeProductFeatures P (file primary) (jobKey j) (jobSink j) w1
       = (Resolved a, w2)
    /\ filename r = analysisFilename a
    /\ drawn_by P (jobKey j)
         (generation_request_of
            (shared_context (jobImages j)
               (reference_to_use (jobReference j) (jobPreset j))
             ++ [TextPart ("TASK: " ++ finalPromptWithAnalysis_of (jobPreset j)
                             (jobPrompt j)
                             (selectedBodyType_of (jobBodyType j))
                             (jobEnvironment j) (jobContext j)
                             (description a))])%list
            (jobQuality j) (jobRatio j))
         (url r).

(** [json.name || fallback] for a parsed value that is not [null]. *)
Definition own_text (json : JsValue) (name fallback : string) : string :=
  match json with
  | JObject fields =>
      match lookup_field name fields with
      | Some v => if js_truthy v then ToString v else fallback
      | None => fallback
      end
  | _ => fallback
  end.

(** The analysis result made of a parsed answer. *)
Definition analysis_of (json : JsValue) : AnalysisResult :=
  {| description := own_text json "description" EmptyString;
     analysisFilename := own_text json "filename" "processed-product" |}.

(* ================================================================= *)
(** ** Data addresses and the upscaling request *)
(* ================================================================= *)

(** [s] does not contain the character [c]. *)
Fixpoint free_of (c : ascii) (s : string) : bool :=
  match s with
  | EmptyString => true
  | String d s' => negb (Ascii.eqb d c) && free_of c s'
  end.

(** A media type that can stand in a data address: no comma, no semicolon
    and no line break. *)
Definition plain_media_type (m : string) : bool :=
  free_of "," m && free_of ";" m
  && free_of (ascii_of_nat 10) m && free_of (ascii_of_nat 13) m.

(** The address [data:<media type>;base64,<payload>]. *)
Definition data_url (mediaType payload : string) : string :=
  "data:" ++ mediaType ++ ";base64," ++ payload.

(** The request of [upscaleImage] for an image and a resolution. *)
Definition upscale_request (base64Image : string) (resolution : ImageSize)
  : GenerateContentParameters :=
  generation_request_of
    [ base64ToGenerativePart base64Image;
      TextPart ("Generate a " ++ ImageSize_text resolution
                ++ " HIGH-RESOLUTION version of this image. " ++ Js.nl
                ++ "TASK: Upscale and refine details. " ++ Js.nl
                ++ "CRITICAL: Maintain the EXACT product appearance, text, logos, and geometry. Do not alter the content, only enhance sharpness, clarity, and resolution. Output must be photo-realistic.") ]
    resolution "1:1".

(** The status update before the first request of the analysis adapter. *)
Definition analysis_status (sink : bool) : list Event :=
  if sink then [EvStatus "Analyzing product identity..."] else [].

(** The reader of the file succeeds. *)
Definition readable_file (f : File) : Prop := readAsDataURL f <> None.

(* ================================================================= *)
(** ** The component: what it shows *)
(* ================================================================= *)

Module View.

(** The aspect ratio derived for display, from the selected preset and the
    ratio controls. *)
Definition targetAspectRatio (selectedPreset : option Preset)
    (lifestyleRatio : string) (isPortrait : bool) : string :=
  match selectedPreset with
  | Some preset =>
      if PresetType_eqb (id preset) GHOST_MANNEQUIN
         || PresetType_eqb (id preset) ANGLES
      then "3:4"
      else if PresetType_eqb (id preset) LIFESTYLE then
        if String.eqb lifestyleRatio "1:1" then "1:1"
        else if String.eqb lifestyleRatio "4:3" then
          (if isPortrait then "3:4" else "4:3")
        else if String.eqb lifestyleRatio "16:9" then
          (if isPortrait then "9:16" else "16:9")
        else "1:1"
      else "1:1"
  | None => "1:1"
  end.

(** The ratio displayed for a state of the component. *)
Definition displayed_ratio (st : App.State) : string :=
  targetAspectRatio (App.selectedPreset st) (App.lifestyleRatio st)
    (App.isPortrait st).

End View.

(** What [handleProcess] leaves behind is consistent: the key prompt only
    without a credential, nothing only without source image or preset, and
    else a state that is no longer processing and that holds either results
    under the message Done! or a non-empty error message and no result; the
    stored key is cleared only with the message about the key. *)
Definition consistent_outcome (st : App.State) (h : App.Handled) : Prop :=
  match h with
  | App.ShowKeyInput => Js.truthy (App.apiKey st) = false
  | App.NothingToDo =>
      App.sourceImages st = [] \/ App.selectedPreset st = None
  | App.Finished s cleared =>
      App.isProcessing s = false
      /\ ((App.error s = None /\ App.statusMessage s = Some "Done!"
           /\ cleared = false)
          \/ (exists m, App.error s = Some m /\ Js.truthy m = true
                        /\ App.processedImages s = []
                        /\ (cleared = true ->
                            m = "API Key invalid or session expired. Please select a key again.")))
  end.

(** The error of a run is one about the key: its message names the entity
    that was not found, the status 403 or the API key. *)
Definition key_rejected (err : JsError) : bool :=
  match message err with
  | Some m =>
      Js.includes m "Requested entity was not found"
      || Js.includes m "403" || Js.includes m "API key"
  | None => false
  end.

(** The message shown for the error of a run. *)
Definition shown_error (err : JsError) : string :=
  if key_rejected err
  then "API Key invalid or session expired. Please select a key again."
  else match message err with
       | Some (String c m) => String c m
       | _ => "An unexpected error occurred"
       end.

(** The state left by a run that resolved, and by one that rejected. *)
Definition done_with (results : list ProcessedImage) : App.ProcessingState :=
  {| App.isProcessing := false;
     App.statusMessage := Some "Done!";
     App.error := None;
     App.processedImages := results |}.

Definition failed_with (err : JsError) : App.ProcessingState :=
  {| App.isProcessing := false;
     App.statusMessage := None;
     App.error := Some (shown_error err);
     App.processedImages := [] |}.

(** What [handleProcess] is to leave behind, from the state it starts in
    and from what the run of its job does: the key prompt and nothing else
    without a credential; nothing without source image or preset; the
    results of the run when it resolves; the message for its error, the key
    being cleared when the error is about the key, when it rejects.  The
    handler adds no event to those of the run. *)
Definition expected_outcome (P : Platform) (st : App.State) (w : World)
    (done : Outcome App.Handled * World) : Prop :=
  if Js.truthy (App.apiKey st) then
    match App.sourceImages st, App.selectedPreset st with
    | _ :: _, Some preset =>
        match run P (job_of st preset) w with
        | (Resolved results, w') =>
            done = (Resolved (App.Finished (done_with results) false), w')
        | (Rejected err, w') =>
            done = (Resolved (App.Finished (failed_with err)
                                (key_rejected err)), w')
        | (Diverged, _) => False
        end
    | _, _ => done = (Resolved App.NothingToDo, w)
    end
  else done = (Resolved App.ShowKeyInput, w).

(** A state without credential, and the state of the worked example at a
    service that does not know the key. *)
Definition keyless_state : App.State :=
  {| App.apiKey := EmptyString;
     App.sourceImages := [shoe_image];
     App.selectedPreset := Some {| id := LIFESTYLE; presetLabel := "preset" |};
     App.customPrompt := "Show it on a <BodyType> model.";
     App.imageQuality := Size1K;
     App.referenceImage := None;
     App.selectedAngles := default_angles;
     App.bodyType := "Men";
     App.lifestyleRatio := "1:1";
     App.isPortrait := true;
     App.lifestyleEnv := "Outdoor";
     App.lifestyleContext := EmptyString |}.

(** A service that does not know the key. *)
Definition closed_platform : Platform :=
  {| service := fun _ _ _ => inl not_found_error;
     JSON_parse := fun _ => inl (mkError "Unexpected end of JSON input");
     first_rejection := 0 |}.

(* ================================================================= *)
(** ** The component: uploads, captions, downloads, the lightbox and the
       saved prompts *)
(* ================================================================= *)

Module Gallery.

(** [handleFileSelect]: the label of a new image by its overall position. *)
Definition defaultLabel (totalIndex : nat) : string :=
  match totalIndex with
  | 0 => "Front View"
  | 1 => "Back View"
  | _ => "Other"
  end.

(** [handleFileSelect]: the source images after the files are added; the
    handler counts the images of the state it appends to. *)
Definition handleFileSelect (sourceImages : list SourceImage)
    (files : list File) : list SourceImage :=
  (sourceImages
   ++ mapi (fun f index =>
              {| file := f;
                 label := defaultLabel (List.length sourceImages + index) |})
        files)%list.

(** [getResultLabel]: the caption of the result at [index]. *)
Definition getResultLabel (selectedPreset : option Preset)
    (selectedAngles : list string) (sourceImages : list SourceImage)
    (processedCount : nat) (index : nat) : string :=
  let is_angles :=
    match selectedPreset with
    | Some preset => PresetType_eqb (id preset) ANGLES
    | None => false
    end in
  if is_angles then
    match nth_error selectedAngles index with
    | Some angle => angle
    | None => "View " ++ Js.string_of_nat (index + 1)
    end
  else if (1 <? List.length sourceImages)%nat
          && (processedCount =? List.length sourceImages)%nat
  then
    match nth_error sourceImages index with
    | Some img => label img
    | None => "undefined"
    end ++ " (Processed)"
  else "Enhanced Result".

(** The captions of a list of results, in order. *)
Definition captions (st : App.State) (results : list ProcessedImage)
  : list string :=
  map (getResultLabel (App.selectedPreset st) (App.selectedAngles st)
         (App.sourceImages st) (List.length results))
      (seq 0 (List.length results)).

Inductive ExportFormat : Type := png | jpg | webp.

Definition ExportFormat_text (format : ExportFormat) : string :=
  match format with
  | png => "png"
  | jpg => "jpg"
  | webp => "webp"
  end.

(** [convertAndDownloadImage]: the name of the file that is downloaded,
    when the image loads (and can be drawn) and when it does not. *)
Definition download_name (loaded : bool) (filename : string)
    (format : ExportFormat) : string :=
  if loaded then filename ++ "." ++ ExportFormat_text format
  else filename ++ ".png".

(** [handleDownload]: the name under which the result at [index] is
    saved. *)
Definition handleDownload (loaded : bool) (exportFormat : ExportFormat)
    (img : ProcessedImage) (index : nat) : string :=
  let filename := filename img ++ "-" ++ Js.string_of_nat (index + 1) in
  download_name loaded filename exportFormat.

(** [nextImage] and [prevImage]: the new lightbox index, among [count]
    results. *)
Definition nextImage (count : Z) (prev : option Z) : option Z :=
  match prev with
  | None => None
  | Some p => Some (if (p <? count - 1)%Z then (p + 1)%Z else 0%Z)
  end.

Definition prevImage (count : Z) (prev : option Z) : option Z :=
  match prev with
  | None => None
  | Some p => Some (if (0 <? p)%Z then (p - 1)%Z else (count - 1)%Z)
  end.

(** The saved prompts and the index armed for deletion. *)
Record Prompts (A : Type) : Type := {
  savedPrompts : list A;
  promptToDelete : option nat
}.

Arguments savedPrompts {A} _.
Arguments promptToDelete {A} _.

(** [xs.filter((_, i) => i !== index)]. *)
Fixpoint filter_index_from {A} (i index : nat) (xs : list A) : list A :=
  match xs with
  | [] => []
  | x :: xs' =>
      if (i =? index)%nat then filter_index_from (S i) index xs'
      else x :: filter_index_from (S i) index xs'
  end.

(** [deletePrompt]: the first click arms the index, the second one on the
    same index deletes. *)
Definition deletePrompt {A} (st : Prompts A) (index : nat) : Prompts A :=
  match promptToDelete st with
  | Some armed =>
      if (armed =? index)%nat then
        {| savedPrompts := filter_index_from 0 index (savedPrompts st);
           promptToDelete := None |}
      else {| savedPrompts := savedPrompts st; promptToDelete := Some index |}
  | None => {| savedPrompts := savedPrompts st; promptToDelete := Some index |}
  end.

(** The timer set by the first click: it disarms. *)
Definition disarm {A} (st : Prompts A) : Prompts A :=
  {| savedPrompts := savedPrompts st; promptToDelete := None |}.

(** What can happen to the saved prompts: a click on the delete button of
    an index, or a timer that fires. *)
Inductive Action : Type :=
| Click (index : nat)
| Timer.

Definition act {A} (st : Prompts A) (a : Action) : Prompts A :=
  match a with
  | Click index => deletePrompt st index
  | Timer => disarm st
  end.

End Gallery.

(** A sequence of actions that contains a click on the armed index: a
    click that follows a click on the same index without a timer in
    between. *)
Fixpoint confirms (armed : option nat) (actions : list Gallery.Action) : bool :=
  match actions with
  | [] => false
  | Gallery.Click index :: rest =>
      match armed with
      | Some a => (a =? index)%nat
      | None => false
      end || confirms (Some index) rest
  | Gallery.Timer :: rest => confirms None rest
  end.


(** The results of the per-angle run of the worked example. *)
Definition example_angle_results : list ProcessedImage :=
  [ {| url := "data:image/png;base64,AAAA";
       filename := "Acme-Runner-Red-Sneakers-front" |};
    {| url := "data:image/png;base64,AAAA";
       filename := "Acme-Runner-Red-Sneakers-side" |};
    {| url := "data:image/png;base64,AAAA";
       filename := "Acme-Runner-Red-Sneakers-3/4" |} ].

(** The state [shown] has the preset, the selected angles and the source
    images of the state [st]: none of them was changed in between. *)
Definition same_selection (st shown : App.State) : Prop :=
  App.selectedPreset shown = App.selectedPreset st
  /\ App.selectedAngles shown = App.selectedAngles st
  /\ App.sourceImages shown = App.sourceImages st.

(** What the captions of the results are, strategy by strategy: for the
    per-angle strategy the angles selected, each over the result generated
    for it (or View 1, View 2, View 3 when none is selected); for the
    per-image strategy over several images the label of the source image of
    each result; else Enhanced Result.  The run is the one of [st], the
    captions are those of [shown]. *)
Definition captions_follow (P : Platform) (st : App.State) (preset : Preset)
    (shown : App.State) (rs : list ProcessedImage) : Prop :=
  match id preset with
  | ANGLES =>
      match App.selectedAngles st with
      | [] => Gallery.captions shown rs = ["View 1"; "View 2"; "View 3"]
      | angles =>
          Gallery.captions shown rs = angles
          /\ Forall2 (fun caption r =>
                        exists stem,
                          filename r
                          = stem ++ "-"
                            ++ Js.hyphenate
                                 (Js.toLowerCase
                                    (hd EmptyString (Js.split " " caption))))
               angles rs
      end
  | GHOST_MANNEQUIN =>
      Forall2 (per_image_result P (job_of st preset)) (App.sourceImages st) rs
      /\ Gallery.captions shown rs
         = match App.sourceImages st with
           | [_] => ["Enhanced Result"]
           | images => map (fun img => label img ++ " (Processed)") images
           end
  | _ => Gallery.captions shown rs = ["Enhanced Result"]
  end.

(** The state of the worked example after the box of the front view was
    cleared. *)
Definition example_state_without_front : App.State :=
  {| App.apiKey := "key";
     App.sourceImages := [shoe_image];
     App.selectedPreset := Some {| id := ANGLES; presetLabel := "preset" |};
     App.customPrompt := "Show it on a <BodyType> model.";
     App.imageQuality := Size1K;
     App.referenceImage := None;
     App.selectedAngles := ["Side View"; "3/4 Perspective View"];
     App.bodyType := "Men";
     App.lifestyleRatio := "1:1";
     App.isPortrait := true;
     App.lifestyleEnv := "Outdoor";
     App.lifestyleContext := EmptyString |}.

(** [toggleAngle]: the selected angles after a click on the box of
    [angle]. *)
Definition toggleAngle (prev : list string) (angle : string) : list string :=
  if existsb (String.eqb angle) prev
  then filter (fun a => negb (String.eqb a angle)) prev
  else (prev ++ [angle])%list.

(* ================================================================= *)
(** ** What the instruction of a request says *)
(* ================================================================= *)

Definition environment_sentence (env : string) : string :=
  "ENVIRONMENT SETTING: Place the product in an " ++ env ++ " setting.".

Definition scene_sentence (ctx : string) : string :=
  "SPECIFIC SCENE DETAILS: " ++ ctx.

(** The instruction [t] of a request of a single generation names the
    environment and the scene details that are given and not empty. *)
Definition instruction_says (j : Job) (t : string) : Prop :=
  (forall env, jobEnvironment j = Some env -> Js.truthy env = true ->
               Js.includes t (environment_sentence env) = true)
  /\ (forall ctx, jobContext j = Some ctx -> Js.truthy ctx = true ->
                  Js.includes t (scene_sentence ctx) = true).

(** The body type a job asks for: the one given, Men when none or an empty
    one is given. *)
Definition requested_body (j : Job) : string :=
  match jobBodyType j with
  | Some (String c b) => String c b
  | _ => "Men"
  end.

(** The two sentences about the body type: the first names it in capitals,
    the second as it was given. *)
Definition body_type_constraint (body : string) : string :=
  "CRITICAL REQUIREMENT: The target body type for this generation is strict: "
  ++ Js.toUpperCase body ++ ". " ++ Js.nl
  ++ "If the prompt implies a human figure, model, or mannequin, it MUST match the "
  ++ body
  ++ " anatomy and proportions. Do not generate any other gender or age group.".

(** A lifestyle job made in the garden. *)
Definition garden_job (presetId : PresetType) : Job :=
  {| jobImages := [shoe_image];
     jobPreset := presetId;
     jobPrompt := "Show it on a <BodyType> model.";
     jobKey := "key";
     jobQuality := Size1K;
     jobSink := false;
     jobReference := None;
     jobAngles := None;
     jobBodyType := Some "Kid";
     jobRatio := "4:3";
     jobEnvironment := Some "Outdoor";
     jobContext := Some "a garden in spring" |}.

(* ================================================================= *)
(** * Properties *)
(* ================================================================= *)

(** ** Strings *)

Lemma append_assoc (a b c : string) : (a ++ b) ++ c = a ++ b ++ c.
Proof. induction a as [|x a IH]; simpl; [reflexivity|now rewrite IH]. Qed.

Lemma append_nil_r (a : string) : a ++ EmptyString = a.
Proof. induction a as [|x a IH]; simpl; [reflexivity|now rewrite IH]. Qed.

Lemma prefix_append (p b : string) : prefix p (p ++ b) = true.
Proof.
  induction p as [|c p IH]; simpl; [now destruct b|].
  destruct (ascii_dec c c); [exact IH|congruence].
Qed.

Lemma drop_append (p b : string) : Js.drop (String.length p) (p ++ b) = b.
Proof. induction p as [|c p IH]; simpl; [now destruct b|exact IH]. Qed.

Lemma prefix_string_map (f : ascii -> ascii) (p s : string) :
  prefix p s = true -> prefix (Js.string_map f p) (Js.string_map f s) = true.
Proof.
  revert s; induction p as [|c p IH]; intros s H; [now destruct s|].
  destruct s as [|d s]; simpl in *; [discriminate|].
  destruct (ascii_dec c d) as [->|]; [|discriminate].
  destruct (ascii_dec (f d) (f d)); [auto|congruence].
Qed.

Lemma includes_string_map (f : ascii -> ascii) (s p : string) :
  Js.includes s p = true ->
  Js.includes (Js.string_map f s) (Js.string_map f p) = true.
Proof.
  induction s as [|c s IH]; cbn [Js.includes Js.string_map]; intros H.
  - rewrite orb_false_r in H.
    pose proof (prefix_string_map f p EmptyString H) as H'.
    cbn [Js.string_map] in H'. now rewrite H'.
  - apply orb_true_iff in H as [H|H].
    + pose proof (prefix_string_map f _ _ H) as H'.
      cbn [Js.string_map] in H'. now rewrite H'.
    + rewrite (IH H). apply orb_true_r.
Qed.

Lemma includes_quota_lower (m : string) :
  Js.includes m "quota" = true ->
  Js.includes (Js.toLowerCase m) "quota" = true.
Proof.
  intros H. apply (includes_string_map Js.lower_unit) in H. exact H.
Qed.

(** ** Classification of errors *)

Lemma terminal_classified_spec (e : JsError) :
  terminal_classified e = negb (isRateLimit e || isServerOverload e).
Proof.
  unfold terminal_classified, isRateLimit, isServerOverload.
  destruct (status_is e 429), (status_is e 503), (message_includes e "429"),
    (message_includes e "503"), (message_lower_includes e "quota");
    reflexivity.
Qed.

Lemma listed_transient_retried (e : JsError) :
  listed_transient e = true -> isRateLimit e || isServerOverload e = true.
Proof.
  unfold listed_transient, isRateLimit, isServerOverload.
  intros H.
  assert (Hq : message_includes e "quota" = true ->
               message_lower_includes e "quota" = true).
  { unfold message_includes, message_lower_includes.
    destruct (message e); [apply includes_quota_lower|discriminate]. }
  destruct (message_includes e "quota");
    [rewrite (Hq eq_refl); now rewrite !orb_true_r|].
  destruct (status_is e 429), (status_is e 503), (message_includes e "429"),
    (message_includes e "503"); simpl in *;
    rewrite ?orb_true_r; try reflexivity; discriminate.
Qed.

(** ** Worlds and traces *)

Lemma record_events_nil (w : World) : record_events [] w = w.
Proof. destruct w; unfold record_events; simpl. now rewrite app_nil_r. Qed.

Lemma record_events_app (xs ys : list Event) (w : World) :
  record_events ys (record_events xs w) = record_events (xs ++ ys) w.
Proof. unfold record_events; simpl. now rewrite app_assoc. Qed.

Lemma status_update_run (sink : bool) (msg : string) (w : World) :
  status_update sink msg w
  = (Resolved tt, record_events (if sink then [EvStatus msg] else []) w).
Proof.
  destruct sink; simpl; [reflexivity|]. now rewrite record_events_nil.
Qed.

(** ** The retry controller *)

(** One iteration of the loop, by the outcome of the invocation. *)
Lemma runWithRetry_loop_step {T} (fuel : nat) (fn : M T) (sink : bool)
    (retries attempt : nat) (w : World) :
  runWithRetry_loop (S fuel) fn sink retries attempt w =
  match fn (record_events [EvInvoke] w) with
  | (Rejected e, w') =>
      if (retries <? S attempt)%nat then (Rejected e, w')
      else if isRateLimit e || isServerOverload e then
        runWithRetry_loop fuel fn sink retries (S attempt)
          (after_backoff sink (S attempt) retries w')
      else (Rejected e, w')
  | r => r
  end.
Proof.
  cbn [runWithRetry_loop]. unfold try_catch, bind at 1, emit.
  destruct (fn (record_events [EvInvoke] w)) as [[a|e|] w']; try reflexivity.
  destruct (retries <? S attempt)%nat; [reflexivity|].
  destruct (isRateLimit e || isServerOverload e); [|reflexivity].
  unfold bind, emit, delay, emit. rewrite !status_update_run.
  unfold after_backoff, backoff_events.
  destruct sink; rewrite ?record_events_app; reflexivity.
Qed.


Lemma count_app (p : Event -> bool) (l1 l2 : list Event) :
  count p (l1 ++ l2) = count p l1 + count p l2.
Proof. unfold count. now rewrite filter_app, length_app. Qed.








(** Against C4 as stated. The listed terminal class is wider than the code's:
    an error whose message names the quota with a capital letter is listed as
    terminal, yet the controller retries it with all its waits and status
    updates. *)
Lemma listed_terminal_error_is_retried :
  listed_terminal quota_error = true
  /\ let r := runWithRetry (failing_operation quota_error) true
                default_retries initial_world in
     fst r = Rejected quota_error
     /\ count is_invoke (trace (snd r)) = 11
     /\ count is_delay (trace (snd r)) = 10
     /\ count is_status (trace (snd r)) = 20.
Proof. vm_compute. repeat split. Qed.

(** C4 (amended). Whenever an invocation of the wrapped operation fails with
    an error of the terminal class of the code (status neither 429 nor 503,
    message containing neither 429 nor 503 nor, in any letter case, quota),
    [runWithRetry] rethrows that error at once: the outcome is that error in
    the very world the invocation left, so nothing follows the failure, no
    further invocation, no wait and no status-sink call.  This holds at
    every iteration of the loop, hence also for the first invocation. *)
Theorem terminal_error_rethrown_at_once :
  forall (T : Type) (fn : M T) (sink : bool) (retries : nat) (e : JsError)
         (w w' : World),
    terminal_classified e = true ->
    fn (record_events [EvInvoke] w) = (Rejected e, w') ->
    (forall fuel attempt,
        runWithRetry_loop (S fuel) fn sink retries attempt w = (Rejected e, w'))
    /\ runWithRetry fn sink retries w = (Rejected e, w').
Proof.
  intros T fn sink retries e w w' Hcls Hfn.
  assert (Hloop : forall fuel attempt,
             runWithRetry_loop (S fuel) fn sink retries attempt w
             = (Rejected e, w')).
  { intros fuel attempt. rewrite runWithRetry_loop_step, Hfn.
    rewrite terminal_classified_spec in Hcls.
    apply negb_true_iff in Hcls. rewrite Hcls.
    now destruct (retries <? S attempt)%nat. }
  split; [exact Hloop|apply Hloop].
Qed.

Lemma terminal_error_witness :
  runWithRetry (failing_operation not_found_error) true default_retries
    initial_world
  = (Rejected not_found_error, record_events [EvInvoke] initial_world).
Proof.
  apply (terminal_error_rethrown_at_once unit
           (failing_operation not_found_error) true default_retries
           not_found_error initial_world (record_events [EvInvoke] initial_world));
    reflexivity.
Defined.

(** ** Computations only append to the trace *)

Section Emits.

Context {A : Type} (I : Event -> Prop).

Lemma emits_at_intro (c : M A) (w : World) (delta : list Event) :
  trace (snd (c w)) = (trace w ++ delta)%list -> Forall I delta ->
  emits_at I c w.
Proof. intros H1 H2. exists delta. now split. Qed.

Lemma emits_ret (a : A) : emits I (ret a).
Proof. intros w. exists []. simpl. now rewrite app_nil_r. Qed.

Lemma emits_throw (e : JsError) : emits I (@throw A e).
Proof. intros w. exists []. simpl. now rewrite app_nil_r. Qed.

Lemma emits_diverge : emits I (@diverge A).
Proof. intros w. exists []. simpl. now rewrite app_nil_r. Qed.

Lemma emits_of_sum (r : JsError + A) : emits I (of_sum r).
Proof. destruct r; [apply emits_throw|apply emits_ret]. Qed.

End Emits.

Lemma emits_emit (I : Event -> Prop) (ev : Event) : I ev -> emits I (emit ev).
Proof. intros H w. exists [ev]. simpl. split; [reflexivity|]. now constructor. Qed.

Lemma emits_status_update (I : Event -> Prop) (sink : bool) (msg : string) :
  I (EvStatus msg) -> emits I (status_update sink msg).
Proof.
  intros H. destruct sink; [now apply emits_emit|apply emits_ret].
Qed.

Lemma emits_weaken {A} (I J : Event -> Prop) (c : M A) :
  (forall ev, I ev -> J ev) -> emits I c -> emits J c.
Proof.
  intros HIJ Hc w. destruct (Hc w) as (delta & Ht & HI).
  exists delta. split; [exact Ht|]. eapply Forall_impl; eauto.
Qed.

Lemma emits_at_bind {A B} (I : Event -> Prop) (c : M A) (k : A -> M B)
    (w : World) :
  emits_at I c w ->
  (forall a w', c w = (Resolved a, w') -> emits_at I (k a) w') ->
  emits_at I (bind c k) w.
Proof.
  intros (d1 & Ht1 & HI1) Hk. unfold emits_at, bind in *.
  destruct (c w) as [[a|e|] w'] eqn:Hc; simpl in Ht1.
  - destruct (Hk a w' eq_refl) as (d2 & Ht2 & HI2).
    exists (d1 ++ d2)%list. split.
    + now rewrite Ht2, Ht1, app_assoc.
    + now apply Forall_app.
  - exists d1. now split.
  - exists d1. now split.
Qed.

Lemma emits_bind {A B} (I : Event -> Prop) (c : M A) (k : A -> M B) :
  emits I c -> (forall a, emits I (k a)) -> emits I (bind c k).
Proof.
  intros Hc Hk w. apply emits_at_bind; [apply Hc|]. intros a w' _. apply Hk.
Qed.

Lemma emits_try_catch {A} (I : Event -> Prop) (c : M A) (h : JsError -> M A) :
  emits I c -> (forall e, emits I (h e)) -> emits I (try_catch c h).
Proof.
  intros Hc Hh w. unfold emits, emits_at, try_catch in *.
  destruct (Hc w) as (d1 & Ht1 & HI1).
  destruct (c w) as [[a|e|] w'] eqn:Hcw; simpl in Ht1.
  - exists d1. now split.
  - destruct (Hh e w') as (d2 & Ht2 & HI2).
    exists (d1 ++ d2)%list. split.
    + now rewrite Ht2, Ht1, app_assoc.
    + now apply Forall_app.
  - exists d1. now split.
Qed.

Lemma emits_runWithRetry_loop {T} (I : Event -> Prop) (fn : M T) (sink : bool)
    (retries : nat) :
  controller_ok I -> emits I fn ->
  forall fuel attempt, emits I (runWithRetry_loop fuel fn sink retries attempt).
Proof.
  intros (Hinv & Hwarn & Hstat & Hdel) Hfn.
  induction fuel as [|fuel IH]; intros attempt; [apply emits_diverge|].
  cbn [runWithRetry_loop]. apply emits_try_catch.
  - apply emits_bind; [now apply emits_emit|intros _; exact Hfn].
  - intros e. destruct (retries <? S attempt)%nat; [apply emits_throw|].
    destruct (isRateLimit e || isServerOverload e); [|apply emits_throw].
    apply emits_bind; [now apply emits_emit|intros _].
    apply emits_bind; [now apply emits_status_update|intros _].
    apply emits_bind; [now apply emits_emit|intros _].
    apply emits_bind; [now apply emits_status_update|intros _].
    apply IH.
Qed.

Lemma emits_runWithRetry {T} (I : Event -> Prop) (fn : M T) (sink : bool)
    (retries : nat) :
  controller_ok I -> emits I fn -> emits I (runWithRetry fn sink retries).
Proof. intros HI Hfn. now apply emits_runWithRetry_loop. Qed.

Lemma emits_generateContent (I : Event -> Prop) (P : Platform) (apiKey : string)
    (req : GenerateContentParameters) :
  I (EvRemote apiKey req) -> emits I (generateContent P apiKey req).
Proof.
  intros H w. exists [EvRemote apiKey req]. unfold generateContent.
  destruct (service P (calls w) apiKey req); simpl;
    (split; [reflexivity|now constructor]).
Qed.

Lemma emits_run_all {A} (I : Event -> Prop) (units : list (M A)) :
  Forall (emits I) units ->
  forall w, exists delta,
    trace (snd (run_all units w)) = (trace w ++ delta)%list /\ Forall I delta.
Proof.
  induction 1 as [|u units Hu _ IH]; intros w.
  - exists []. simpl. now rewrite app_nil_r.
  - cbn [run_all]. destruct (Hu w) as (d1 & Ht1 & HI1).
    destruct (u w) as [o w1]. simpl in Ht1.
    destruct (IH w1) as (d2 & Ht2 & HI2).
    destruct (run_all units w1) as [os w2]. simpl in *.
    exists (d1 ++ d2)%list. split.
    + now rewrite Ht2, Ht1, app_assoc.
    + now apply Forall_app.
Qed.

Lemma emits_Promise_all {A} (I : Event -> Prop) (P : Platform)
    (units : list (M A)) :
  Forall (emits I) units -> emits I (Promise_all P units).
Proof.
  intros H w. destruct (emits_run_all I units H w) as (delta & Ht & HI).
  exists delta. unfold Promise_all.
  destruct (run_all units w) as [os w']. now split.
Qed.

Lemma Forall_mapi_from {A B} (Q : B -> Prop) (f : A -> nat -> B) (xs : list A) :
  (forall x i, In x xs -> Q (f x i)) ->
  forall i, Forall Q (mapi_from i f xs).
Proof.
  induction xs as [|x xs IH]; intros H i; simpl; constructor.
  - apply H. now left.
  - apply IH. intros y j Hy. apply H. now right.
Qed.

(** ** Termination of the retry controller *)

(** With enough fuel the outcome of the controller is the outcome of one of
    the invocations of the operation: the loop never runs dry. *)
Lemma runWithRetry_loop_last_invocation {T} (fn : M T) (sink : bool)
    (retries : nat) :
  forall n attempt w,
    (retries <= attempt + n)%nat ->
    exists w_last,
      runWithRetry_loop (S n) fn sink retries attempt w = fn w_last.
Proof.
  induction n as [|n IH]; intros attempt w Hle;
    rewrite runWithRetry_loop_step;
    destruct (fn (record_events [EvInvoke] w)) as [[a|e|] w'] eqn:Hfn;
    try (exists (record_events [EvInvoke] w); now rewrite Hfn).
  - assert (H : (retries <? S attempt)%nat = true) by (apply Nat.ltb_lt; lia).
    rewrite H. exists (record_events [EvInvoke] w). now rewrite Hfn.
  - destruct (retries <? S attempt)%nat;
      [exists (record_events [EvInvoke] w); now rewrite Hfn|].
    destruct (isRateLimit e || isServerOverload e);
      [|exists (record_events [EvInvoke] w); now rewrite Hfn].
    apply IH. lia.
Qed.

Lemma runWithRetry_last_invocation {T} (fn : M T) (sink : bool)
    (retries : nat) (w : World) :
  exists w_last, runWithRetry fn sink retries w = fn w_last.
Proof. apply runWithRetry_loop_last_invocation. lia. Qed.

Lemma runWithRetry_terminates {T} (fn : M T) (sink : bool) (retries : nat) :
  terminates fn -> terminates (runWithRetry fn sink retries).
Proof.
  intros Hfn w. destruct (runWithRetry_last_invocation fn sink retries w)
    as (w_last & ->). apply Hfn.
Qed.

(** More fuel than [retries + 1 - attempt] changes nothing. *)
Lemma runWithRetry_loop_fuel {T} (fn : M T) (sink : bool) (retries : nat) :
  forall n attempt w extra,
    (retries <= attempt + n)%nat ->
    runWithRetry_loop (S n + extra) fn sink retries attempt w
    = runWithRetry_loop (S n) fn sink retries attempt w.
Proof.
  induction n as [|n IH]; intros attempt w extra Hle;
    cbn [Nat.add]; rewrite !runWithRetry_loop_step;
    destruct (fn (record_events [EvInvoke] w)) as [[a|e|] w']; try reflexivity.
  - assert (H : (retries <? S attempt)%nat = true) by (apply Nat.ltb_lt; lia).
    now rewrite H.
  - destruct (retries <? S attempt)%nat; [reflexivity|].
    destruct (isRateLimit e || isServerOverload e); [|reflexivity].
    apply (IH (S attempt) _ extra). lia.
Qed.

(** ** Outcomes *)

Lemma post_weaken {A} (c : M A) (Q R : Outcome A -> Prop) :
  (forall o, Q o -> R o) -> post c Q -> post c R.
Proof. intros H Hc w. apply H, Hc. Qed.

Lemma post_ret {A} (a : A) (Q : Outcome A -> Prop) :
  Q (Resolved a) -> post (ret a) Q.
Proof. intros H w. exact H. Qed.

Lemma post_throw {A} (e : JsError) (Q : Outcome A -> Prop) :
  Q (Rejected e) -> post (throw e) Q.
Proof. intros H w. exact H. Qed.

Lemma post_of_sum {A} (r : JsError + A) (Q : Outcome A -> Prop) :
  (forall e, r = inl e -> Q (Rejected e)) ->
  (forall a, r = inr a -> Q (Resolved a)) ->
  post (of_sum r) Q.
Proof. intros He Ha w. destruct r; simpl; auto. Qed.

Lemma post_emit (ev : Event) (Q : Outcome unit -> Prop) :
  Q (Resolved tt) -> post (emit ev) Q.
Proof. intros H w. exact H. Qed.

Lemma post_status_update (sink : bool) (msg : string)
    (Q : Outcome unit -> Prop) :
  Q (Resolved tt) -> post (status_update sink msg) Q.
Proof. intros H w. now destruct sink. Qed.

(** The rule of sequencing: the continuation is examined for the values
    the first part can resolve to; a rejection or a dry loop passes through. *)
Lemma post_bind {A B} (c : M A) (k : A -> M B) (Q1 : Outcome A -> Prop)
    (Q2 : Outcome B -> Prop) :
  post c Q1 ->
  (forall a, Q1 (Resolved a) -> post (k a) Q2) ->
  (forall e, Q1 (Rejected e) -> Q2 (Rejected e)) ->
  (Q1 Diverged -> Q2 Diverged) ->
  post (bind c k) Q2.
Proof.
  intros Hc Hk He Hd w. unfold bind. specialize (Hc w).
  destruct (c w) as [[a|e|] w']; simpl in *; auto.
  now apply Hk.
Qed.

Lemma post_try_catch {A} (c : M A) (h : JsError -> M A)
    (Q1 Q2 : Outcome A -> Prop) :
  post c Q1 ->
  (forall a, Q1 (Resolved a) -> Q2 (Resolved a)) ->
  (forall e, Q1 (Rejected e) -> post (h e) Q2) ->
  (Q1 Diverged -> Q2 Diverged) ->
  post (try_catch c h) Q2.
Proof.
  intros Hc Ha Hh Hd w. unfold try_catch. specialize (Hc w).
  destruct (c w) as [[a|e|] w']; simpl in *; auto.
  now apply Hh.
Qed.

(** The outcome of the controller is an outcome of the operation. *)
Lemma post_runWithRetry {T} (fn : M T) (sink : bool) (retries : nat)
    (Q : Outcome T -> Prop) :
  post fn Q -> post (runWithRetry fn sink retries) Q.
Proof.
  intros Hfn w.
  destruct (runWithRetry_last_invocation fn sink retries w) as (w_last & ->).
  apply Hfn.
Qed.

Lemma post_generateContent (P : Platform) (apiKey : string)
    (req : GenerateContentParameters)
    (Q : Outcome GenerateContentResponse -> Prop) :
  (forall n e, service P n apiKey req = inl e -> Q (Rejected e)) ->
  (forall n r, service P n apiKey req = inr r -> Q (Resolved r)) ->
  post (generateContent P apiKey req) Q.
Proof.
  intros He Hr w. unfold generateContent.
  destruct (service P (calls w) apiKey req) eqn:Hs; simpl; eauto.
Qed.

(** Sequencing, for the three usual shapes. *)
Lemma resolves_to_bind {A B} (c : M A) (k : A -> M B) (a : A)
    (Q : Outcome B -> Prop) :
  resolves_to c a -> post (k a) Q -> post (bind c k) Q.
Proof.
  intros Hc Hk.
  apply (post_bind c k (fun o => o = Resolved a)); [exact Hc| | |];
    try discriminate.
  intros a' [= <-]. exact Hk.
Qed.

Lemma rejects_with_bind {A B} (c : M A) (k : A -> M B) (e : JsError) :
  rejects_with c e -> rejects_with (bind c k) e.
Proof.
  intros Hc.
  apply (post_bind c k (fun o => o = Rejected e)); [exact Hc| | |];
    try discriminate.
  intros e' [= <-]. reflexivity.
Qed.

Lemma resolves_bind {A B} (c : M A) (k : A -> M B) (Q : Outcome B -> Prop) :
  resolves c -> (forall a, post (k a) Q) -> post (bind c k) Q.
Proof.
  intros Hc Hk.
  apply (post_bind c k (fun o => exists a, o = Resolved a)); [exact Hc| | |].
  - intros a _. apply Hk.
  - intros e [a H]. discriminate.
  - intros [a H]. discriminate.
Qed.

Lemma resolves_to_emit (ev : Event) : resolves_to (emit ev) tt.
Proof. now apply post_emit. Qed.

Lemma resolves_to_status_update (sink : bool) (msg : string) :
  resolves_to (status_update sink msg) tt.
Proof. now apply post_status_update. Qed.

(** Steps over a leading event or status update. *)
Ltac skip_event :=
  apply (resolves_to_bind _ _ tt);
  [first [apply resolves_to_emit | apply resolves_to_status_update]|].

(** ** The analysis adapter *)

Lemma post_fileToGenerativePart (f : File) (Q : Outcome Part -> Prop) :
  (readAsDataURL f = None -> Q (Rejected readerErrorEvent)) ->
  (forall s, readAsDataURL f = Some s ->
             Q (Resolved (InlinePart (base64_payload s) (type f)))) ->
  post (fileToGenerativePart f) Q.
Proof.
  intros Hn Hs w. unfold fileToGenerativePart.
  destruct (readAsDataURL f); simpl; auto.
Qed.

Lemma post_property_or (json : JsValue) (name fallback : string)
    (Q : Outcome string -> Prop) :
  (forall e, Q (Rejected e)) -> (forall s, Q (Resolved s)) ->
  post (property_or json name fallback) Q.
Proof.
  intros He Hs w. unfold property_or.
  destruct json; simpl; auto. destruct (lookup_field name fields); simpl; auto.
Qed.

Lemma analysis_attempt_terminates (P : Platform) (f : File) (apiKey : string) :
  terminates (analysis_attempt P f apiKey).
Proof.
  change (post (analysis_attempt P f apiKey) (fun o => o <> Diverged)).
  unfold analysis_attempt.
  apply (post_try_catch _ _ (fun o => o <> Diverged)); try (intros; congruence).
  - apply (post_bind _ _ (fun o => o <> Diverged)); try congruence.
    { apply post_fileToGenerativePart; intros; discriminate. }
    intros imagePart _.
    apply (post_bind _ _ (fun o => o <> Diverged)); try congruence.
    { apply post_generateContent; intros; discriminate. }
    intros response _.
    apply (post_bind _ _ (fun o => o <> Diverged)); try congruence.
    { apply post_of_sum; intros; discriminate. }
    intros json _.
    apply (post_bind _ _ (fun o => o <> Diverged)); try congruence.
    { apply post_property_or; intros; discriminate. }
    intros d _.
    apply (post_bind _ _ (fun o => o <> Diverged)); try congruence.
    { apply post_property_or; intros; discriminate. }
    intros n _. now apply post_ret.
  - intros e _. skip_event. now apply post_throw.
Qed.

(** The analysis adapter never rejects and never hangs. *)
Lemma analyzeProductFeatures_resolves (P : Platform) (f : File)
    (apiKey : string) (sink : bool) :
  resolves (analyzeProductFeatures P f apiKey sink).
Proof.
  unfold analyzeProductFeatures.
  destruct (negb (Js.truthy apiKey)); [apply post_ret; eauto|].
  skip_event.
  apply (post_try_catch _ _ (fun o => o <> Diverged)).
  - apply post_runWithRetry. apply analysis_attempt_terminates.
  - intros a _. eauto.
  - intros e _. skip_event. apply post_ret. eauto.
  - congruence.
Qed.

(** An attempt fails when the file cannot be read, when the service answers
    with an error and when the answer is not valid JSON. *)
Lemma analysis_attempt_rejects (P : Platform) (f : File) (apiKey : string) :
  analysis_always_fails P f apiKey -> rejects (analysis_attempt P f apiKey).
Proof.
  intros Hfail. unfold analysis_attempt, analysis_always_fails in *.
  apply (post_try_catch _ _ (fun o => exists e, o = Rejected e)).
  - apply (post_bind _ _ (fun o => match readAsDataURL f with
                                   | None => o = Rejected readerErrorEvent
                                   | Some s => o = Resolved (InlinePart (base64_payload s) (type f))
                                   end)).
    + apply post_fileToGenerativePart; intros; now rewrite H.
    + intros imagePart Hpart. destruct (readAsDataURL f) as [s|]; [|discriminate].
      injection Hpart as ->.
      apply (post_bind _ _ (fun o => match o with
                                     | Resolved r => exists e, JSON_parse P (analysis_text r) = inl e
                                     | Rejected _ => True
                                     | Diverged => False
                                     end)).
      * apply post_generateContent; intros n x Hs;
          specialize (Hfail n); rewrite Hs in Hfail; exact Hfail.
      * intros response [e He]. rewrite He.
        intros w. simpl. eauto.
      * intros e _. eauto.
      * intros [].
    + intros e He. destruct (readAsDataURL f); [discriminate|eauto].
    + destruct (readAsDataURL f); discriminate.
  - intros a [e He]. discriminate.
  - intros e _. skip_event. apply post_throw. eauto.
  - intros [e He]. discriminate.
Qed.

(** When every attempt fails the adapter resolves with the defaults. *)
Lemma analyzeProductFeatures_degraded (P : Platform) (f : File)
    (apiKey : string) (sink : bool) :
  Js.truthy apiKey = true ->
  analysis_always_fails P f apiKey ->
  resolves_to (analyzeProductFeatures P f apiKey sink) degraded_analysis.
Proof.
  intros Hkey Hfail. unfold analyzeProductFeatures. rewrite Hkey. cbn [negb].
  skip_event.
  apply (post_try_catch _ _ (fun o => exists e, o = Rejected e)).
  - apply post_runWithRetry. now apply analysis_attempt_rejects.
  - intros a [e He]. discriminate.
  - intros e _. skip_event. now apply post_ret.
  - intros [e He]. discriminate.
Qed.

(** ** The generation adapter *)

(** One invocation of the generation attempt, by the reply of the service. *)
Lemma generation_attempt_run (P : Platform) (parts : list Part)
    (apiKey : string) (size : ImageSize) (ratio : string) (w : World)
    (r : GenerateContentResponse) :
  service P (calls w) apiKey (generation_request_of parts size ratio) = inr r ->
  generation_attempt P parts apiKey size ratio (record_events [EvInvoke] w)
  = (fst (extract_image r initial_world),
     after_one_request apiKey (generation_request_of parts size ratio) w).
Proof.
  intros Hs. unfold generation_attempt, bind, generateContent.
  cbn [calls record_events]. rewrite Hs. cbn [of_sum ret].
  unfold after_one_request, record_events; cbn [trace calls].
  rewrite <- app_assoc. cbn [app].
  unfold extract_image.
  destruct (candidates r) as [|c cs]; [reflexivity|].
  destruct (match content c with
            | Some responseParts => first_inline_data responseParts
            | None => None
            end); [reflexivity|].
  destruct (Js.truthy match text r with Some t => t | None => EmptyString end);
    reflexivity.
Qed.

Lemma not_transient_of_message (m : string) :
  Js.includes m "429" = false -> Js.includes m "503" = false ->
  Js.includes (Js.toLowerCase m) "quota" = false ->
  terminal_classified (mkError m) = true.
Proof.
  intros H1 H2 H3. unfold terminal_classified, status_is, message_includes,
    message_lower_includes; cbn [mkError status message].
  now rewrite H1, H2, H3.
Qed.

(** The controller around one resolved or terminally rejected attempt. *)
Lemma runWithRetry_first_attempt {T} (fn : M T) (sink : bool) (retries : nat)
    (w w' : World) (o : Outcome T) :
  fn (record_events [EvInvoke] w) = (o, w') ->
  match o with
  | Resolved _ => True
  | Rejected e => terminal_classified e = true
  | Diverged => True
  end ->
  runWithRetry fn sink retries w = (o, w').
Proof.
  intros Hfn Ho. unfold runWithRetry. rewrite runWithRetry_loop_step, Hfn.
  destruct o as [a|e|]; try reflexivity.
  rewrite terminal_classified_spec in Ho. apply negb_true_iff in Ho.
  rewrite Ho. now destruct (retries <? 1)%nat.
Qed.

(** What the generation adapter makes of the reply to its request, case by
    case; in each case one request was sent and nothing was retried. *)
Lemma generation_adapter_cases :
  forall (P : Platform) (parts : list Part) (apiKey : string) (size : ImageSize)
         (sink : bool) (ratio : string) (w : World) (r : GenerateContentResponse),
    Js.truthy apiKey = true ->
    service P (calls w) apiKey (generation_request_of parts size ratio) = inr r ->
    let run := callGeminiGenerator P parts apiKey size sink ratio w in
    let w1 := after_one_request apiKey (generation_request_of parts size ratio) w in
    (candidates r = [] ->
     run = (Rejected (mkError "No candidates returned from the model."), w1))
    /\ (forall d, inline_image_of r = Some d ->
                  run = (Resolved ("data:image/png;base64," ++ d), w1))
    /\ (forall t, candidates r <> [] -> inline_image_of r = None ->
                  text r = Some t -> t <> EmptyString ->
                  generation_attempt P parts apiKey size ratio
                    (record_events [EvInvoke] w)
                  = (Rejected (text_only_error t), w1)
                  /\ (terminal_classified (text_only_error t) = true ->
                      run = (Rejected (text_only_error t), w1)))
    /\ (candidates r <> [] -> inline_image_of r = None ->
        (text r = None \/ text r = Some EmptyString) ->
        run = (Rejected (mkError "No image generated."), w1)).
Proof.
  intros P parts apiKey size sink ratio w r Hkey Hs run w1.
  pose proof (generation_attempt_run P parts apiKey size ratio w r Hs) as Hrun.
  fold w1 in Hrun.
  assert (Hcall : forall o,
             fst (extract_image r initial_world) = o ->
             match o with
             | Rejected e => terminal_classified e = true
             | _ => True
             end ->
             run = (o, w1)).
  { intros o Ho Hcls. subst run. unfold callGeminiGenerator.
    rewrite Hkey. cbn [negb].
    apply runWithRetry_first_attempt; [now rewrite Hrun, Ho|].
    destruct o; auto. }
  unfold inline_image_of, extract_image in *.
  repeat split.
  - intros Hc. apply Hcall; [now rewrite Hc|reflexivity].
  - intros d Hd. apply Hcall; [|exact I].
    destruct (candidates r) as [|c cs]; [discriminate|]. now rewrite Hd.
  - rewrite Hrun. f_equal.
    destruct (candidates r) as [|c cs]; [congruence|].
    rewrite H0, H1. destruct t; [congruence|reflexivity].
  - intros Hcls. apply Hcall; [|exact Hcls].
    destruct (candidates r) as [|c cs]; [congruence|].
    rewrite H0, H1. destruct t; [congruence|reflexivity].
  - intros Hc Hn Ht. apply Hcall; [|reflexivity].
    destruct (candidates r) as [|c cs]; [congruence|].
    rewrite Hn. destruct Ht as [-> | ->]; reflexivity.
Qed.


(** ** The events of a run *)

Lemma emits_fileToGenerativePart (I : Event -> Prop) (f : File) :
  emits I (fileToGenerativePart f).
Proof.
  unfold fileToGenerativePart.
  destruct (readAsDataURL f); [apply emits_ret|apply emits_throw].
Qed.

Lemma fileToGenerativePart_resolved (f : File) (w w' : World) (p : Part) :
  fileToGenerativePart f w = (Resolved p, w') ->
  exists s, readAsDataURL f = Some s
            /\ p = InlinePart (base64_payload s) (type f).
Proof.
  unfold fileToGenerativePart. destruct (readAsDataURL f) as [s|]; simpl.
  - intros [= <- _]. now exists s.
  - discriminate.
Qed.

Lemma emits_viewpoint_parts (I : Event -> Prop) (images : list SourceImage) :
  emits I (viewpoint_parts images).
Proof.
  induction images as [|img rest IH]; cbn [viewpoint_parts]; [apply emits_ret|].
  apply emits_bind; [apply emits_fileToGenerativePart|intros p].
  apply emits_bind; [exact IH|intros ps]. apply emits_ret.
Qed.

Lemma emits_build_contextParts (I : Event -> Prop) (images : list SourceImage)
    (sink : bool) (reference : option string) :
  (forall m, I (EvStatus m)) ->
  emits I (build_contextParts images sink reference).
Proof.
  intros Hs. unfold build_contextParts.
  apply emits_bind.
  - destruct reference; [|apply emits_ret].
    apply emits_bind; [now apply emits_status_update|intros _; apply emits_ret].
  - intros styleParts. apply emits_bind; [apply emits_viewpoint_parts|].
    intros views. apply emits_ret.
Qed.

Lemma find_preset (presetId : PresetType) :
  exists preset,
    find (fun p => PresetType_eqb (id p) presetId) PRESETS = Some preset.
Proof. destruct presetId; cbn; eauto. Qed.

(** The events of a run satisfy any property that holds of status updates,
    of the events of the analysis adapter and of the events of the
    generation adapter when called with parts and a ratio in the shape of
    the job. *)
Lemma run_emits (P : Platform) (j : Job) (I : Event -> Prop) (w : World) :
  (forall m, I (EvStatus m)) ->
  (forall f, emits I (analyzeProductFeatures P f (jobKey j) (jobSink j))) ->
  (forall parts ratio,
      call_shape P j (shared_description P j w) parts ratio ->
      emits I (callGeminiGenerator P parts (jobKey j) (jobQuality j)
                 (jobSink j) ratio)) ->
  emits_at I (run P j) w.
Proof.
  intros Hstatus Hanalyze Hcall.
  unfold run, processImagesWithGemini.
  destruct (find_preset (jobPreset j)) as [preset ->].
  destruct (PresetType_eqb (jobPreset j) GHOST_MANNEQUIN) eqn:Hghost.
  - (* one unit per source image *)
    assert (Hp : jobPreset j = GHOST_MANNEQUIN)
      by (destruct (jobPreset j); (reflexivity || discriminate)).
    apply emits_Promise_all. apply Forall_mapi_from.
    intros img idx Hin w0. unfold ghost_unit.
    apply emits_at_bind; [now apply emits_status_update|intros _ w1 _].
    apply emits_at_bind; [apply Hanalyze|intros a w2 Ha].
    apply emits_at_bind; [now apply emits_status_update|intros _ w3 _].
    apply emits_at_bind; [apply emits_fileToGenerativePart|intros p w4 Hp4].
    destruct (fileToGenerativePart_resolved _ _ _ _ Hp4) as (s & Hs & ->).
    apply emits_at_bind; [|intros url w5 _; apply emits_ret].
    apply Hcall. unfold call_shape. rewrite Hp. split; [reflexivity|].
    exists img, s, (description a).
    eexists (_ ++ [TextPart _])%list.
    split; [exact Hin|]. split; [exact Hs|]. split.
    + exists w1, w2, a. now split.
    + rewrite <- app_assoc. reflexivity.
  - (* shared context *)
    apply emits_at_bind; [now apply emits_status_update|intros [] w1 Hw1].
    assert (Ew1 : w1 = snd (status_update (jobSink j)
                              "Analyzing primary product features..." w))
      by now rewrite Hw1.
    destruct (primaryImg_of (jobImages j)) as [primary|] eqn:Hprimary;
      [|apply emits_at_bind; [apply emits_throw|intros ? ? [=]]].
    apply emits_at_bind; [apply emits_ret|intros f w1' Hret].
    injection Hret as <- Hw. subst w1'.
    apply emits_at_bind; [apply Hanalyze|intros a w2 Ha].
    assert (Hd : shared_description P j w = description a).
    { unfold shared_description. now rewrite Hprimary, <- Ew1, Ha. }
    apply emits_at_bind; [now apply emits_build_contextParts|].
    intros contextParts w3 _.
    destruct (PresetType_eqb (jobPreset j) ANGLES) eqn:Hangles.
    + assert (Hp : jobPreset j = ANGLES)
        by (destruct (jobPreset j); (reflexivity || discriminate)).
      apply emits_Promise_all. apply Forall_mapi_from.
      intros angle idx Hin w0. unfold angle_unit.
      apply emits_at_bind; [now apply emits_status_update|intros _ w4 _].
      apply emits_at_bind; [|intros url w5 _; apply emits_ret].
      apply Hcall. unfold call_shape. rewrite Hp, Hd.
      split; [reflexivity|]. exists angle, contextParts. now split.
    + apply emits_at_bind; [now apply emits_status_update|intros _ w4 _].
      apply emits_at_bind; [|intros url w5 _; apply emits_ret].
      apply Hcall. unfold call_shape. rewrite Hd.
      destruct (jobPreset j); try discriminate;
        (split; [reflexivity|now exists contextParts]).
Qed.

(** The events of the generation adapter: those of the controller and
    requests for the given parts and ratio. *)
Lemma emits_callGeminiGenerator (P : Platform) (I : Event -> Prop)
    (parts : list Part) (apiKey : string) (size : ImageSize) (sink : bool)
    (ratio : string) :
  controller_ok I ->
  I (EvRemote apiKey (generation_request_of parts size ratio)) ->
  emits I (callGeminiGenerator P parts apiKey size sink ratio).
Proof.
  intros Hctl Hreq. unfold callGeminiGenerator.
  destruct (negb (Js.truthy apiKey)); [apply emits_throw|].
  apply emits_runWithRetry; [exact Hctl|].
  unfold generation_attempt.
  apply emits_bind; [now apply emits_generateContent|intros r].
  unfold extract_image.
  destruct (candidates r) as [|c cs]; [apply emits_throw|].
  destruct (match content c with
            | Some responseParts => first_inline_data responseParts
            | None => None
            end); [apply emits_ret|].
  destruct (Js.truthy _); apply emits_throw.
Qed.

(** The events of the analysis adapter: those of the controller, console
    output and requests that are not for the generation model. *)
Lemma emits_analyzeProductFeatures (P : Platform) (I : Event -> Prop)
    (f : File) (apiKey : string) (sink : bool) :
  controller_ok I -> (forall m, I (EvError m)) ->
  (forall part, I (EvRemote apiKey (analysis_request part))) ->
  emits I (analyzeProductFeatures P f apiKey sink).
Proof.
  intros Hctl Herr Hreq. pose proof Hctl as (Hinv & Hwarn & Hstat & Hdel).
  unfold analyzeProductFeatures.
  destruct (negb (Js.truthy apiKey)); [apply emits_ret|].
  apply emits_bind; [now apply emits_status_update|intros _].
  apply emits_try_catch.
  - apply emits_runWithRetry; [exact Hctl|].
    unfold analysis_attempt. apply emits_try_catch.
    + apply emits_bind; [apply emits_fileToGenerativePart|intros part].
      apply emits_bind; [now apply emits_generateContent|intros r].
      apply emits_bind; [apply emits_of_sum|intros json].
      assert (Hprop : forall name fallback,
                 emits I (property_or json name fallback)).
      { intros name fallback. unfold property_or.
        destruct json; try apply emits_ret; [apply emits_throw|].
        destruct (lookup_field name fields); apply emits_ret. }
      apply emits_bind; [apply Hprop|intros d].
      apply emits_bind; [apply Hprop|intros n]. apply emits_ret.
    + intros e. apply emits_bind; [now apply emits_emit|intros _].
      apply emits_throw.
  - intros e. apply emits_bind; [now apply emits_emit|intros _].
    apply emits_ret.
Qed.

(** ** The generation requests of a run *)

Lemma new_events_app (w w' : World) (delta : list Event) :
  trace w' = (trace w ++ delta)%list -> new_events w w' = delta.
Proof.
  intros H. unfold new_events. rewrite H.
  rewrite skipn_app, skipn_all, Nat.sub_diag. reflexivity.
Qed.

Lemma In_generation_requests (req : GenerateContentParameters)
    (tr : list Event) :
  In req (generation_requests tr) <->
  exists ev, In ev tr /\ generation_request ev = Some req.
Proof.
  induction tr as [|ev tr IH]; simpl.
  - split; [tauto|]. now intros (ev & [] & _).
  - destruct (generation_request ev) as [r|] eqn:Hev; simpl; rewrite IH.
    + split.
      * intros [<-|(ev' & Hin & H')]; [exists ev; auto|exists ev'; auto].
      * intros (ev' & [<-|Hin] & H'); [left; congruence|right; eauto].
    + split.
      * intros (ev' & Hin & H'). exists ev'; auto.
      * intros (ev' & [<-|Hin] & H'); [congruence|eauto].
Qed.

Lemma request_in_shape_other (P : Platform) (j : Job) (d : string) (ev : Event) :
  generation_request ev = None -> request_in_shape P j d ev.
Proof. intros H req H'. congruence. Qed.

(** Every request that a run sends to the generation model has the shape of
    a generation call of the job. *)
Lemma run_requests_in_shape (P : Platform) (j : Job) (w : World) :
  emits_at (request_in_shape P j (shared_description P j w)) (run P j) w.
Proof.
  assert (Hctl : controller_ok (request_in_shape P j (shared_description P j w))).
  { repeat split; intros; now apply request_in_shape_other. }
  apply run_emits.
  - intros m. now apply request_in_shape_other.
  - intros f. apply emits_analyzeProductFeatures; [exact Hctl| |];
      intros; now apply request_in_shape_other.
  - intros parts ratio Hshape.
    apply emits_callGeminiGenerator; [exact Hctl|].
    intros req [= <-]. exists ratio. now split.
Qed.

Lemma requests_of_run_in_shape (P : Platform) (j : Job) (w : World)
    (req : GenerateContentParameters) :
  In req (requests_of_run P j w) ->
  exists ratio, aspectRatio_of req = Some ratio
                /\ call_shape P j (shared_description P j w) (contents req) ratio.
Proof.
  intros Hin. destruct (run_requests_in_shape P j w) as (delta & Ht & HI).
  unfold requests_of_run in Hin. rewrite (new_events_app _ _ _ Ht) in Hin.
  apply In_generation_requests in Hin as (ev & Hev & Hreq).
  rewrite Forall_forall in HI. exact (HI ev Hev req Hreq).
Qed.

Lemma task_text_last (req : GenerateContentParameters) (pre : list Part)
    (t : string) :
  contents req = (pre ++ [TextPart t])%list -> task_text req = Some t.
Proof. intros H. unfold task_text. now rewrite H, last_last. Qed.

(** ** The caller *)

Lemma emits_at_try_catch {A} (I : Event -> Prop) (c : M A)
    (h : JsError -> M A) (w : World) :
  emits_at I c w -> (forall e, emits I (h e)) -> emits_at I (try_catch c h) w.
Proof.
  intros (d1 & Ht1 & HI1) Hh. unfold emits_at, try_catch in *.
  destruct (c w) as [[a|e|] w'] eqn:Hcw; simpl in Ht1.
  - exists d1. now split.
  - destruct (Hh e w') as (d2 & Ht2 & HI2).
    exists (d1 ++ d2)%list. split.
    + now rewrite Ht2, Ht1, app_assoc.
    + now apply Forall_app.
  - exists d1. now split.
Qed.

(** [handleProcess] adds no event to those of the run of its job. *)
Lemma handleProcess_emits (P : Platform) (st : App.State) (preset : Preset)
    (I : Event -> Prop) (w : World) :
  App.selectedPreset st = Some preset ->
  emits_at I (run P (job_of st preset)) w ->
  emits_at I (App.handleProcess P st) w.
Proof.
  intros Hpreset Hrun. unfold App.handleProcess.
  destruct (negb (Js.truthy (App.apiKey st))); [apply emits_ret|].
  rewrite Hpreset.
  destruct (App.sourceImages st) as [|img images] eqn:Himages; [apply emits_ret|].
  apply emits_at_try_catch.
  - apply emits_at_bind; [|intros; apply emits_ret].
    unfold run, job_of in Hrun. cbn in Hrun. rewrite Himages in Hrun.
    exact Hrun.
  - intros e. destruct (_ || _); apply emits_ret.
Qed.

Lemma targetAspectRatio_of_family (presetId : PresetType) (f : RatioFamily)
    (portrait : bool) :
  match presetId with
  | GHOST_MANNEQUIN | ANGLES => "3:4"
  | _ => App.targetAspectRatio_of presetId (family_text f) portrait
  end = passed_ratio presetId f portrait.
Proof. destruct presetId, f, portrait; reflexivity. Qed.

(** Against C3 as stated. The square ratio reaches the generation adapter for
    the composite strategy that is not the lifestyle one, whatever family and
    orientation the caller chose: here the family 4:3 in portrait, for which
    the table gives 3:4. *)
Lemma composite_ratio_ignored_for_background_removal :
  specified_ratio BG_REMOVE_REPAIR Family_4_3 true = "3:4"
  /\ map aspectRatio_of
       (generation_requests
          (trace (snd (App.handleProcess studio_platform
                         (example_state BG_REMOVE_REPAIR (family_text Family_4_3) true)
                         initial_world))))
     = [Some "1:1"].
Proof. vm_compute. split; reflexivity. Qed.

Lemma requests_of_run_ratio (P : Platform) (j : Job) (w : World)
    (req : GenerateContentParameters) :
  In req (requests_of_run P j w) ->
  aspectRatio_of req = Some (dispatched_ratio j).
Proof.
  intros Hin.
  destruct (requests_of_run_in_shape P j w req Hin) as (ratio & -> & Hshape).
  f_equal. unfold call_shape in Hshape. unfold dispatched_ratio.
  destruct (jobPreset j); destruct Hshape as [-> _]; reflexivity.
Qed.

(** C3 (amended). Every request that a run sends to the generation model
    carries the fixed ratio 3:4 for the per-image and the per-angle
    strategy, and the ratio given by the caller otherwise.  The caller,
    [handleProcess], gives for the lifestyle strategy the ratio of the table
    for the chosen family and orientation (1:1 for the family 1:1; 3:4 or
    4:3 for the family 4:3; 9:16 or 16:9 for the family 16:9, portrait
    first) and for the background-removal strategy the ratio 1:1; so these
    are the ratios of the requests it causes. *)
Theorem aspect_ratio_resolution :
  (forall (P : Platform) (j : Job) (w : World)
          (req : GenerateContentParameters),
      In req (requests_of_run P j w) ->
      aspectRatio_of req = Some (dispatched_ratio j))
  /\ (forall (P : Platform) (st : App.State) (preset : Preset)
             (f : RatioFamily) (w : World) (req : GenerateContentParameters),
        App.selectedPreset st = Some preset ->
        App.lifestyleRatio st = family_text f ->
        In req (generation_requests
                  (new_events w (snd (App.handleProcess P st w)))) ->
        aspectRatio_of req
        = Some (passed_ratio (id preset) f (App.isPortrait st))).
Proof.
  split; [exact requests_of_run_ratio|].
  intros P st preset f w req Hpreset Hfamily Hin.
  set (I := fun ev => forall r, generation_request ev = Some r ->
              aspectRatio_of r = Some (passed_ratio (id preset) f (App.isPortrait st))).
  assert (Hem : emits_at I (App.handleProcess P st) w).
  { apply (handleProcess_emits P st preset I w Hpreset).
    destruct (run_requests_in_shape P (job_of st preset) w) as (delta & Ht & HI).
    exists delta. split; [exact Ht|].
    eapply Forall_impl; [|exact HI].
    intros ev Hev r Hr. destruct (Hev r Hr) as (ratio & -> & Hshape).
    f_equal. rewrite <- targetAspectRatio_of_family, <- Hfamily.
    unfold call_shape in Hshape. cbn [jobPreset job_of jobRatio] in Hshape.
    destruct (id preset); destruct Hshape as [-> _]; reflexivity. }
  destruct Hem as (delta & Ht & HI).
  rewrite (new_events_app _ _ _ Ht) in Hin.
  apply In_generation_requests in Hin as (ev & Hev & Hreq).
  rewrite Forall_forall in HI. exact (HI ev Hev req Hreq).
Qed.

Lemma aspect_ratio_witness :
  Forall (fun req => aspectRatio_of req = Some "9:16")
    (generation_requests
       (new_events initial_world
          (snd (App.handleProcess studio_platform
                  (example_state LIFESTYLE "16:9" true) initial_world)))).
Proof.
  apply Forall_forall. intros req Hin.
  destruct aspect_ratio_resolution as [_ H].
  apply (H studio_platform (example_state LIFESTYLE "16:9" true)
           {| id := LIFESTYLE; presetLabel := "preset" |} Family_16_9
           initial_world req); [reflexivity|reflexivity|exact Hin].
Defined.

(** ** Grounding *)

Lemma append_inj_l (s a b : string) : s ++ a = s ++ b -> a = b.
Proof.
  induction s as [|c s IH]; simpl; intros H; [exact H|].
  injection H as H. now apply IH.
Qed.

Lemma augmentedPrompt_of_inj (prompt body d1 d2 : string) :
  augmentedPrompt_of prompt body d1 = augmentedPrompt_of prompt body d2 ->
  d1 = d2.
Proof.
  unfold augmentedPrompt_of. intros H.
  repeat (apply append_inj_l in H). exact H.
Qed.

Lemma ends_with_here (s : string) : ends_with s s = true.
Proof. destruct s; cbn [ends_with]; now rewrite String.eqb_refl. Qed.

Lemma ends_with_app_l (a t s : string) :
  ends_with t s = true -> ends_with (a ++ t) s = true.
Proof.
  intros H. induction a as [|c a IH]; [exact H|].
  cbn [append ends_with]. rewrite IH. apply orb_true_r.
Qed.

Ltac find_at_end :=
  repeat first [apply ends_with_here | apply ends_with_app_l].

(** Each of the three instruction texts ends with the description it was
    composed around. *)
Lemma augmentedPrompt_carries (prompt body d : string) :
  carries_description ("TASK: " ++ augmentedPrompt_of prompt body d) d = true.
Proof.
  unfold carries_description, augmentedPrompt_of, preserve_heading.
  apply orb_true_iff. left. find_at_end.
Qed.

Lemma anglePrompt_carries (prompt body d angle : string) :
  carries_description
    ("TASK: " ++ anglePromptWithAnalysis_of prompt body d angle) d = true.
Proof.
  unfold carries_description, anglePromptWithAnalysis_of, preserve_heading.
  apply orb_true_iff. left. find_at_end.
Qed.

Lemma finalPrompt_carries (presetId : PresetType) (prompt body : string)
    (environment additionalContext : option string) (d : string) :
  carries_description
    ("TASK: " ++ finalPromptWithAnalysis_of presetId prompt body environment
                   additionalContext d) d = true.
Proof.
  unfold carries_description, finalPromptWithAnalysis_of, preserve_heading.
  apply orb_true_iff.
  destruct (PresetType_eqb presetId LIFESTYLE); [right|left]; find_at_end.
Qed.

(** The description that grounds the shared instructions is one the
    analysis of the primary image resolved with. *)
Lemma shared_description_derived (P : Platform) (j : Job) (w : World)
    (primary : SourceImage) :
  primaryImg_of (jobImages j) = Some primary ->
  analysis_derived P j (file primary) (shared_description P j w).
Proof.
  intros Hprimary. unfold shared_description, analysis_derived.
  rewrite Hprimary.
  set (w1 := snd (status_update (jobSink j)
                    "Analyzing primary product features..." w)).
  pose proof (analyzeProductFeatures_resolves P (file primary) (jobKey j)
                (jobSink j) w1) as [a Ha].
  destruct (analyzeProductFeatures P (file primary) (jobKey j) (jobSink j) w1)
    as [o w2] eqn:Hrun.
  simpl in Ha. subst o. exists w1, w2, a. now split.
Qed.

Lemma ends_with_suffixes (t s : string) :
  ends_with t s = true -> In s (suffixes t).
Proof.
  induction t as [|c t IH]; cbn [ends_with suffixes]; intros H.
  - rewrite orb_false_r in H. apply String.eqb_eq in H. now left.
  - apply orb_true_iff in H as [H|H].
    + apply String.eqb_eq in H. now left.
    + right. now apply IH.
Qed.

Lemma after_heading_here (h d : string) : after_heading h (h ++ d) = [d].
Proof. unfold after_heading. now rewrite prefix_append, drop_append. Qed.

(** A description that a text carries is among its carried descriptions. *)
Lemma carries_description_listed (t d : string) :
  carries_description t d = true -> In d (carried_descriptions t).
Proof.
  unfold carries_description, carried_descriptions. intros H.
  apply in_flat_map. apply orb_true_iff in H as [H|H];
    apply ends_with_suffixes in H; eexists; (split; [exact H|]);
    apply in_or_app; [left|right];
    rewrite <- append_assoc, after_heading_here; now left.
Qed.

Lemma grounded_in_intro (j : Job) (d : string)
    (req : GenerateContentParameters) :
  match jobPreset j with
  | GHOST_MANNEQUIN =>
      task_text req
      = Some ("TASK: " ++ augmentedPrompt_of (jobPrompt j)
                            (selectedBodyType_of (jobBodyType j)) d)
  | ANGLES =>
      exists angle,
        In angle (anglesToGenerate_of (jobAngles j))
        /\ task_text req
           = Some ("TASK: " ++ anglePromptWithAnalysis_of (jobPrompt j)
                                 (selectedBodyType_of (jobBodyType j)) d angle)
  | presetId =>
      task_text req
      = Some ("TASK: " ++ finalPromptWithAnalysis_of presetId (jobPrompt j)
                            (selectedBodyType_of (jobBodyType j))
                            (jobEnvironment j) (jobContext j) d)
  end ->
  grounded_in j d req.
Proof.
  intros H. unfold grounded_in. split; [exact H|].
  destruct (jobPreset j).
  - eexists. split; [exact H|apply augmentedPrompt_carries].
  - eexists. split; [exact H|apply finalPrompt_carries].
  - destruct H as (angle & _ & H).
    eexists. split; [exact H|apply anglePrompt_carries].
  - eexists. split; [exact H|apply finalPrompt_carries].
Qed.

(** Against C2 as stated. Two source images, two analyses, two descriptions:
    the two generation units of one per-image request do not carry the same
    description.  Each instruction text ends with the description of its own
    image, and no description is carried by both. *)
Lemma per_image_units_carry_their_own_description :
  let j := example_job GHOST_MANNEQUIN [shoe_image; hat_image] None "1:1" in
  map task_text (requests_of_run studio_platform j initial_world)
  = [Some ("TASK: " ++ augmentedPrompt_of (jobPrompt j) "Women" "red shoe");
     Some ("TASK: " ++ augmentedPrompt_of (jobPrompt j) "Women" "blue hat")]
  /\ carries_description
       ("TASK: " ++ augmentedPrompt_of (jobPrompt j) "Women" "red shoe")
       "red shoe" = true
  /\ carries_description
       ("TASK: " ++ augmentedPrompt_of (jobPrompt j) "Women" "blue hat")
       "blue hat" = true
  /\ ~ exists d, forall req,
         In req (requests_of_run studio_platform j initial_world) ->
         exists t, task_text req = Some t /\ carries_description t d = true.
Proof.
  intros j.
  assert (Hmap : map task_text (requests_of_run studio_platform j initial_world)
                 = [Some ("TASK: " ++ augmentedPrompt_of (jobPrompt j) "Women" "red shoe");
                    Some ("TASK: " ++ augmentedPrompt_of (jobPrompt j) "Women" "blue hat")])
    by (vm_compute; reflexivity).
  split; [exact Hmap|].
  split; [apply augmentedPrompt_carries|].
  split; [apply augmentedPrompt_carries|].
  intros [d Hd].
  destruct (requests_of_run studio_platform j initial_world)
    as [|r1 [|r2 [|r3 rs]]]; try discriminate Hmap.
  injection Hmap as H1 H2.
  destruct (Hd r1 (or_introl eq_refl)) as (t1 & E1 & C1).
  destruct (Hd r2 (or_intror (or_introl eq_refl))) as (t2 & E2 & C2).
  rewrite H1 in E1. rewrite H2 in E2. injection E1 as <-. injection E2 as <-.
  apply carries_description_listed in C1.
  assert (Hnone : forallb
                    (fun d' =>
                       negb (carries_description
                               ("TASK: " ++ augmentedPrompt_of (jobPrompt j)
                                              "Women" "blue hat") d'))
                    (carried_descriptions
                       ("TASK: " ++ augmentedPrompt_of (jobPrompt j)
                                      "Women" "red shoe")) = true)
    by (vm_compute; reflexivity).
  rewrite forallb_forall in Hnone. specialize (Hnone d C1).
  apply negb_true_iff in Hnone. exact (eq_true_false_abs _ C2 Hnone).
Qed.

(** C2 (amended). For every strategy but the per-image one, every request
    that a run sends to the generation model carries, in its instruction
    text, one and the same description, the one the analysis of the primary
    image resolved with.  For the per-image strategy every such request
    carries the content of one of the source images and, in its instruction
    text, a description that the analysis of that very image resolved with. *)
Theorem units_share_the_analysis_description :
  forall (P : Platform) (j : Job) (w : World),
    (jobPreset j <> GHOST_MANNEQUIN ->
     exists d,
       (forall primary, primaryImg_of (jobImages j) = Some primary ->
                        analysis_derived P j (file primary) d)
       /\ forall req, In req (requests_of_run P j w) -> grounded_in j d req)
    /\ (jobPreset j = GHOST_MANNEQUIN ->
        forall req, In req (requests_of_run P j w) ->
          exists img s d,
            In img (jobImages j)
            /\ readAsDataURL (file img) = Some s
            /\ In (InlinePart (base64_payload s) (type (file img))) (contents req)
            /\ analysis_derived P j (file img) d
            /\ grounded_in j d req).
Proof.
  intros P j w. split.
  - intros Hpreset. exists (shared_description P j w). split.
    + intros primary. apply shared_description_derived.
    + intros req Hin.
      destruct (requests_of_run_in_shape P j w req Hin) as (ratio & _ & Hshape).
      unfold call_shape in Hshape. apply grounded_in_intro.
      destruct (jobPreset j); [congruence| | |].
      * destruct Hshape as (_ & pre & Hparts). eapply task_text_last; eauto.
      * destruct Hshape as (_ & angle & pre & Hangle & Hparts).
        exists angle. split; [exact Hangle|]. eapply task_text_last; eauto.
      * destruct Hshape as (_ & pre & Hparts). eapply task_text_last; eauto.
  - intros Hpreset req Hin.
    destruct (requests_of_run_in_shape P j w req Hin) as (ratio & _ & Hshape).
    unfold call_shape in Hshape. rewrite Hpreset in Hshape.
    destruct Hshape as (_ & img & s & d & pre & Himg & Hs & Hd & Hparts).
    exists img, s, d.
    split; [exact Himg|]. split; [exact Hs|]. split; [|split; [exact Hd|]].
    + rewrite Hparts. apply in_or_app. right. now left.
    + apply grounded_in_intro. rewrite Hpreset.
      apply (task_text_last req
               (pre ++ [InlinePart (base64_payload s) (type (file img))])%list).
      rewrite Hparts, <- app_assoc. reflexivity.
Qed.

Lemma units_share_witness :
  exists d,
    forall req,
      In req (requests_of_run studio_platform
                (example_job ANGLES [shoe_image; hat_image] None "1:1")
                initial_world) ->
      grounded_in (example_job ANGLES [shoe_image; hat_image] None "1:1") d req.
Proof.
  destruct (units_share_the_analysis_description studio_platform
              (example_job ANGLES [shoe_image; hat_image] None "1:1")
              initial_world) as [H _].
  destruct H as (d & _ & Hd); [discriminate|].
  exists d. exact Hd.
Defined.

(** ** Runs that fail *)

Lemma rejects_in_bind {A B} (c : M A) (k : A -> M B) (S : JsError -> Prop) :
  resolves_or_rejects_in c S ->
  (forall a, rejects_in (k a) S) ->
  rejects_in (bind c k) S.
Proof.
  intros Hc Hk.
  apply (post_bind c k (fun o => match o with
                                 | Resolved _ => True
                                 | Rejected e => S e
                                 | Diverged => False
                                 end)); [exact Hc| | |].
  - intros a _. apply Hk.
  - intros e He. eauto.
  - intros [].
Qed.

Lemma rejects_in_bind_left {A B} (c : M A) (k : A -> M B)
    (S : JsError -> Prop) :
  rejects_in c S -> rejects_in (bind c k) S.
Proof.
  intros Hc.
  apply (post_bind c k (fun o => exists e, o = Rejected e /\ S e));
    [exact Hc| | |].
  - intros a (e & He & _). discriminate.
  - intros e (e' & [= <-] & He). eauto.
  - intros (e & He & _). discriminate.
Qed.

Lemma resolves_or_rejects_in_resolves {A} (c : M A) (S : JsError -> Prop) :
  resolves c -> resolves_or_rejects_in c S.
Proof.
  apply post_weaken. intros o [a ->]. exact I.
Qed.

Lemma resolves_status_update (sink : bool) (msg : string) :
  resolves (status_update sink msg).
Proof. apply post_status_update. eauto. Qed.

Lemma file_resolves_or_rejects (f : File) (S : JsError -> Prop) :
  S readerErrorEvent \/ readAsDataURL f <> None ->
  resolves_or_rejects_in (fileToGenerativePart f) S.
Proof.
  intros H. apply post_fileToGenerativePart.
  - intros Hn. destruct H as [H|H]; [exact H|contradiction].
  - intros s _. exact I.
Qed.

Lemma viewpoint_parts_resolves_or_rejects (images : list SourceImage)
    (S : JsError -> Prop) :
  S readerErrorEvent \/ Forall readable images ->
  resolves_or_rejects_in (viewpoint_parts images) S.
Proof.
  induction images as [|img rest IH]; intros H; cbn [viewpoint_parts].
  - now apply post_ret.
  - assert (H1 : S readerErrorEvent \/ readAsDataURL (file img) <> None).
    { destruct H as [H|H]; [now left|right]. now inversion H. }
    assert (H2 : S readerErrorEvent \/ Forall readable rest).
    { destruct H as [H|H]; [now left|right]. now inversion H. }
    eapply post_bind; [apply (file_resolves_or_rejects _ S H1)| | |];
      cbn beta; try tauto.
    intros p _.
    eapply post_bind; [apply (IH H2)| | |]; cbn beta; try tauto.
    intros ps _. now apply post_ret.
Qed.

Lemma build_contextParts_resolves_or_rejects (images : list SourceImage)
    (sink : bool) (reference : option string) (S : JsError -> Prop) :
  S readerErrorEvent \/ Forall readable images ->
  resolves_or_rejects_in (build_contextParts images sink reference) S.
Proof.
  intros H. unfold build_contextParts.
  apply (post_bind _ _ (fun o => exists a, o = Resolved a)).
  - destruct reference; [|apply post_ret; eauto].
    skip_event. apply post_ret; eauto.
  - intros styleParts _.
    eapply post_bind;
      [apply (viewpoint_parts_resolves_or_rejects images S H)| | |];
      cbn beta; try tauto.
    intros views _. now apply post_ret.
  - intros e [a Ha]. discriminate.
  - intros [a Ha]. discriminate.
Qed.

Lemma run_all_rejected {A} (S : JsError -> Prop) (units : list (M A)) :
  Forall (fun u => rejects_in u S) units ->
  forall w, Forall (fun o => exists e, o = Rejected e /\ S e)
              (fst (run_all units w)).
Proof.
  induction 1 as [|u units Hu _ IH]; intros w; cbn [run_all].
  - constructor.
  - specialize (Hu w). destruct (u w) as [o w1]. simpl in Hu.
    specialize (IH w1). destruct (run_all units w1) as [os w2]. simpl in *.
    now constructor.
Qed.

Lemma settle_all_rejected {A} (S : JsError -> Prop) (first : nat)
    (os : list (Outcome A)) :
  os <> [] ->
  Forall (fun o => exists e, o = Rejected e /\ S e) os ->
  exists e, settle_all first os = Rejected e /\ S e.
Proof.
  intros Hne Hall. unfold settle_all.
  assert (Hdiv : any_diverged os = false).
  { clear Hne. induction Hall as [|o os (e & -> & _) _ IH];
      [reflexivity|exact IH]. }
  assert (Hres : all_resolved os = None).
  { destruct Hall as [|o os (e & -> & _) _]; [congruence|reflexivity]. }
  assert (Hlow : exists e, lowest_rejection os = Some e /\ S e).
  { destruct Hall as [|o os (e & -> & He) _]; [congruence|]. now exists e. }
  rewrite Hdiv, Hres.
  destruct (nth_error os first) as [o|] eqn:Hnth.
  - apply nth_error_In in Hnth. rewrite Forall_forall in Hall.
    destruct (Hall o Hnth) as (e & -> & He). now exists e.
  - destruct Hlow as (e & -> & He). now exists e.
Qed.

(** A batch whose units all reject, rejects. *)
Lemma Promise_all_rejects_in {A} (P : Platform) (S : JsError -> Prop)
    (units : list (M A)) :
  units <> [] ->
  Forall (fun u => rejects_in u S) units ->
  rejects_in (Promise_all P units) S.
Proof.
  intros Hne Hall w. unfold Promise_all.
  pose proof (run_all_rejected S units Hall w) as Hos.
  assert (Hlen : fst (run_all units w) <> []).
  { destruct units as [|u units]; [congruence|]. cbn [run_all].
    destruct (u w) as [o w1]. destruct (run_all units w1). discriminate. }
  destruct (run_all units w) as [os w']. simpl in *.
  now apply settle_all_rejected.
Qed.

Lemma mapi_from_nonempty {A B} (f : A -> nat -> B) (xs : list A) (i : nat) :
  xs <> [] -> mapi_from i f xs <> [].
Proof. destruct xs; [congruence|discriminate]. Qed.

Lemma anglesToGenerate_of_nonempty (targetAngles : option (list string)) :
  anglesToGenerate_of targetAngles <> [].
Proof. destruct targetAngles as [[|a l]|]; discriminate. Qed.

Lemma primaryImg_of_nonempty (images : list SourceImage) :
  images <> [] -> exists primary, primaryImg_of images = Some primary.
Proof.
  intros H. unfold primaryImg_of.
  destruct (find _ images); [eauto|].
  destruct images; [congruence|]. simpl. eauto.
Qed.

(** When every call of the generation adapter rejects with an error in [S],
    a run over at least one source image rejects with an error in [S],
    provided that the source files can be read or that the error of the
    reader is in [S]. *)
Lemma run_rejects_in (P : Platform) (j : Job) (S : JsError -> Prop) :
  jobImages j <> [] ->
  S readerErrorEvent \/ Forall readable (jobImages j) ->
  (forall parts ratio,
      rejects_in (callGeminiGenerator P parts (jobKey j) (jobQuality j)
                    (jobSink j) ratio) S) ->
  rejects_in (run P j) S.
Proof.
  intros Hne Hread Hcall. unfold run, processImagesWithGemini.
  destruct (find_preset (jobPreset j)) as [preset ->].
  destruct (PresetType_eqb (jobPreset j) GHOST_MANNEQUIN).
  - apply Promise_all_rejects_in; [now apply mapi_from_nonempty|].
    apply Forall_mapi_from. intros img idx Hin. unfold ghost_unit.
    apply rejects_in_bind;
      [apply resolves_or_rejects_in_resolves, resolves_status_update|intros _].
    apply rejects_in_bind;
      [apply resolves_or_rejects_in_resolves, analyzeProductFeatures_resolves|].
    intros a.
    apply rejects_in_bind;
      [apply resolves_or_rejects_in_resolves, resolves_status_update|intros _].
    apply rejects_in_bind.
    { apply file_resolves_or_rejects. destruct Hread as [H|H]; [now left|right].
      rewrite Forall_forall in H. exact (H img Hin). }
    intros p. apply rejects_in_bind_left. apply Hcall.
  - apply rejects_in_bind;
      [apply resolves_or_rejects_in_resolves, resolves_status_update|intros _].
    destruct (primaryImg_of_nonempty (jobImages j) Hne) as [primary ->].
    apply rejects_in_bind; [now apply post_ret|intros f].
    apply rejects_in_bind;
      [apply resolves_or_rejects_in_resolves, analyzeProductFeatures_resolves|].
    intros a.
    apply rejects_in_bind;
      [now apply build_contextParts_resolves_or_rejects|intros contextParts].
    destruct (PresetType_eqb (jobPreset j) ANGLES).
    + apply Promise_all_rejects_in;
        [apply mapi_from_nonempty, anglesToGenerate_of_nonempty|].
      apply Forall_mapi_from. intros angle idx _. unfold angle_unit.
      apply rejects_in_bind;
        [apply resolves_or_rejects_in_resolves, resolves_status_update|intros _].
      apply rejects_in_bind_left. apply Hcall.
    + apply rejects_in_bind;
        [apply resolves_or_rejects_in_resolves, resolves_status_update|intros _].
      apply rejects_in_bind_left. apply Hcall.
Qed.

(** Against C6 as stated. With no source image the per-image strategy has no
    unit to run, and the run resolves with the empty list although the
    credential is missing. *)
Lemma run_without_key_and_images_resolves :
  run studio_platform
    (without_key (example_job GHOST_MANNEQUIN [] None "1:1")) initial_world
  = (Resolved [], initial_world).
Proof. vm_compute. reflexivity. Qed.

Lemma no_remote_activity_status (m : string) : no_remote_activity (EvStatus m).
Proof. repeat split. Qed.

(** C6 (amended). For every job without a credential and with at least one
    source image, the run rejects, with the error [API Key not provided.] of
    the generation adapter or, when a source file cannot be read, possibly
    with the error of the reader; when all source files can be read the
    rejection is the error of the missing credential.  The run sends no
    remote request, never enters the retry controller and never waits. *)
Theorem run_without_credential_rejects :
  forall (P : Platform) (j : Job),
    jobKey j = EmptyString ->
    jobImages j <> [] ->
    rejects_in (run P j) (fun e => e = missing_key_error \/ e = readerErrorEvent)
    /\ (Forall readable (jobImages j) -> rejects_with (run P j) missing_key_error)
    /\ emits no_remote_activity (run P j).
Proof.
  intros P j Hkey Hne.
  assert (Hcall : forall (S : JsError -> Prop) parts ratio,
             S missing_key_error ->
             rejects_in (callGeminiGenerator P parts (jobKey j) (jobQuality j)
                           (jobSink j) ratio) S).
  { intros S parts ratio HS. unfold callGeminiGenerator. rewrite Hkey.
    cbn [Js.truthy negb]. apply post_throw. exists missing_key_error. now split. }
  split; [|split].
  - apply run_rejects_in; [exact Hne|left; now right|].
    intros parts ratio. apply Hcall. now left.
  - intros Hread.
    assert (H : rejects_in (run P j) (fun e => e = missing_key_error)).
    { apply run_rejects_in; [exact Hne|now right|].
      intros parts ratio. now apply Hcall. }
    intros w. destruct (H w) as (e & He & ->). exact He.
  - intros w. apply run_emits.
    + apply no_remote_activity_status.
    + intros f. unfold analyzeProductFeatures. rewrite Hkey.
      cbn [Js.truthy negb]. apply emits_ret.
    + intros parts ratio _. unfold callGeminiGenerator. rewrite Hkey.
      cbn [Js.truthy negb]. apply emits_throw.
Qed.

Lemma run_without_credential_witness :
  fst (run studio_platform
         (without_key (example_job ANGLES [shoe_image; hat_image] None "1:1"))
         initial_world)
  = Rejected missing_key_error.
Proof.
  destruct (run_without_credential_rejects studio_platform
              (without_key (example_job ANGLES [shoe_image; hat_image] None "1:1")))
    as (_ & H & _); [reflexivity|discriminate|].
  apply H. repeat constructor; discriminate.
Defined.





(** ** Runs that succeed *)

Lemma bind_resolved {A B} (c : M A) (k : A -> M B) (w w' : World) (b : B) :
  bind c k w = (Resolved b, w') ->
  exists a w1, c w = (Resolved a, w1) /\ k a w1 = (Resolved b, w').
Proof.
  unfold bind. destruct (c w) as [[a|e|] w1]; try discriminate.
  intros H. now exists a, w1.
Qed.

Lemma all_resolved_map {A} (os : list (Outcome A)) (vs : list A) :
  all_resolved os = Some vs -> os = map Resolved vs.
Proof.
  revert vs. induction os as [|o os IH]; intros vs; cbn [all_resolved].
  - now intros [= <-].
  - destruct o as [a|e|]; try discriminate.
    destruct (all_resolved os) as [vs'|]; [|discriminate].
    intros [= <-]. cbn [map]. f_equal. now apply IH.
Qed.

Lemma settle_all_resolved {A} (first : nat) (os : list (Outcome A))
    (vs : list A) :
  settle_all first os = Resolved vs -> os = map Resolved vs.
Proof.
  unfold settle_all. destruct (any_diverged os); [discriminate|].
  destruct (all_resolved os) as [vs'|] eqn:Hall.
  - intros [= <-]. now apply all_resolved_map.
  - destruct (nth_error os first) as [[a|e|]|];
      try discriminate; destruct (lowest_rejection os); discriminate.
Qed.

Lemma run_all_outcomes {A} (units : list (M A)) (w w' : World)
    (os : list (Outcome A)) :
  run_all units w = (os, w') ->
  Forall2 (fun u o => exists w1 w2, u w1 = (o, w2)) units os.
Proof.
  revert w w' os. induction units as [|u units IH]; intros w w' os;
    cbn [run_all].
  - intros [= <- _]. constructor.
  - destruct (u w) as [o w1] eqn:Hu.
    destruct (run_all units w1) as [os' w2] eqn:Hrest.
    intros [= <- _]. constructor; [now exists w, w1|]. eapply IH; eauto.
Qed.

(** The results of a batch that resolves are, in order, the values its units
    resolved with. *)
Lemma Promise_all_resolved {A} (P : Platform) (units : list (M A))
    (w w' : World) (vs : list A) :
  Promise_all P units w = (Resolved vs, w') ->
  Forall2 (fun u v => exists w1 w2, u w1 = (Resolved v, w2)) units vs.
Proof.
  unfold Promise_all. destruct (run_all units w) as [os w1] eqn:Hrun.
  intros [= Hsettle _]. apply settle_all_resolved in Hsettle. subst os.
  apply run_all_outcomes in Hrun.
  revert Hrun. generalize units. induction vs as [|v vs IH]; intros us H;
    inversion H; subst; constructor; auto.
Qed.

Lemma Forall2_mapi_from {A B C} (R : B -> C -> Prop) (f : A -> nat -> B)
    (xs : list A) (ys : list C) (i : nat) :
  Forall2 R (mapi_from i f xs) ys ->
  Forall2 (fun x y => exists k, R (f x k) y) xs ys.
Proof.
  revert ys i. induction xs as [|x xs IH]; intros ys i H;
    inversion H; subst; constructor; eauto.
Qed.

Lemma Forall2_map_eq {A B C} (f : A -> C) (g : B -> C) (xs : list A)
    (ys : list B) :
  Forall2 (fun x y => g y = f x) xs ys -> map g ys = map f xs.
Proof. induction 1; simpl; congruence. Qed.

Lemma angle_unit_filename (P : Platform) (contextParts : list Part)
    (customPrompt apiKey : string) (quality : ImageSize) (sink : bool)
    (body : string) (a : AnalysisResult) (angle : string) (index : nat)
    (w w' : World) (r : ProcessedImage) :
  angle_unit P contextParts customPrompt apiKey quality sink body a angle index w
  = (Resolved r, w') ->
  filename r = analysisFilename a ++ "-" ++ angle_suffix angle.
Proof.
  unfold angle_unit. intros H.
  apply bind_resolved in H as (_ & w1 & _ & H).
  apply bind_resolved in H as (url & w2 & _ & H).
  injection H as <- _. reflexivity.
Qed.

(** The results of a per-angle run that resolves. *)
Lemma angles_run_resolved (P : Platform) (j : Job) (w w' : World)
    (rs : list ProcessedImage) :
  jobPreset j = ANGLES ->
  run P j w = (Resolved rs, w') ->
  exists stem,
    analysis_stem P j stem
    /\ Forall2 (fun angle r =>
                  filename r = stem ++ "-" ++ angle_suffix angle
                  /\ result_of_angle P j angle r)
         (anglesToGenerate_of (jobAngles j)) rs.
Proof.
  intros Hpreset. unfold run, processImagesWithGemini. rewrite Hpreset.
  cbn [find PRESETS id PresetType_eqb]. intros H.
  apply bind_resolved in H as (_ & w1 & _ & H).
  destruct (primaryImg_of (jobImages j)) as [primary|] eqn:Hprimary.
  2:{ apply bind_resolved in H as (f & w2 & Hf & _). discriminate. }
  apply bind_resolved in H as (f & w2 & Hf & H). injection Hf as <- <-.
  apply bind_resolved in H as (a & w3 & Ha & H).
  apply bind_resolved in H as (contextParts & w4 & _ & H).
  apply Promise_all_resolved in H. apply Forall2_mapi_from in H.
  exists (analysisFilename a). split.
  - exists primary, w1, w3, a. now repeat split.
  - eapply Forall2_impl; [|exact H]. cbn beta.
    intros angle r (index & w5 & w6 & Hunit). split.
    + eapply angle_unit_filename; eauto.
    + exists contextParts, a, index, w5, w6. exact Hunit.
Qed.

(** For the angles the application offers, the suffix is the first word of
    the label, lower-cased. *)
Lemma angle_suffix_of_available_angles :
  Forall (fun angle => angle_suffix angle = specified_suffix angle)
    AVAILABLE_ANGLES.
Proof. repeat constructor. Qed.

(** Case mapping goes beyond ASCII: the capitals of Latin-1 are lowered,
    its small letters raised, the sharp s becomes two capitals, and the
    multiplication and the division sign, no letters, stay. *)
Lemma case_mapping_of_latin_1 :
  Js.toLowerCase (Js.str (ascii_of_nat 201)) = Js.str (ascii_of_nat 233)
  /\ Js.toUpperCase (Js.str (ascii_of_nat 233)) = Js.str (ascii_of_nat 201)
  /\ Js.toUpperCase (Js.str (ascii_of_nat 223)) = "SS"
  /\ Js.toLowerCase (Js.str (ascii_of_nat 215)) = Js.str (ascii_of_nat 215)
  /\ Js.toUpperCase (Js.str (ascii_of_nat 247)) = Js.str (ascii_of_nat 247)
  /\ Js.toLowerCase "Front View" = "front view"
  /\ Js.toUpperCase "Kid" = "KID".
Proof. repeat split. Qed.

Lemma angle_suffix_of_accented_label :
  angle_suffix accented_label
  = String (ascii_of_nat 233) "tag" ++ String (ascii_of_nat 232) "re".
Proof. reflexivity. Qed.

(** Against C7 as stated. The suffix made by the code is not the first word of
    the label when the label holds a tabulation before its first space (the
    white space is hyphenated, not a separator) or starts with a space (the
    suffix is then empty). *)
Lemma angle_suffix_is_not_the_first_word :
  let j := example_job ANGLES [shoe_image] (Some [tabbed_label; indented_label])
             "1:1" in
  option_map (map filename)
    (match fst (run studio_platform j initial_world) with
     | Resolved rs => Some rs
     | _ => None
     end)
  = Some ["Acme-Runner-Red-Sneakers-top-down"; "Acme-Runner-Red-Sneakers-"]
  /\ map (fun angle => "Acme-Runner-Red-Sneakers-" ++ specified_suffix angle)
       [tabbed_label; indented_label]
     = ["Acme-Runner-Red-Sneakers-top"; "Acme-Runner-Red-Sneakers-front"].
Proof. vm_compute. split; reflexivity. Qed.

(** C7 (amended). For every angle list that is not empty, a per-angle run
    that resolves returns as many results as there are angles, the i-th
    result being what the unit of the i-th angle resolved with; its file
    name is a stem that the analysis of the primary image resolved with,
    followed by a hyphen and by the text of the i-th label before its first
    space character, lower-cased, every run of white space in it replaced by
    one hyphen. *)
Theorem angles_batch_results :
  forall (P : Platform) (j : Job) (angles : list string) (w w' : World)
         (rs : list ProcessedImage),
    jobPreset j = ANGLES ->
    jobAngles j = Some angles ->
    angles <> [] ->
    run P j w = (Resolved rs, w') ->
    List.length rs = List.length angles
    /\ exists stem,
         analysis_stem P j stem
         /\ map filename rs
            = map (fun angle =>
                     stem ++ "-"
                     ++ Js.hyphenate
                          (Js.toLowerCase (hd EmptyString (Js.split " " angle))))
                angles
         /\ Forall2 (result_of_angle P j) angles rs.
Proof.
  intros P j angles w w' rs Hpreset Hangles Hne Hrun.
  destruct (angles_run_resolved P j w w' rs Hpreset Hrun) as (stem & Hstem & H).
  assert (Ha : anglesToGenerate_of (jobAngles j) = angles).
  { rewrite Hangles. destruct angles; [congruence|reflexivity]. }
  rewrite Ha in H. split.
  - symmetry. eapply Forall2_length; eauto.
  - exists stem. split; [exact Hstem|]. split.
    + apply Forall2_map_eq. eapply Forall2_impl; [|exact H].
      cbn beta. now intros angle r [Hname _].
    + eapply Forall2_impl; [|exact H]. cbn beta. now intros angle r [_ Hr].
Qed.

Lemma angles_batch_witness :
  exists rs,
    fst (run studio_platform
           (example_job ANGLES [shoe_image] (Some ["Front View"; "Side View"]) "1:1")
           initial_world) = Resolved rs
    /\ List.length rs = 2.
Proof.
  destruct (run studio_platform
              (example_job ANGLES [shoe_image] (Some ["Front View"; "Side View"]) "1:1")
              initial_world) as [o w'] eqn:Hrun.
  assert (Ho : exists rs, o = Resolved rs).
  { apply (f_equal fst) in Hrun. vm_compute in Hrun. rewrite <- Hrun. eauto. }
  destruct Ho as [rs ->]. exists rs. split; [reflexivity|].
  apply (angles_batch_results studio_platform
           (example_job ANGLES [shoe_image] (Some ["Front View"; "Side View"]) "1:1")
           ["Front View"; "Side View"] initial_world w' rs);
    [reflexivity|reflexivity|discriminate|exact Hrun].
Defined.

(** Against C5 as stated. With no angle selected the per-angle strategy raises
    no error: it falls back to its three default angles, sends its requests
    and resolves with three images. *)
Lemma empty_angle_selection_falls_back :
  let r := run studio_platform
             (example_job ANGLES [shoe_image] (Some []) "1:1") initial_world in
  option_map (map filename)
    (match fst r with Resolved rs => Some rs | _ => None end)
  = Some ["Acme-Runner-Red-Sneakers-front"; "Acme-Runner-Red-Sneakers-side";
          "Acme-Runner-Red-Sneakers-3/4"]
  /\ count is_remote (trace (snd r)) = 4.
Proof. vm_compute. split; reflexivity. Qed.

(** C5 (amended). For a per-angle request whose angle selection is empty or
    absent, the pipeline raises no error of its own: it runs exactly as for
    the three default angles (front, side, three-quarter), and when it
    resolves it returns three images, their names ending in the suffixes of
    these three angles. *)
Theorem empty_angle_selection_uses_defaults :
  forall (P : Platform) (j : Job),
    jobPreset j = ANGLES ->
    jobAngles j = None \/ jobAngles j = Some [] ->
    run P j = run P (with_angles j (Some default_angles))
    /\ forall w w' rs,
         run P j w = (Resolved rs, w') ->
         exists stem,
           analysis_stem P j stem
           /\ map filename rs
              = [stem ++ "-front"; stem ++ "-side"; stem ++ "-3/4"].
Proof.
  intros P j Hpreset Hangles.
  assert (Ha : anglesToGenerate_of (jobAngles j) = default_angles)
    by (destruct Hangles as [-> | ->]; reflexivity).
  split.
  - unfold run, processImagesWithGemini. cbn [with_angles jobImages jobPreset
      jobPrompt jobKey jobQuality jobSink jobReference jobAngles jobBodyType
      jobRatio jobEnvironment jobContext]. now rewrite Ha.
  - intros w w' rs Hrun.
    destruct (angles_run_resolved P j w w' rs Hpreset Hrun) as (stem & Hstem & H).
    exists stem. split; [exact Hstem|]. rewrite Ha in H.
    assert (Hnames : map filename rs
                     = map (fun angle => stem ++ "-" ++ angle_suffix angle)
                         default_angles).
    { apply Forall2_map_eq. eapply Forall2_impl; [|exact H].
      cbn beta. now intros angle r [Hname _]. }
    rewrite Hnames. reflexivity.
Qed.

Lemma empty_angle_selection_witness :
  run studio_platform (example_job ANGLES [shoe_image] None "1:1")
  = run studio_platform
      (with_angles (example_job ANGLES [shoe_image] None "1:1")
         (Some default_angles)).
Proof.
  apply (empty_angle_selection_uses_defaults studio_platform
           (example_job ANGLES [shoe_image] None "1:1")); [reflexivity|now left].
Defined.

(** ** The first occurrence of the placeholder *)

(** An occurrence of the placeholder that starts inside [a] ends inside [a]:
    the opening bracket is nowhere else in the placeholder. *)
Lemma placeholder_does_not_straddle (a b : string) :
  a <> EmptyString ->
  prefix BodyType_placeholder (a ++ BodyType_placeholder ++ b) = true ->
  prefix BodyType_placeholder a = true.
Proof.
  unfold BodyType_placeholder. intros Hne H.
  destruct a as [|c a]; [congruence|clear Hne].
  cbn [append prefix] in H |- *.
  do 10 (match goal with
         | H : (if ascii_dec ?x ?y then _ else false) = true |- _ =>
             destruct (ascii_dec x y); [subst|discriminate H]
         | _ => idtac
         end;
         try (destruct a as [|c a];
              [cbn in H; discriminate H|cbn [append prefix] in H |- *])).
  all: try reflexivity.
  all: try (destruct a; reflexivity).
Qed.

Lemma includes_cons_false (c : ascii) (a pat : string) :
  Js.includes (String c a) pat = false ->
  prefix pat (String c a) = false /\ Js.includes a pat = false.
Proof. cbn [Js.includes]. apply orb_false_iff. Qed.

(** The replacement touches the first occurrence only: what follows it is
    kept as it is. *)
Lemma replace_from_first_occurrence (a b template : string) :
  Js.includes a BodyType_placeholder = false ->
  forall before,
    Js.replace_from before (a ++ BodyType_placeholder ++ b)
      BodyType_placeholder template
    = before ++ a
      ++ Js.GetSubstitution BodyType_placeholder (before ++ a) b template ++ b.
Proof.
  induction a as [|c a IH]; intros Hinc before.
  - cbn [append]. rewrite append_nil_r.
    destruct (BodyType_placeholder ++ b) eqn:E; [discriminate E|].
    cbn [Js.replace_from]. rewrite <- E, prefix_append, drop_append.
    reflexivity.
  - apply includes_cons_false in Hinc as [Hpre Hinc].
    assert (Hno : prefix BodyType_placeholder
                    (String c a ++ BodyType_placeholder ++ b) = false).
    { destruct (prefix BodyType_placeholder
                  (String c a ++ BodyType_placeholder ++ b)) eqn:E;
        [|reflexivity].
      apply placeholder_does_not_straddle in E; [congruence|discriminate]. }
    change (String c a ++ BodyType_placeholder ++ b)
      with (String c (a ++ BodyType_placeholder ++ b)) in *.
    cbn [Js.replace_from]. rewrite Hno, (IH Hinc).
    rewrite !append_assoc. reflexivity.
Qed.

Lemma replace_first_occurrence (a b template : string) :
  Js.includes a BodyType_placeholder = false ->
  Js.replace (a ++ BodyType_placeholder ++ b) BodyType_placeholder template
  = a ++ Js.GetSubstitution BodyType_placeholder a b template ++ b.
Proof.
  intros H. unfold Js.replace.
  now rewrite (replace_from_first_occurrence a b template H EmptyString).
Qed.

(** A replacement text without a dollar sign stands for itself. *)
Lemma GetSubstitution_plain (matched before after template : string) :
  Js.includes template "$" = false ->
  Js.GetSubstitution matched before after template = template.
Proof.
  induction template as [|c t IH]; [reflexivity|].
  intros H. apply includes_cons_false in H as [Hpre Hinc].
  cbn [Js.GetSubstitution].
  destruct (Ascii.eqb c "$") eqn:E.
  - apply Ascii.eqb_eq in E. subst c. cbn in Hpre. now destruct t.
  - now rewrite (IH Hinc).
Qed.

Lemma cleanPrompt_of_split (customPrompt body : string)
    (environment additionalContext : option string) :
  cleanPrompt_of customPrompt body environment additionalContext
  = Js.replace (stripped_prompt customPrompt) BodyType_placeholder body
    ++ scene_addenda environment additionalContext.
Proof.
  unfold cleanPrompt_of, scene_addenda, stripped_prompt, BodyType_placeholder.
  destruct environment as [env|], additionalContext as [ctx|];
    try destruct (Js.truthy env); try destruct (Js.truthy ctx);
    rewrite ?append_assoc, ?append_nil_r; reflexivity.
Qed.


(** The replacement, for a text that reads [a], the placeholder, [b], with
    no placeholder in [a]: only the first occurrence is replaced and [b],
    with every later occurrence of the placeholder, is kept as it is; a body
    type that holds no dollar sign is put in its place as it is.  Every
    request of a run to the generation model carries an instruction text
    built around that result. *)
Theorem placeholder_replaced_once :
  forall (a b : string) (bodyType : option string),
    Js.includes a BodyType_placeholder = false ->
    let body := selectedBodyType_of bodyType in
    let substituted := Js.GetSubstitution BodyType_placeholder a b body in
    Js.replace (a ++ BodyType_placeholder ++ b) BodyType_placeholder body
    = a ++ substituted ++ b
    /\ (Js.includes body "$" = false -> substituted = body)
    /\ (forall (P : Platform) (j : Job) (w : World)
               (req : GenerateContentParameters),
          jobBodyType j = bodyType ->
          searched_prompt (jobPreset j) (jobPrompt j)
          = a ++ BodyType_placeholder ++ b ->
          In req (requests_of_run P j w) ->
          exists d text,
            task_text req = Some ("TASK: " ++ text)
            /\ instruction_around j (a ++ substituted ++ b) d text).
Proof.
  intros a b bodyType Hinc body substituted.
  pose proof (replace_first_occurrence a b body Hinc) as Hrep.
  fold substituted in Hrep.
  split; [exact Hrep|]. split; [apply GetSubstitution_plain|].
  intros P j w req Hbody Hprompt Hin.
  destruct (requests_of_run_in_shape P j w req Hin) as (ratio & _ & Hshape).
  unfold call_shape in Hshape. unfold instruction_around, searched_prompt in *.
  rewrite Hbody in *. fold body in Hshape |- *.
  destruct (jobPreset j).
  - destruct Hshape as (_ & img & s & d & pre & _ & _ & _ & Hparts).
    exists d. eexists. split.
    + apply (task_text_last req
               (pre ++ [InlinePart (base64_payload s) (type (file img))])%list).
      rewrite Hparts, <- app_assoc. reflexivity.
    + unfold augmentedPrompt_of. rewrite Hprompt.
      fold BodyType_placeholder. rewrite Hrep. reflexivity.
  - destruct Hshape as (_ & pre & Hparts).
    exists (shared_description P j w). eexists. split.
    + eapply task_text_last; eauto.
    + unfold finalPromptWithAnalysis_of. cbn [PresetType_eqb].
      rewrite cleanPrompt_of_split, Hprompt, Hrep. reflexivity.
  - destruct Hshape as (_ & angle & pre & _ & Hparts).
    exists (shared_description P j w). eexists. split.
    + eapply task_text_last; eauto.
    + exists angle. unfold anglePromptWithAnalysis_of. rewrite Hprompt.
      fold BodyType_placeholder. rewrite Hrep. reflexivity.
  - destruct Hshape as (_ & pre & Hparts).
    exists (shared_description P j w). eexists. split.
    + eapply task_text_last; eauto.
    + unfold finalPromptWithAnalysis_of. cbn [PresetType_eqb].
      rewrite cleanPrompt_of_split, Hprompt, Hrep. reflexivity.
Qed.

Lemma placeholder_replaced_once_witness :
  Js.replace twice_prompt BodyType_placeholder "Women"
  = "Fit for Women, cut for <BodyType>.".
Proof.
  destruct (placeholder_replaced_once "Fit for " ", cut for <BodyType>."
              (Some "Women") eq_refl) as (H & Hplain & _).
  cbn zeta in *. rewrite (Hplain eq_refl) in H. exact H.
Defined.

(** ** A run whose analysis failed *)

Lemma callGeminiGenerator_resolves_to (P : Platform) (apiKey : string)
    (r : GenerateContentResponse) (d : string) :
  Js.truthy apiKey = true ->
  (forall n parts size ratio,
      service P n apiKey (generation_request_of parts size ratio) = inr r) ->
  inline_image_of r = Some d ->
  forall parts size sink ratio,
    resolves_to (callGeminiGenerator P parts apiKey size sink ratio)
      ("data:image/png;base64," ++ d).
Proof.
  intros Hkey Hservice Hd parts size sink ratio w.
  destruct (generation_adapter_cases P parts apiKey size sink ratio w r Hkey
              (Hservice _ _ _ _)) as (_ & H & _).
  now rewrite (H d Hd).
Qed.

Lemma run_all_resolved {A} (units : list (M A)) (vs : list A) :
  Forall2 (fun u v => resolves_to u v) units vs ->
  forall w, fst (run_all units w) = map Resolved vs.
Proof.
  induction 1 as [|u v units vs Hu _ IH]; intros w; cbn [run_all];
    [reflexivity|].
  specialize (Hu w). destruct (u w) as [o w1]. simpl in Hu. subst o.
  specialize (IH w1). destruct (run_all units w1) as [os w2]. simpl in *.
  now rewrite IH.
Qed.

Lemma settle_all_map_resolved {A} (first : nat) (vs : list A) :
  settle_all first (map Resolved vs) = Resolved vs.
Proof.
  unfold settle_all.
  assert (H1 : any_diverged (map (@Resolved A) vs) = false)
    by (induction vs; auto).
  assert (H2 : all_resolved (map (@Resolved A) vs) = Some vs).
  { induction vs as [|v vs IH]; [reflexivity|]. cbn [map all_resolved].
    now rewrite IH. }
  now rewrite H1, H2.
Qed.

(** A batch whose units all resolve, resolves with their values in the
    order of the units. *)
Lemma Promise_all_resolves_to {A} (P : Platform) (units : list (M A))
    (vs : list A) :
  Forall2 (fun u v => resolves_to u v) units vs ->
  resolves_to (Promise_all P units) vs.
Proof.
  intros H w. unfold Promise_all.
  pose proof (run_all_resolved units vs H w) as Hrun.
  destruct (run_all units w) as [os w']. simpl in *. subst os.
  apply settle_all_map_resolved.
Qed.

Lemma Forall2_mapi_from_map {A B C} (R : B -> C -> Prop) (f : A -> nat -> B)
    (g : A -> C) (xs : list A) :
  (forall x i, In x xs -> R (f x i) (g x)) ->
  forall i, Forall2 R (mapi_from i f xs) (map g xs).
Proof.
  induction xs as [|x xs IH]; intros H i; simpl; constructor.
  - apply H. now left.
  - apply IH. intros y k Hy. apply H. now right.
Qed.

Lemma viewpoint_parts_resolves (images : list SourceImage) :
  Forall readable images -> resolves (viewpoint_parts images).
Proof.
  intros H.
  pose proof (viewpoint_parts_resolves_or_rejects images (fun _ => False)
                (or_intror H)) as Hr.
  intros w. specialize (Hr w).
  destruct (fst (viewpoint_parts images w)); [eauto|contradiction|contradiction].
Qed.

Lemma build_contextParts_resolves (images : list SourceImage) (sink : bool)
    (reference : option string) :
  Forall readable images -> resolves (build_contextParts images sink reference).
Proof.
  intros H.
  pose proof (build_contextParts_resolves_or_rejects images sink reference
                (fun _ => False) (or_intror H)) as Hr.
  intros w. specialize (Hr w).
  destruct (fst (build_contextParts images sink reference w));
    [eauto|contradiction|contradiction].
Qed.

Lemma fileToGenerativePart_resolves (f : File) :
  readAsDataURL f <> None -> resolves (fileToGenerativePart f).
Proof.
  intros H. apply post_fileToGenerativePart; [congruence|eauto].
Qed.

(** When the analysis of every source image fails and every generation
    request is answered with an image, the run resolves: one result per
    unit, named after the generic stem. *)
Lemma run_with_failed_analysis (P : Platform) (j : Job)
    (r : GenerateContentResponse) (d : string) :
  Js.truthy (jobKey j) = true ->
  jobImages j <> [] ->
  Forall readable (jobImages j) ->
  (forall img, In img (jobImages j) ->
               analysis_always_fails P (file img) (jobKey j)) ->
  (forall n parts size ratio,
      service P n (jobKey j) (generation_request_of parts size ratio) = inr r) ->
  inline_image_of r = Some d ->
  resolves_to (run P j) (degraded_results j d).
Proof.
  intros Hkey Hne Hread Hfail Hservice Hd.
  pose proof (callGeminiGenerator_resolves_to P (jobKey j) r d Hkey Hservice Hd)
    as Hcall.
  unfold run, processImagesWithGemini, degraded_results.
  destruct (find_preset (jobPreset j)) as [preset ->].
  destruct (PresetType_eqb (jobPreset j) GHOST_MANNEQUIN) eqn:Hghost.
  - assert (Hp : jobPreset j = GHOST_MANNEQUIN)
      by (destruct (jobPreset j); (reflexivity || discriminate)).
    rewrite Hp. apply Promise_all_resolves_to. apply Forall2_mapi_from_map.
    intros img idx Hin. unfold ghost_unit. skip_event.
    apply (resolves_to_bind _ _ degraded_analysis);
      [apply analyzeProductFeatures_degraded; auto|].
    skip_event.
    apply resolves_bind.
    { apply fileToGenerativePart_resolves.
      rewrite Forall_forall in Hread. exact (Hread img Hin). }
    intros p.
    eapply resolves_to_bind; [apply Hcall|]. now apply post_ret.
  - skip_event.
    destruct (primaryImg_of (jobImages j)) as [primary|] eqn:Hprimary.
    2:{ destruct (primaryImg_of_nonempty _ Hne) as [p Hp]. congruence. }
    assert (Hin : In primary (jobImages j)).
    { unfold primaryImg_of in Hprimary.
      destruct (find _ (jobImages j)) eqn:Hfind.
      - injection Hprimary as <-. now apply find_some in Hfind.
      - now apply nth_error_In in Hprimary. }
    apply (resolves_to_bind _ _ (file primary)); [now apply post_ret|].
    apply (resolves_to_bind _ _ degraded_analysis);
      [apply analyzeProductFeatures_degraded; auto|].
    apply resolves_bind; [now apply build_contextParts_resolves|].
    intros contextParts.
    destruct (PresetType_eqb (jobPreset j) ANGLES) eqn:Hangles.
    + assert (Hp : jobPreset j = ANGLES)
        by (destruct (jobPreset j); (reflexivity || discriminate)).
      rewrite Hp. apply Promise_all_resolves_to. apply Forall2_mapi_from_map.
      intros angle idx _. unfold angle_unit. skip_event.
      eapply resolves_to_bind; [apply Hcall|]. now apply post_ret.
    + skip_event.
      eapply resolves_to_bind; [apply Hcall|].
      destruct (jobPreset j); try discriminate; now apply post_ret.
Qed.

(** C9. The analysis adapter always resolves: it never rejects (and never
    hangs).  When the retried analysis call fails, whatever the error, the
    adapter resolves with the empty description and the generic stem
    [processed-product], after logging the failure.  In particular this is
    the result when every attempt fails, because the file cannot be read,
    the service keeps answering with an error, or its answer is not valid
    JSON.  Hence a failed analysis does not fail a batch: when the analysis
    of every source image fails and the generation calls succeed, the run
    resolves, with one result per unit, named after the generic stem. *)
Theorem analysis_degrades_gracefully :
  forall (P : Platform) (f : File) (apiKey : string) (sink : bool),
    resolves (analyzeProductFeatures P f apiKey sink)
    /\ (forall w e w1,
          Js.truthy apiKey = true ->
          runWithRetry (analysis_attempt P f apiKey) sink default_retries
            (snd (status_update sink "Analyzing product identity..." w))
          = (Rejected e, w1) ->
          analyzeProductFeatures P f apiKey sink w
          = (Resolved degraded_analysis,
             record_events [EvError "Analysis completely failed:"] w1))
    /\ (Js.truthy apiKey = true ->
        analysis_always_fails P f apiKey ->
        resolves_to (analyzeProductFeatures P f apiKey sink) degraded_analysis)
    /\ (forall (j : Job) (r : GenerateContentResponse) (d : string),
          jobKey j = apiKey ->
          Js.truthy apiKey = true ->
          jobImages j <> [] ->
          Forall readable (jobImages j) ->
          (forall img, In img (jobImages j) ->
                       analysis_always_fails P (file img) apiKey) ->
          (forall n parts size ratio,
              service P n apiKey (generation_request_of parts size ratio) = inr r) ->
          inline_image_of r = Some d ->
          resolves_to (run P j) (degraded_results j d)).
Proof.
  intros P f apiKey sink. split; [apply analyzeProductFeatures_resolves|].
  split; [|split].
  - intros w e w1 Hkey Hrun. unfold analyzeProductFeatures. rewrite Hkey.
    cbn [negb]. unfold bind at 1. rewrite status_update_run in *.
    cbn [snd] in Hrun. unfold try_catch. rewrite Hrun. reflexivity.
  - apply analyzeProductFeatures_degraded.
  - intros j r d <- Hkey Hne Hread Hfail Hservice Hd.
    now apply (run_with_failed_analysis P j r d).
Qed.

Lemma analysis_degrades_witness :
  analyzeProductFeatures overloaded_platform (png_file "AAAA") "key" true
    initial_world
  = (Resolved degraded_analysis,
     record_events [EvError "Analysis completely failed:"]
       (snd (runWithRetry (analysis_attempt overloaded_platform (png_file "AAAA") "key")
               true default_retries
               (snd (status_update true "Analyzing product identity..."
                       initial_world)))))
  /\ fst (analyzeProductFeatures overloaded_platform
            {| readAsDataURL := None; type := "image/png" |}
            "key" false initial_world)
     = Resolved degraded_analysis
  /\ fst (run blind_platform
            (example_job ANGLES [shoe_image] (Some ["Side View"]) "1:1")
            initial_world)
     = Resolved [{| url := "data:image/png;base64,AAAA";
                    filename := "processed-product-side" |}].
Proof.
  destruct (analysis_degrades_gracefully overloaded_platform (png_file "AAAA")
              "key" true) as (_ & H & _).
  destruct (analysis_degrades_gracefully overloaded_platform
              {| readAsDataURL := None; type := "image/png" |} "key" false)
    as (_ & _ & H' & _).
  destruct (analysis_degrades_gracefully blind_platform (png_file "SHOE")
              "key" true) as (_ & _ & _ & Hrun).
  split; [|split].
  - apply (H initial_world rate_limit_error); [reflexivity|].
    vm_compute. reflexivity.
  - apply H'; [reflexivity|exact I].
  - apply (Hrun (example_job ANGLES [shoe_image] (Some ["Side View"]) "1:1")
             (image_response "AAAA") "AAAA"); try reflexivity.
    + discriminate.
    + repeat constructor; discriminate.
    + intros img [<-|[]]. intros n. exact I.
Defined.

(* ================================================================= *)
(** * Further properties of the service *)
(* ================================================================= *)

(** ** The retry controller, for any operation *)






(** ** The generation adapter recovers *)

Lemma generation_attempt_error (P : Platform) (parts : list Part)
    (apiKey : string) (size : ImageSize) (ratio : string) (w : World)
    (e : JsError) :
  service P (calls w) apiKey (generation_request_of parts size ratio) = inl e ->
  generation_attempt P parts apiKey size ratio (record_events [EvInvoke] w)
  = (Rejected e,
     after_one_request apiKey (generation_request_of parts size ratio) w).
Proof.
  intros Hs. unfold generation_attempt, bind, generateContent.
  cbn [calls record_events]. rewrite Hs. cbn [of_sum throw].
  unfold after_one_request, record_events; cbn [trace calls].
  now rewrite <- app_assoc.
Qed.

Lemma count_backoff (sink : bool) (attempt retries : nat) :
  count is_delay
    (EvWarn ("Gemini API Busy. " ++ retry_message attempt retries)
     :: backoff_events sink attempt retries) = 1
  /\ count is_remote
       (EvWarn ("Gemini API Busy. " ++ retry_message attempt retries)
        :: backoff_events sink attempt retries) = 0.
Proof. unfold backoff_events. destruct sink; split; reflexivity. Qed.

Lemma generation_recovers_loop (P : Platform) (parts : list Part)
    (apiKey : string) (size : ImageSize) (sink : bool) (ratio : string)
    (retries : nat) (r : GenerateContentResponse) (d : string) :
  inline_image_of r = Some d ->
  forall k n attempt w,
    attempt + k <= retries ->
    k <= n ->
    recovers_after P apiKey (generation_request_of parts size ratio)
      (calls w) k r ->
    exists w' delta,
      runWithRetry_loop (S n) (generation_attempt P parts apiKey size ratio)
        sink retries attempt w
      = (Resolved ("data:image/png;base64," ++ d), w')
      /\ calls w' = calls w + S k
      /\ trace w' = (trace w ++ delta)%list
      /\ count is_delay delta = k
      /\ count is_remote delta = S k.
Proof.
  intros Hd. induction k as [|k IH]; intros n attempt w Hle Hn [Herr Hok];
    rewrite runWithRetry_loop_step.
  - rewrite Nat.add_0_r in Hok.
    rewrite (generation_attempt_run P parts apiKey size ratio w r Hok).
    assert (Hx : fst (extract_image r initial_world)
                 = Resolved ("data:image/png;base64," ++ d)).
    { unfold extract_image, inline_image_of in *.
      destruct (candidates r) as [|c cs]; [discriminate|]. now rewrite Hd. }
    rewrite Hx. eexists. eexists. split; [reflexivity|].
    cbn [after_one_request calls trace]. repeat split. lia.
  - destruct (Herr 0) as (e & He & Hcls); [lia|].
    rewrite Nat.add_0_r in He.
    rewrite (generation_attempt_error P parts apiKey size ratio w e He).
    assert (Hlt : (retries <? S attempt)%nat = false)
      by (apply Nat.ltb_ge; lia).
    rewrite Hlt, (listed_transient_retried e Hcls).
    destruct n as [|n]; [lia|].
    destruct (IH n (S attempt)
                (after_backoff sink (S attempt) retries
                   (after_one_request apiKey
                      (generation_request_of parts size ratio) w)))
      as (w' & delta & Hrun & Hcalls & Htrace & Hdel & Hrem); [lia|lia| |].
    { cbn [after_backoff record_events after_one_request calls]. split.
      - intros i Hi. destruct (Herr (S i)) as (e' & He' & Hc'); [lia|].
        exists e'. split; [|exact Hc'].
        now rewrite Nat.add_succ_l, <- Nat.add_succ_r.
      - now rewrite Nat.add_succ_l, <- Nat.add_succ_r. }
    exists w'. eexists. split; [exact Hrun|].
    cbn [after_backoff record_events after_one_request calls trace] in *.
    split; [lia|]. split.
    + rewrite Htrace, <- !app_assoc. reflexivity.
    + destruct (count_backoff sink (S attempt) retries) as [Hb1 Hb2].
      change (EvInvoke :: ?l)%list with ([EvInvoke] ++ l)%list.
      rewrite !count_app. cbn [app].
      change (EvRemote apiKey ?q :: ?l)%list
        with ([EvRemote apiKey q] ++ l)%list.
      rewrite !count_app, Hb1, Hb2, Hdel, Hrem. split; reflexivity.
Qed.

(** X2. When the service answers the request of a generation call [k]
    times with a transient error (status 429 or 503, or a message naming
    429, 503 or the quota) and then with an image, [k] being at most 10, the
    generation adapter resolves with that image, after exactly [k] waits and
    [k + 1] requests. *)
Theorem generation_adapter_recovers :
  forall (P : Platform) (parts : list Part) (apiKey : string)
         (size : ImageSize) (sink : bool) (ratio : string) (w : World)
         (k : nat) (r : GenerateContentResponse) (d : string),
    Js.truthy apiKey = true ->
    k <= default_retries ->
    recovers_after P apiKey (generation_request_of parts size ratio)
      (calls w) k r ->
    inline_image_of r = Some d ->
    let run := callGeminiGenerator P parts apiKey size sink ratio w in
    fst run = Resolved ("data:image/png;base64," ++ d)
    /\ calls (snd run) = calls w + S k
    /\ count is_delay (new_events w (snd run)) = k
    /\ count is_remote (new_events w (snd run)) = S k.
Proof.
  intros P parts apiKey size sink ratio w k r d Hkey Hk Hrec Hd run.
  subst run. unfold callGeminiGenerator. rewrite Hkey. cbn [negb].
  destruct (generation_recovers_loop P parts apiKey size sink ratio
              default_retries r d Hd k default_retries 0 w)
    as (w' & delta & Hrun & Hcalls & Htrace & Hdel & Hrem);
    [exact Hk|exact Hk|exact Hrec|].
  unfold runWithRetry. rewrite Hrun. cbn [fst snd].
  rewrite (new_events_app _ _ _ Htrace). now repeat split.
Qed.

Lemma generation_adapter_recovers_witness :
  let run := callGeminiGenerator recovering_platform [] "key" Size1K true "1:1"
               initial_world in
  fst run = Resolved "data:image/png;base64,AAAA"
  /\ calls (snd run) = 4
  /\ count is_delay (new_events initial_world (snd run)) = 3
  /\ count is_remote (new_events initial_world (snd run)) = 4.
Proof.
  apply (generation_adapter_recovers recovering_platform [] "key" Size1K true
           "1:1" initial_world 3 (image_response "AAAA") "AAAA").
  - reflexivity.
  - unfold default_retries. lia.
  - split; [|reflexivity].
    intros i Hi. exists rate_limit_error. split; [|reflexivity].
    cbn. destruct i as [|[|[|i]]]; try reflexivity. lia.
  - reflexivity.
Defined.

(** ** Counting requests and waits *)

Lemma adds_at_most_weaken {A} (p : Event -> bool) (n m : nat) (c : M A) :
  n <= m -> adds_at_most p n c -> adds_at_most p m c.
Proof.
  intros Hle Hc w. destruct (Hc w) as (delta & Ht & Hn).
  exists delta. split; [exact Ht|lia].
Qed.

Lemma adds_nothing {A} (p : Event -> bool) (c : M A) :
  (forall w, snd (c w) = w) -> adds_at_most p 0 c.
Proof.
  intros H w. exists []. rewrite H, app_nil_r. split; [reflexivity|].
  unfold count. simpl. lia.
Qed.

Lemma adds_emit (p : Event -> bool) (ev : Event) :
  p ev = false -> adds_at_most p 0 (emit ev).
Proof.
  intros H w. exists [ev]. split; [reflexivity|].
  unfold count. cbn [filter]. rewrite H. simpl. lia.
Qed.

Lemma adds_status_update (p : Event -> bool) (sink : bool) (msg : string) :
  (forall m, p (EvStatus m) = false) ->
  adds_at_most p 0 (status_update sink msg).
Proof.
  intros H. destruct sink; [now apply adds_emit|now apply adds_nothing].
Qed.

Lemma adds_bind {A B} (p : Event -> bool) (n m : nat) (c : M A)
    (k : A -> M B) :
  adds_at_most p n c -> (forall a, adds_at_most p m (k a)) ->
  adds_at_most p (n + m) (bind c k).
Proof.
  intros Hc Hk w. unfold bind. destruct (Hc w) as (d1 & Ht1 & Hn1).
  destruct (c w) as [[a|e|] w']; cbn [snd] in *.
  - destruct (Hk a w') as (d2 & Ht2 & Hn2).
    exists (d1 ++ d2)%list. split.
    + now rewrite Ht2, Ht1, app_assoc.
    + rewrite count_app. lia.
  - exists d1. split; [exact Ht1|lia].
  - exists d1. split; [exact Ht1|lia].
Qed.

Lemma adds_try_catch {A} (p : Event -> bool) (n m : nat) (c : M A)
    (h : JsError -> M A) :
  adds_at_most p n c -> (forall e, adds_at_most p m (h e)) ->
  adds_at_most p (n + m) (try_catch c h).
Proof.
  intros Hc Hh w. unfold try_catch. destruct (Hc w) as (d1 & Ht1 & Hn1).
  destruct (c w) as [[a|e|] w']; cbn [snd] in *.
  - exists d1. split; [exact Ht1|lia].
  - destruct (Hh e w') as (d2 & Ht2 & Hn2).
    exists (d1 ++ d2)%list. split.
    + now rewrite Ht2, Ht1, app_assoc.
    + rewrite count_app. lia.
  - exists d1. split; [exact Ht1|lia].
Qed.

Lemma adds_generateContent (p : Event -> bool) (r : nat) (P : Platform)
    (apiKey : string) (req : GenerateContentParameters) :
  (forall k q, count p [EvRemote k q] <= r) ->
  adds_at_most p r (generateContent P apiKey req).
Proof.
  intros Hr w. exists [EvRemote apiKey req]. unfold generateContent.
  destruct (service P (calls w) apiKey req); cbn [of_sum throw ret snd trace];
    (split; [reflexivity|apply Hr]).
Qed.

(** The controller around an operation that adds at most [a] events of a
    kind foreign to it: at most [a] for each invocation and one wait for
    each backoff when the kind is that of the waits. *)
Lemma adds_runWithRetry_loop {T} (p : Event -> bool) (a d : nat) (fn : M T)
    (sink : bool) (retries : nat) :
  foreign_to_controller p ->
  (forall ms, count p [EvDelay ms] <= d) ->
  adds_at_most p a fn ->
  forall fuel attempt,
    adds_at_most p (a + (retries - attempt) * (a + d))
      (runWithRetry_loop fuel fn sink retries attempt).
Proof.
  intros (Hinv & Hwarn & Hstat) Hdel Hfn.
  induction fuel as [|fuel IH]; intros attempt w.
  - exists []. cbn. rewrite app_nil_r. split; [reflexivity|].
    apply Nat.le_0_l.
  - rewrite runWithRetry_loop_step.
    destruct (Hfn (record_events [EvInvoke] w)) as (d1 & Ht1 & Hn1).
    cbn [record_events trace] in Ht1.
    assert (Hfirst : trace (snd (fn (record_events [EvInvoke] w)))
                     = (trace w ++ EvInvoke :: d1)%list
                     /\ count p (EvInvoke :: d1) <= a).
    { split; [now rewrite Ht1, <- app_assoc|].
      unfold count in *. cbn [filter]. now rewrite Hinv. }
    clear Ht1 Hn1. destruct Hfirst as [Ht1 Hn1].
    destruct (fn (record_events [EvInvoke] w)) as [[v|e|] w'];
      cbn [snd] in Ht1; try (eexists; split; [exact Ht1|exact (Nat.le_trans _ _ _ Hn1 (Nat.le_add_r _ _))]).
    destruct (retries <? S attempt)%nat eqn:Hlt;
      [eexists; split; [exact Ht1|exact (Nat.le_trans _ _ _ Hn1 (Nat.le_add_r _ _))]|].
    destruct (isRateLimit e || isServerOverload e);
      [|eexists; split; [exact Ht1|exact (Nat.le_trans _ _ _ Hn1 (Nat.le_add_r _ _))]].
    apply Nat.ltb_ge in Hlt.
    destruct (IH (S attempt) (after_backoff sink (S attempt) retries w'))
      as (d2 & Ht2 & Hn2).
    cbn [after_backoff record_events trace] in Ht2.
    eexists. split.
    + rewrite Ht2, Ht1, <- !app_assoc. reflexivity.
    + assert (Hb : count p
                     (EvWarn ("Gemini API Busy. " ++ retry_message (S attempt) retries)
                      :: backoff_events sink (S attempt) retries) <= d).
      { unfold backoff_events, count. cbn [filter]. rewrite Hwarn.
        specialize (Hdel 10000%Z). unfold count in Hdel. cbn [filter] in Hdel.
        destruct sink; cbn [app filter]; rewrite ?Hstat;
          destruct (p (EvDelay 10000)); simpl in *; lia. }
      change (EvInvoke :: d1 ++ ?l)%list with ((EvInvoke :: d1) ++ l)%list.
      rewrite !count_app.
      replace (retries - attempt) with (S (retries - S attempt)) by lia.
      nia.
Qed.

Lemma adds_runWithRetry {T} (p : Event -> bool) (a d : nat) (fn : M T)
    (sink : bool) (retries : nat) :
  foreign_to_controller p ->
  (forall ms, count p [EvDelay ms] <= d) ->
  adds_at_most p a fn ->
  adds_at_most p (a + retries * (a + d)) (runWithRetry fn sink retries).
Proof.
  intros Hp Hd Hfn.
  pose proof (adds_runWithRetry_loop p a d fn sink retries Hp Hd Hfn
                (S retries) 0) as H.
  now rewrite Nat.sub_0_r in H.
Qed.

Lemma adds_run_all {A} (p : Event -> bool) (a : nat) (units : list (M A)) :
  Forall (adds_at_most p a) units ->
  forall w, exists delta,
    trace (snd (run_all units w)) = (trace w ++ delta)%list
    /\ count p delta <= List.length units * a.
Proof.
  induction 1 as [|u units Hu _ IH]; intros w.
  - exists []. simpl. rewrite app_nil_r. split; [reflexivity|].
    unfold count. simpl. lia.
  - cbn [run_all]. destruct (Hu w) as (d1 & Ht1 & Hn1).
    destruct (u w) as [o w1]. cbn [snd] in Ht1.
    destruct (IH w1) as (d2 & Ht2 & Hn2).
    destruct (run_all units w1) as [os w2]. cbn [snd] in *.
    exists (d1 ++ d2)%list. split.
    + now rewrite Ht2, Ht1, app_assoc.
    + rewrite count_app. cbn [List.length]. lia.
Qed.

Lemma adds_Promise_all {A} (p : Event -> bool) (a : nat) (P : Platform)
    (units : list (M A)) :
  Forall (adds_at_most p a) units ->
  adds_at_most p (List.length units * a) (Promise_all P units).
Proof.
  intros H w. destruct (adds_run_all p a units H w) as (delta & Ht & Hn).
  exists delta. unfold Promise_all.
  destruct (run_all units w) as [os w']. now split.
Qed.

Lemma length_mapi_from {A B} (f : A -> nat -> B) (xs : list A) (i : nat) :
  List.length (mapi_from i f xs) = List.length xs.
Proof. revert i. induction xs; intros i; simpl; auto. Qed.

Section Budget.

Variable p : Event -> bool.
Variable b : nat.
Variable P : Platform.

Hypothesis p_status : forall m, p (EvStatus m) = false.

Hypothesis analysis_budget :
  forall f apiKey sink, adds_at_most p b (analyzeProductFeatures P f apiKey sink).

Hypothesis generation_budget :
  forall parts apiKey size sink ratio,
    adds_at_most p b (callGeminiGenerator P parts apiKey size sink ratio).

Lemma adds_fileToGenerativePart (f : File) :
  adds_at_most p 0 (fileToGenerativePart f).
Proof.
  apply adds_nothing. intros w. unfold fileToGenerativePart.
  now destruct (readAsDataURL f).
Qed.

Lemma adds_viewpoint_parts (images : list SourceImage) :
  adds_at_most p 0 (viewpoint_parts images).
Proof.
  induction images as [|img rest IH]; cbn [viewpoint_parts].
  - now apply adds_nothing.
  - apply (adds_bind p 0 0); [apply adds_fileToGenerativePart|intros part].
    apply (adds_bind p 0 0); [exact IH|intros ps]. now apply adds_nothing.
Qed.

Lemma adds_build_contextParts (images : list SourceImage) (sink : bool)
    (reference : option string) :
  adds_at_most p 0 (build_contextParts images sink reference).
Proof.
  unfold build_contextParts. apply (adds_bind p 0 0).
  - destruct reference; [|now apply adds_nothing].
    apply (adds_bind p 0 0); [now apply adds_status_update|intros _].
    now apply adds_nothing.
  - intros styleParts. apply (adds_bind p 0 0);
      [apply adds_viewpoint_parts|intros views]. now apply adds_nothing.
Qed.

(** A run adds at most what its analyses and its generation calls add. *)
Lemma adds_run (j : Job) : adds_at_most p (adapter_calls j * b) (run P j).
Proof.
  unfold run, processImagesWithGemini, adapter_calls.
  destruct (find_preset (jobPreset j)) as [preset ->].
  destruct (PresetType_eqb (jobPreset j) GHOST_MANNEQUIN) eqn:Hghost.
  - assert (Hp : jobPreset j = GHOST_MANNEQUIN)
      by (destruct (jobPreset j); (reflexivity || discriminate)).
    rewrite Hp.
    eapply adds_at_most_weaken; [|apply (adds_Promise_all p (b + b))].
    + unfold mapi. rewrite length_mapi_from. lia.
    + apply Forall_mapi_from. intros img idx _. unfold ghost_unit.
      apply (adds_bind p 0 (b + b)); [now apply adds_status_update|intros _].
      apply (adds_bind p b b); [apply analysis_budget|intros a].
      apply (adds_bind p 0 b); [now apply adds_status_update|intros _].
      apply (adds_bind p 0 b); [apply adds_fileToGenerativePart|intros part].
      apply (adds_at_most_weaken p (b + 0)); [lia|].
      apply (adds_bind p b 0); [apply generation_budget|intros url].
      now apply adds_nothing.
  - assert (Hrest :
      adds_at_most p
        (b + match jobPreset j with
             | ANGLES => List.length (anglesToGenerate_of (jobAngles j)) * b
             | _ => b
             end)
        (bind (status_update (jobSink j) "Analyzing primary product features...")
           (fun _ =>
              bind match primaryImg_of (jobImages j) with
                   | Some i => ret (file i)
                   | None => throw (typeError "Cannot read properties of undefined (reading 'file')")
                   end
                (fun primaryFile =>
                   bind (analyzeProductFeatures P primaryFile (jobKey j) (jobSink j))
                     (fun a =>
                        bind (build_contextParts (jobImages j) (jobSink j)
                                (reference_to_use (jobReference j) (jobPreset j)))
                          (fun contextParts =>
                             if PresetType_eqb (jobPreset j) ANGLES
                             then Promise_all P
                                    (mapi (angle_unit P contextParts (jobPrompt j)
                                             (jobKey j) (jobQuality j) (jobSink j)
                                             (selectedBodyType_of (jobBodyType j)) a)
                                          (anglesToGenerate_of (jobAngles j)))
                             else
                               bind (status_update (jobSink j)
                                       "Generating final high-quality asset...")
                                 (fun _ =>
                                    bind (callGeminiGenerator P
                                            (contextParts
                                             ++ [TextPart ("TASK: " ++ finalPromptWithAnalysis_of
                                                             (jobPreset j) (jobPrompt j)
                                                             (selectedBodyType_of (jobBodyType j))
                                                             (jobEnvironment j) (jobContext j)
                                                             (description a))])%list
                                            (jobKey j) (jobQuality j) (jobSink j) (jobRatio j))
                                      (fun resultUrl =>
                                         ret [{| url := resultUrl;
                                                 filename := analysisFilename a |}])))))))).
    { set (rest := match jobPreset j with
                   | ANGLES => List.length (anglesToGenerate_of (jobAngles j)) * b
                   | _ => b
                   end).
      apply (adds_bind p 0 (b + rest)); [now apply adds_status_update|intros _].
      apply (adds_bind p 0 (b + rest)).
      { destruct (primaryImg_of (jobImages j)); now apply adds_nothing. }
      intros primaryFile.
      apply (adds_bind p b rest); [apply analysis_budget|intros a].
      apply (adds_bind p 0 rest); [apply adds_build_contextParts|].
      intros contextParts. subst rest.
      destruct (PresetType_eqb (jobPreset j) ANGLES) eqn:Hangles.
      - assert (Hp : jobPreset j = ANGLES)
          by (destruct (jobPreset j); (reflexivity || discriminate)).
        rewrite Hp.
        eapply adds_at_most_weaken; [|apply (adds_Promise_all p b)].
        + unfold mapi. rewrite length_mapi_from. lia.
        + apply Forall_mapi_from. intros angle idx _. unfold angle_unit.
          apply (adds_bind p 0 b); [now apply adds_status_update|intros _].
          apply (adds_at_most_weaken p (b + 0)); [lia|].
          apply (adds_bind p b 0); [apply generation_budget|intros url].
          now apply adds_nothing.
      - apply (adds_at_most_weaken p (0 + (b + 0))).
        { destruct (jobPreset j); try discriminate; lia. }
        apply (adds_bind p 0 (b + 0)); [now apply adds_status_update|intros _].
        apply (adds_bind p b 0); [apply generation_budget|intros url].
        now apply adds_nothing. }
    eapply adds_at_most_weaken; [|exact Hrest].
    destruct (jobPreset j); try discriminate; lia.
Qed.

End Budget.

Lemma adds_analysis_attempt (p : Event -> bool) (r : nat) (P : Platform)
    (f : File) (apiKey : string) :
  (forall m, p (EvWarn m) = false) ->
  (forall k q, count p [EvRemote k q] <= r) ->
  adds_at_most p r (analysis_attempt P f apiKey).
Proof.
  intros Hwarn Hr. unfold analysis_attempt.
  apply (adds_at_most_weaken p (r + 0)); [lia|].
  apply (adds_try_catch p r 0).
  - apply (adds_at_most_weaken p (0 + (r + 0))); [lia|].
    apply (adds_bind p 0 (r + 0)); [apply adds_nothing|intros part].
    { intros w. unfold fileToGenerativePart. now destruct (readAsDataURL f). }
    apply (adds_bind p r 0); [now apply adds_generateContent|intros rsp].
    apply adds_nothing. intros w. unfold bind.
    destruct (JSON_parse P (analysis_text rsp)) as [e|json]; [reflexivity|].
    cbn [of_sum ret]. unfold property_or.
    destruct json; try reflexivity.
    destruct (lookup_field "description" fields);
      destruct (lookup_field "filename" fields); reflexivity.
  - intros e. apply (adds_bind p 0 0); [now apply adds_emit|intros _].
    now apply adds_nothing.
Qed.

Lemma adds_generation_attempt (p : Event -> bool) (r : nat) (P : Platform)
    (parts : list Part) (apiKey : string) (size : ImageSize) (ratio : string) :
  (forall k q, count p [EvRemote k q] <= r) ->
  adds_at_most p r (generation_attempt P parts apiKey size ratio).
Proof.
  intros Hr. unfold generation_attempt.
  apply (adds_at_most_weaken p (r + 0)); [lia|].
  apply (adds_bind p r 0); [now apply adds_generateContent|intros rsp].
  apply adds_nothing. intros w. unfold extract_image.
  destruct (candidates rsp) as [|c cs]; [reflexivity|].
  destruct (match content c with
            | Some responseParts => first_inline_data responseParts
            | None => None
            end); [reflexivity|].
  destruct (Js.truthy _); reflexivity.
Qed.

Lemma foreign_is_remote : foreign_to_controller is_remote.
Proof. repeat split. Qed.

Lemma foreign_is_delay : foreign_to_controller is_delay.
Proof. repeat split. Qed.

Lemma adds_analyzeProductFeatures (p : Event -> bool) (a d : nat)
    (P : Platform) (f : File) (apiKey : string) (sink : bool) :
  foreign_to_controller p ->
  (forall m, p (EvError m) = false) ->
  (forall ms, count p [EvDelay ms] <= d) ->
  (forall k q, count p [EvRemote k q] <= a) ->
  adds_at_most p (a + default_retries * (a + d))
    (analyzeProductFeatures P f apiKey sink).
Proof.
  intros Hp Herr Hd Ha. pose proof Hp as (_ & Hwarn & Hstat).
  unfold analyzeProductFeatures.
  destruct (negb (Js.truthy apiKey)).
  - eapply adds_at_most_weaken; [|now apply adds_nothing]. apply Nat.le_0_l.
  - apply (adds_bind p 0 _); [now apply adds_status_update|intros _].
    apply (adds_at_most_weaken p (a + default_retries * (a + d) + 0));
      [now rewrite Nat.add_0_r|].
    apply adds_try_catch.
    + apply adds_runWithRetry; try assumption.
      now apply adds_analysis_attempt.
    + intros e. apply (adds_bind p 0 0); [now apply adds_emit|intros _].
      now apply adds_nothing.
Qed.

Lemma adds_callGeminiGenerator (p : Event -> bool) (a d : nat)
    (P : Platform) (parts : list Part) (apiKey : string) (size : ImageSize)
    (sink : bool) (ratio : string) :
  foreign_to_controller p ->
  (forall ms, count p [EvDelay ms] <= d) ->
  (forall k q, count p [EvRemote k q] <= a) ->
  adds_at_most p (a + default_retries * (a + d))
    (callGeminiGenerator P parts apiKey size sink ratio).
Proof.
  intros Hp Hd Ha. unfold callGeminiGenerator.
  destruct (negb (Js.truthy apiKey)).
  - eapply adds_at_most_weaken; [|now apply adds_nothing]. apply Nat.le_0_l.
  - apply adds_runWithRetry; try assumption.
    now apply adds_generation_attempt.
Qed.

Lemma remote_budget (P : Platform) :
  (forall f apiKey sink,
      adds_at_most is_remote 11 (analyzeProductFeatures P f apiKey sink))
  /\ (forall parts apiKey size sink ratio,
        adds_at_most is_remote 11
          (callGeminiGenerator P parts apiKey size sink ratio)).
Proof.
  split; intros.
  - apply (adds_analyzeProductFeatures is_remote 1 0);
      [apply foreign_is_remote|reflexivity|intros; cbn; lia|intros; cbn; lia].
  - apply (adds_callGeminiGenerator is_remote 1 0);
      [apply foreign_is_remote|intros; cbn; lia|intros; cbn; lia].
Qed.

Lemma wait_budget (P : Platform) :
  (forall f apiKey sink,
      adds_at_most is_delay 10 (analyzeProductFeatures P f apiKey sink))
  /\ (forall parts apiKey size sink ratio,
        adds_at_most is_delay 10
          (callGeminiGenerator P parts apiKey size sink ratio)).
Proof.
  split; intros.
  - apply (adds_analyzeProductFeatures is_delay 0 1);
      [apply foreign_is_delay|reflexivity|intros; cbn; lia|intros; cbn; lia].
  - apply (adds_callGeminiGenerator is_delay 0 1);
      [apply foreign_is_delay|intros; cbn; lia|intros; cbn; lia].
Qed.

(** X3. Whatever the service answers, one call of the analysis adapter, of
    the generation adapter or of [upscaleImage] sends at most 11 remote
    requests and waits at most 10 times. *)
Theorem adapter_budget :
  forall (P : Platform) (apiKey : string) (sink : bool),
    (forall f,
        adds_at_most is_remote 11 (analyzeProductFeatures P f apiKey sink)
        /\ adds_at_most is_delay 10 (analyzeProductFeatures P f apiKey sink))
    /\ (forall parts size ratio,
          adds_at_most is_remote 11
            (callGeminiGenerator P parts apiKey size sink ratio)
          /\ adds_at_most is_delay 10
               (callGeminiGenerator P parts apiKey size sink ratio))
    /\ (forall base64Image resolution,
          adds_at_most is_remote 11
            (upscaleImage P base64Image resolution apiKey sink)
          /\ adds_at_most is_delay 10
               (upscaleImage P base64Image resolution apiKey sink)).
Proof.
  intros P apiKey sink.
  destruct (remote_budget P) as [Hra Hrg]. destruct (wait_budget P) as [Hwa Hwg].
  split; [|split].
  - intros f. split; [apply Hra|apply Hwa].
  - intros parts size ratio. split; [apply Hrg|apply Hwg].
  - intros base64Image resolution. unfold upscaleImage. split.
    + apply (adds_bind is_remote 0 11); [now apply adds_status_update|intros _].
      apply Hrg.
    + apply (adds_bind is_delay 0 10); [now apply adds_status_update|intros _].
      apply Hwg.
Qed.

(** X4. Whatever the service answers, a run sends at most 11 remote requests
    and waits at most 10 times for each analysis and each generation call it
    makes: twice the number of source images calls for the per-image
    strategy, one more than the number of angles for the per-angle strategy,
    two otherwise. *)
Theorem run_budget :
  forall (P : Platform) (j : Job),
    adds_at_most is_remote (adapter_calls j * 11) (run P j)
    /\ adds_at_most is_delay (adapter_calls j * 10) (run P j).
Proof.
  intros P j. destruct (remote_budget P) as [Hra Hrg].
  destruct (wait_budget P) as [Hwa Hwg]. split.
  - apply (adds_run is_remote 11 P); [reflexivity|exact Hra|exact Hrg].
  - apply (adds_run is_delay 10 P); [reflexivity|exact Hwa|exact Hwg].
Qed.

(** The budget is reached when the service stays overloaded. *)
Lemma run_budget_reached :
  let w := snd (run overloaded_platform
                  (example_job LIFESTYLE [shoe_image] None "1:1") initial_world) in
  count is_remote (trace w) = 22 /\ count is_delay (trace w) = 20.
Proof. vm_compute. split; reflexivity. Qed.

(** ** The exact requests of a run *)

Lemma image_part_readable (f : File) (s : string) :
  readAsDataURL f = Some s ->
  image_part f = InlinePart (base64_payload s) (type f).
Proof. intros H. unfold image_part. now rewrite H. Qed.

Lemma viewpoint_parts_resolved (images : list SourceImage) (w w' : World)
    (ps : list Part) :
  viewpoint_parts images w = (Resolved ps, w') ->
  ps = viewpoints images /\ Forall readable images.
Proof.
  revert w w' ps. induction images as [|img rest IH]; intros w w' ps;
    cbn [viewpoint_parts viewpoints].
  - intros [= <- _]. split; constructor.
  - intros H. apply bind_resolved in H as (p & w1 & Hp & H).
    apply bind_resolved in H as (ps' & w2 & Hps & H).
    injection H as <- _.
    destruct (fileToGenerativePart_resolved _ _ _ _ Hp) as (s & Hs & ->).
    destruct (IH _ _ _ Hps) as [-> Hread].
    rewrite (image_part_readable _ _ Hs). split; [reflexivity|].
    constructor; [unfold readable; congruence|exact Hread].
Qed.

Lemma build_contextParts_resolved (images : list SourceImage) (sink : bool)
    (reference : option string) (w w' : World) (ctx : list Part) :
  build_contextParts images sink reference w = (Resolved ctx, w') ->
  ctx = shared_context images reference /\ Forall readable images.
Proof.
  unfold build_contextParts. intros H.
  apply bind_resolved in H as (styleParts & w1 & Hstyle & H).
  apply bind_resolved in H as (views & w2 & Hviews & H).
  injection H as <- _.
  destruct (viewpoint_parts_resolved _ _ _ _ Hviews) as [-> Hread].
  split; [|exact Hread]. unfold shared_context, style_reference_block.
  destruct reference as [r|].
  - apply bind_resolved in Hstyle as (u & w3 & _ & Hret).
    injection Hret as <- _. reflexivity.
  - injection Hstyle as <- _. reflexivity.
Qed.

Lemma emits_at_bind_ret {A B} (I : Event -> Prop) (a : A) (k : A -> M B)
    (w : World) :
  emits_at I (k a) w -> emits_at I (bind (ret a) k) w.
Proof. intros H. exact H. Qed.

(** The events of a run satisfy any property that holds of status updates,
    of the events of the analysis of the files the job analyses and of the
    events of the generation adapter when called with the exact parts and
    ratio of the job. *)
Lemma run_emits_exact (P : Platform) (j : Job) (I : Event -> Prop) (w : World) :
  (forall m, I (EvStatus m)) ->
  (forall f, analysed_file j f ->
             emits I (analyzeProductFeatures P f (jobKey j) (jobSink j))) ->
  (forall parts ratio,
      exact_call P j (shared_description P j w) parts ratio ->
      emits I (callGeminiGenerator P parts (jobKey j) (jobQuality j)
                 (jobSink j) ratio)) ->
  emits_at I (run P j) w.
Proof.
  intros Hstatus Hanalyze Hcall.
  unfold run, processImagesWithGemini.
  destruct (find_preset (jobPreset j)) as [preset ->].
  destruct (PresetType_eqb (jobPreset j) GHOST_MANNEQUIN) eqn:Hghost.
  - assert (Hp : jobPreset j = GHOST_MANNEQUIN)
      by (destruct (jobPreset j); (reflexivity || discriminate)).
    apply emits_Promise_all. apply Forall_mapi_from.
    intros img idx Hin w0. unfold ghost_unit.
    apply emits_at_bind; [now apply emits_status_update|intros _ w1 _].
    apply emits_at_bind.
    { apply Hanalyze. unfold analysed_file. rewrite Hp. now exists img. }
    intros a w2 Ha.
    apply emits_at_bind; [now apply emits_status_update|intros _ w3 _].
    apply emits_at_bind; [apply emits_fileToGenerativePart|intros p w4 Hp4].
    destruct (fileToGenerativePart_resolved _ _ _ _ Hp4) as (s & Hs & ->).
    apply emits_at_bind; [|intros url w5 _; apply emits_ret].
    apply Hcall. unfold exact_call. rewrite Hp. split; [reflexivity|].
    exists img, (description a).
    split; [exact Hin|]. split; [unfold readable; congruence|]. split.
    + exists w1, w2, a. now split.
    + unfold ghost_inputs. rewrite (image_part_readable _ _ Hs).
      rewrite <- app_assoc. reflexivity.
  - apply emits_at_bind; [now apply emits_status_update|intros [] w1 Hw1].
    assert (Ew1 : w1 = snd (status_update (jobSink j)
                              "Analyzing primary product features..." w))
      by now rewrite Hw1.
    destruct (primaryImg_of (jobImages j)) as [primary|] eqn:Hprimary;
      [|apply emits_at_bind; [apply emits_throw|intros ? ? [=]]].
    apply emits_at_bind; [apply emits_ret|intros f w1' Hret].
    injection Hret as <- Hw. subst w1'.
    apply emits_at_bind.
    { apply Hanalyze. unfold analysed_file.
      destruct (jobPreset j); try discriminate; now exists primary. }
    intros a w2 Ha.
    assert (Hd : shared_description P j w = description a).
    { unfold shared_description. now rewrite Hprimary, <- Ew1, Ha. }
    apply emits_at_bind; [now apply emits_build_contextParts|].
    intros contextParts w3 Hctx.
    destruct (build_contextParts_resolved _ _ _ _ _ _ Hctx) as [-> Hread].
    destruct (PresetType_eqb (jobPreset j) ANGLES) eqn:Hangles.
    + assert (Hp : jobPreset j = ANGLES)
        by (destruct (jobPreset j); (reflexivity || discriminate)).
      apply emits_Promise_all. apply Forall_mapi_from.
      intros angle idx Hin w0. unfold angle_unit.
      apply emits_at_bind; [now apply emits_status_update|intros _ w4 _].
      apply emits_at_bind; [|intros url w5 _; apply emits_ret].
      apply Hcall. unfold exact_call. rewrite Hp, Hd.
      split; [reflexivity|]. split; [exact Hread|].
      exists angle. split; [exact Hin|]. reflexivity.
    + apply emits_at_bind; [now apply emits_status_update|intros _ w4 _].
      apply emits_at_bind; [|intros url w5 _; apply emits_ret].
      apply Hcall. unfold exact_call. rewrite Hd.
      destruct (jobPreset j); try discriminate;
        (split; [reflexivity|split; [exact Hread|reflexivity]]).
Qed.

(** The events of the analysis of a file: requests about that very file,
    which can then be read. *)
Lemma emits_analyzeProductFeatures_exact (P : Platform) (I : Event -> Prop)
    (f : File) (apiKey : string) (sink : bool) :
  controller_ok I -> (forall m, I (EvError m)) ->
  (readAsDataURL f <> None ->
   I (EvRemote apiKey (analysis_request (image_part f)))) ->
  emits I (analyzeProductFeatures P f apiKey sink).
Proof.
  intros Hctl Herr Hreq. pose proof Hctl as (Hinv & Hwarn & Hstat & Hdel).
  unfold analyzeProductFeatures.
  destruct (negb (Js.truthy apiKey)); [apply emits_ret|].
  apply emits_bind; [now apply emits_status_update|intros _].
  apply emits_try_catch.
  - apply emits_runWithRetry; [exact Hctl|].
    unfold analysis_attempt. apply emits_try_catch.
    + intros w. apply emits_at_bind; [apply emits_fileToGenerativePart|].
      intros part w1 Hpart.
      destruct (fileToGenerativePart_resolved _ _ _ _ Hpart) as (s & Hs & ->).
      rewrite <- (image_part_readable _ _ Hs).
      apply emits_bind.
      { apply emits_generateContent. apply Hreq. congruence. }
      intros r.
      apply emits_bind; [apply emits_of_sum|intros json].
      assert (Hprop : forall name fallback,
                 emits I (property_or json name fallback)).
      { intros name fallback. unfold property_or.
        destruct json; try apply emits_ret; [apply emits_throw|].
        destruct (lookup_field name fields); apply emits_ret. }
      apply emits_bind; [apply Hprop|intros d].
      apply emits_bind; [apply Hprop|intros n]. apply emits_ret.
    + intros e. apply emits_bind; [now apply emits_emit|intros _].
      apply emits_throw.
  - intros e. apply emits_bind; [now apply emits_emit|intros _].
    apply emits_ret.
Qed.

(** Every event of a run is a well-formed request of the job, or no request
    at all. *)
Lemma run_well_formed (P : Platform) (j : Job) (w : World) :
  emits_at (well_formed_request P j (shared_description P j w)) (run P j) w.
Proof.
  assert (Hctl : controller_ok
                   (well_formed_request P j (shared_description P j w)))
    by (repeat split).
  apply run_emits_exact.
  - intros m. exact I.
  - intros f Hf. apply emits_analyzeProductFeatures_exact; [exact Hctl| |].
    + intros m. exact I.
    + intros Hread. split; [reflexivity|]. right. now exists f.
  - intros parts ratio Hshape.
    apply emits_callGeminiGenerator; [exact Hctl|].
    split; [reflexivity|]. left. now exists parts, ratio.
Qed.

Lemma In_remote_requests (k : string) (req : GenerateContentParameters)
    (tr : list Event) :
  In (k, req) (remote_requests tr) <-> In (EvRemote k req) tr.
Proof.
  induction tr as [|ev tr IH]; [reflexivity|].
  destruct ev; cbn [remote_requests In]; rewrite ?IH;
    try (split; [tauto|intros [H|H]; [discriminate H|exact H]]).
  split; (intros [H|H]; [left; congruence|right; exact H]).
Qed.

Lemma In_analysis_requests (req : GenerateContentParameters) (tr : list Event) :
  In req (analysis_requests tr) ->
  exists k, In (EvRemote k req) tr.
Proof.
  induction tr as [|ev tr IH]; [intros []|].
  destruct ev; cbn [analysis_requests];
    try (intros H; destruct (IH H) as [k Hk]; exists k; now right).
  destruct (config req0) eqn:Hc.
  - intros [<-|H]; [exists apiKey; now left|].
    destruct (IH H) as [k Hk]. exists k. now right.
  - intros H. destruct (IH H) as [k Hk]. exists k. now right.
Qed.

Lemma run_event_well_formed (P : Platform) (j : Job) (w : World) (ev : Event) :
  In ev (new_events w (snd (run P j w))) ->
  well_formed_request P j (shared_description P j w) ev.
Proof.
  intros Hin. destruct (run_well_formed P j w) as (delta & Ht & HI).
  rewrite (new_events_app _ _ _ Ht) in Hin.
  rewrite Forall_forall in HI. now apply HI.
Qed.

(** ** What the requests of a run carry *)

Lemma inline_parts_app (xs ys : list Part) :
  inline_parts (xs ++ ys) = (inline_parts xs ++ inline_parts ys)%list.
Proof. apply filter_app. Qed.

Lemma inline_parts_viewpoints (images : list SourceImage) :
  Forall readable images ->
  inline_parts (viewpoints images) = source_parts images.
Proof.
  induction 1 as [|img rest Himg _ IH]; [reflexivity|].
  cbn [viewpoints source_parts map]. unfold inline_parts in *.
  cbn [filter]. unfold source_parts in IH. rewrite IH.
  unfold image_part, readable in *.
  destruct (readAsDataURL (file img)); [reflexivity|contradiction].
Qed.

Lemma inline_parts_shared_context (images : list SourceImage)
    (reference : option string) (t : string) :
  Forall readable images ->
  inline_parts (shared_context images reference ++ [TextPart t])
  = (reference_parts reference ++ source_parts images)%list.
Proof.
  intros Hread. unfold shared_context.
  rewrite !inline_parts_app. change (source_heading :: viewpoints images)
    with ([source_heading] ++ viewpoints images)%list.
  rewrite inline_parts_app, (inline_parts_viewpoints _ Hread).
  destruct reference; cbn; now rewrite app_nil_r.
Qed.

Lemma inline_parts_ghost_inputs (img : SourceImage)
    (reference : option string) (t : string) :
  readable img ->
  inline_parts (ghost_inputs reference img ++ [TextPart t])
  = (reference_parts reference ++ [image_part (file img)])%list.
Proof.
  unfold readable, ghost_inputs, image_part. intros Hread.
  destruct (readAsDataURL (file img)); [|contradiction].
  destruct reference; reflexivity.
Qed.

Lemma exact_call_images_sent (P : Platform) (j : Job) (d : string)
    (parts : list Part) (ratio : string) (req : GenerateContentParameters) :
  exact_call P j d parts ratio -> contents req = parts -> images_sent j req.
Proof.
  unfold exact_call, images_sent. intros H ->.
  destruct (jobPreset j).
  - destruct H as (_ & img & d' & Hin & Hread & _ & ->).
    exists img. split; [exact Hin|]. now apply inline_parts_ghost_inputs.
  - destruct H as (_ & Hread & ->). now apply inline_parts_shared_context.
  - destruct H as (_ & Hread & angle & _ & ->).
    now apply inline_parts_shared_context.
  - destruct H as (_ & Hread & ->). now apply inline_parts_shared_context.
Qed.

Lemma exact_call_ratio (P : Platform) (j : Job) (d : string)
    (parts : list Part) (ratio : string) :
  exact_call P j d parts ratio -> ratio = dispatched_ratio j.
Proof.
  unfold exact_call, dispatched_ratio.
  destruct (jobPreset j); now intros [-> _].
Qed.

(** A request of a run to the generation model is an exact call of the
    job. *)
Lemma requests_of_run_exact (P : Platform) (j : Job) (w : World)
    (req : GenerateContentParameters) :
  In req (requests_of_run P j w) ->
  exists parts ratio,
    req = generation_request_of parts (jobQuality j) ratio
    /\ exact_call P j (shared_description P j w) parts ratio.
Proof.
  unfold requests_of_run. intros Hin.
  apply In_generation_requests in Hin as (ev & Hev & Hreq).
  pose proof (run_event_well_formed P j w ev Hev) as Hwf.
  destruct ev; try discriminate. cbn in Hreq.
  destruct Hwf as [_ [Hgen|(f & _ & _ & ->)]]; [|discriminate].
  destruct Hgen as (parts & ratio & -> & Hshape).
  injection Hreq as <-. now exists parts, ratio.
Qed.

(** X5. The images of every generation request of a run are the source
    images of the job, in the order of the job: after the style reference
    when one is used, the one product image of the unit for the per-image
    strategy, and every source image, once and in order, for the other
    strategies.  No other image is ever sent to the generation model. *)
Theorem generation_requests_carry_the_source_images :
  forall (P : Platform) (j : Job) (w : World),
    Forall (images_sent j) (requests_of_run P j w).
Proof.
  intros P j w. apply Forall_forall. intros req Hin.
  destruct (requests_of_run_exact P j w req Hin) as (parts & ratio & -> & H).
  exact (exact_call_images_sent P j _ parts ratio
           (generation_request_of parts (jobQuality j) ratio) H eq_refl).
Qed.

Lemma reference_to_use_background (reference : option string) :
  reference_to_use reference BG_REMOVE_REPAIR = None.
Proof.
  unfold reference_to_use. destruct reference as [r|]; [|reflexivity].
  cbn. now rewrite andb_false_r.
Qed.

Lemma reference_to_use_given (r : string) (presetId : PresetType) :
  Js.truthy r = true -> presetId <> BG_REMOVE_REPAIR ->
  reference_to_use (Some r) presetId = Some r.
Proof.
  intros Hr Hp. unfold reference_to_use. rewrite Hr.
  destruct presetId; try reflexivity. contradiction.
Qed.

(** X6. The style reference: a run of the background strategy never sends
    it, its generation requests carry the source images and nothing else;
    a run of any other strategy that is given a non-empty reference sends
    it as the first image of every generation request. *)
Theorem style_reference_rule :
  forall (P : Platform) (j : Job) (w : World),
    (jobPreset j = BG_REMOVE_REPAIR ->
     Forall (fun req => inline_parts (contents req)
                        = source_parts (jobImages j))
       (requests_of_run P j w))
    /\ (forall r, jobReference j = Some r -> Js.truthy r = true ->
                  jobPreset j <> BG_REMOVE_REPAIR ->
                  Forall (fun req => hd_error (inline_parts (contents req))
                                     = Some (base64ToGenerativePart r))
                    (requests_of_run P j w)).
Proof.
  intros P j w. split.
  - intros Hp. apply Forall_forall. intros req Hin.
    destruct (requests_of_run_exact P j w req Hin) as (parts & ratio & -> & H).
    pose proof (exact_call_images_sent P j _ parts ratio
                  (generation_request_of parts (jobQuality j) ratio)
                  H eq_refl) as Hs.
    unfold images_sent in Hs. rewrite Hp in Hs.
    now rewrite reference_to_use_background in Hs.
  - intros r Hr Htruthy Hp. apply Forall_forall. intros req Hin.
    destruct (requests_of_run_exact P j w req Hin) as (parts & ratio & -> & H).
    pose proof (exact_call_images_sent P j _ parts ratio
                  (generation_request_of parts (jobQuality j) ratio)
                  H eq_refl) as Hs.
    unfold images_sent in Hs.
    rewrite Hr, (reference_to_use_given _ _ Htruthy Hp) in Hs.
    destruct (jobPreset j); [destruct Hs as (img & _ & Hs)| | |];
      now rewrite Hs.
Qed.

Lemma style_reference_rule_witness :
  Forall (fun req => inline_parts (contents req)
                     = source_parts back_first_images)
    (requests_of_run studio_platform (styled_job BG_REMOVE_REPAIR)
       initial_world)
  /\ Forall (fun req => hd_error (inline_parts (contents req))
                        = Some (base64ToGenerativePart
                                  "data:image/jpeg;base64,STYLE"))
       (requests_of_run studio_platform (styled_job LIFESTYLE) initial_world).
Proof.
  split.
  - apply (proj1 (style_reference_rule studio_platform
                    (styled_job BG_REMOVE_REPAIR) initial_world)).
    reflexivity.
  - apply (proj2 (style_reference_rule studio_platform
                    (styled_job LIFESTYLE) initial_world)
             "data:image/jpeg;base64,STYLE");
      [reflexivity|reflexivity|discriminate].
Defined.







(** The two theorems above are about runs that do send requests: the
    composite run of the studio sends one analysis request, about the image
    labelled as the front view although it comes second, and one generation
    request with both images after the style reference. *)
Lemma styled_run_requests :
  let tr := new_events initial_world
              (snd (run studio_platform (styled_job LIFESTYLE) initial_world)) in
  analysis_requests tr
  = [analysis_request (image_part (png_file "SHOE"))]
  /\ map (fun req => inline_parts (contents req)) (generation_requests tr)
     = [[base64ToGenerativePart "data:image/jpeg;base64,STYLE";
         image_part (png_file "HAT"); image_part (png_file "SHOE")]]
  /\ map fst (remote_requests tr) = ["key"; "key"].
Proof. vm_compute. repeat split. Qed.

(** ** The results of a run that resolves *)

Lemma extract_image_resolved (r : GenerateContentResponse) (w w' : World)
    (u : string) :
  extract_image r w = (Resolved u, w') ->
  exists d, inline_image_of r = Some d /\ u = "data:image/png;base64," ++ d.
Proof.
  unfold extract_image, inline_image_of.
  destruct (candidates r) as [|c cs]; [discriminate|].
  destruct (match content c with
            | Some responseParts => first_inline_data responseParts
            | None => None
            end) as [d|].
  - intros [= <- _]. now exists d.
  - destruct (Js.truthy _); discriminate.
Qed.

Lemma generation_attempt_drawn (P : Platform) (parts : list Part)
    (apiKey : string) (size : ImageSize) (ratio : string) :
  post (generation_attempt P parts apiKey size ratio)
    (fun o => forall u, o = Resolved u ->
                        drawn_by P apiKey
                          (generation_request_of parts size ratio) u).
Proof.
  unfold generation_attempt.
  apply post_bind with
    (Q1 := fun o => forall r, o = Resolved r ->
                     exists n, service P n apiKey
                                 (generation_request_of parts size ratio)
                               = inr r).
  - apply post_generateContent.
    + intros n e _ r [=].
    + intros n r Hs r' [= <-]. now exists n.
  - intros r Hr. destruct (Hr r eq_refl) as [n Hn]. intros w.
    destruct (extract_image r w) as [o w'] eqn:Hx. cbn [fst].
    intros u ->.
    destruct (extract_image_resolved _ _ _ _ Hx) as (d & Hd & ->).
    now exists n, r, d.
  - intros e _ u [=].
  - intros _ u [=].
Qed.

(** What the generation adapter resolves with was drawn by the service in
    answer to the request of the adapter. *)
Lemma callGeminiGenerator_resolved (P : Platform) (parts : list Part)
    (apiKey : string) (size : ImageSize) (sink : bool) (ratio : string)
    (w w' : World) (u : string) :
  callGeminiGenerator P parts apiKey size sink ratio w = (Resolved u, w') ->
  drawn_by P apiKey (generation_request_of parts size ratio) u.
Proof.
  intros H.
  assert (Hpost : post (callGeminiGenerator P parts apiKey size sink ratio)
            (fun o => forall u, o = Resolved u ->
                                drawn_by P apiKey
                                  (generation_request_of parts size ratio) u)).
  { unfold callGeminiGenerator. destruct (negb (Js.truthy apiKey)).
    - apply post_throw. intros u' [=].
    - apply post_runWithRetry, generation_attempt_drawn. }
  specialize (Hpost w). rewrite H in Hpost. now apply Hpost.
Qed.

Lemma ghost_unit_resolved (P : Platform) (j : Job) (total : nat)
    (img : SourceImage) (idx : nat) (w w' : World) (r : ProcessedImage) :
  ghost_unit P total (jobPrompt j) (jobKey j) (jobQuality j) (jobSink j)
    (reference_to_use (jobReference j) (jobPreset j))
    (selectedBodyType_of (jobBodyType j)) img idx w
  = (Resolved r, w') ->
  per_image_result P j img r.
Proof.
  unfold ghost_unit. intros H.
  apply bind_resolved in H as (_ & w1 & _ & H).
  apply bind_resolved in H as (a & w2 & Ha & H).
  apply bind_resolved in H as (_ & w3 & _ & H).
  apply bind_resolved in H as (p & w4 & Hp & H).
  apply bind_resolved in H as (u & w5 & Hu & H).
  injection H as <- _.
  destruct (fileToGenerativePart_resolved _ _ _ _ Hp) as (s & Hs & ->).
  exists w1, w2, a. split; [exact Ha|]. split; [reflexivity|].
  apply callGeminiGenerator_resolved in Hu. cbn [url].
  unfold ghost_inputs. rewrite (image_part_readable _ _ Hs).
  rewrite <- app_assoc. exact Hu.
Qed.

(** The results of a per-image run that resolves. *)
Lemma per_image_run_resolved (P : Platform) (j : Job) (w w' : World)
    (rs : list ProcessedImage) :
  jobPreset j = GHOST_MANNEQUIN ->
  run P j w = (Resolved rs, w') ->
  Forall2 (per_image_result P j) (jobImages j) rs.
Proof.
  intros Hp. unfold run, processImagesWithGemini.
  destruct (find_preset (jobPreset j)) as [preset ->].
  replace (PresetType_eqb (jobPreset j) GHOST_MANNEQUIN) with true
    by now rewrite Hp.
  intros Hrun. apply Promise_all_resolved in Hrun.
  apply Forall2_mapi_from in Hrun.
  eapply Forall2_impl; [|exact Hrun]. cbn beta.
  intros img r (idx & w1 & w2 & Hunit).
  eapply ghost_unit_resolved; eauto.
Qed.

(** X9. A per-image run that resolves returns one result for each source
    image, in the order of the source images; the result of an image is
    named by the analysis of that very image, and its address is the image
    the service drew in answer to the request made of that image and of the
    description of its own analysis. *)
Theorem per_image_run_results :
  forall (P : Platform) (j : Job) (w w' : World) (rs : list ProcessedImage),
    jobPreset j = GHOST_MANNEQUIN ->
    run P j w = (Resolved rs, w') ->
    List.length rs = List.length (jobImages j)
    /\ Forall2 (per_image_result P j) (jobImages j) rs.
Proof.
  intros P j w w' rs Hp Hrun.
  pose proof (per_image_run_resolved P j w w' rs Hp Hrun) as H.
  split; [symmetry; exact (Forall2_length H)|exact H].
Qed.

Lemma per_image_run_results_witness :
  let j := example_job GHOST_MANNEQUIN [shoe_image; hat_image] None "1:1" in
  List.length [ {| url := "data:image/png;base64,AAAA";
                   filename := "Acme-Runner-Red-Sneakers" |};
                {| url := "data:image/png;base64,AAAA";
                   filename := "Acme-Brim-Blue-Hats" |} ]
  = List.length (jobImages j)
  /\ Forall2 (per_image_result studio_platform j) (jobImages j)
       [ {| url := "data:image/png;base64,AAAA";
            filename := "Acme-Runner-Red-Sneakers" |};
         {| url := "data:image/png;base64,AAAA";
            filename := "Acme-Brim-Blue-Hats" |} ].
Proof.
  intros j.
  apply (per_image_run_results studio_platform j initial_world
           (snd (run studio_platform j initial_world)));
    [reflexivity|vm_compute; reflexivity].
Defined.

(** The result of a single generation that resolves. *)
Lemma single_generation_run_resolved (P : Platform) (j : Job) (w w' : World)
    (rs : list ProcessedImage) :
  jobPreset j = LIFESTYLE \/ jobPreset j = BG_REMOVE_REPAIR ->
  run P j w = (Resolved rs, w') ->
  exists r, rs = [r] /\ composite_result P j r
            /\ Forall readable (jobImages j).
Proof.
  intros Hp. unfold run, processImagesWithGemini.
  destruct (find_preset (jobPreset j)) as [preset ->].
  replace (PresetType_eqb (jobPreset j) GHOST_MANNEQUIN) with false
    by (destruct Hp as [-> | ->]; reflexivity).
  replace (PresetType_eqb (jobPreset j) ANGLES) with false
    by (destruct Hp as [-> | ->]; reflexivity).
  intros H.
  apply bind_resolved in H as (_ & w1 & _ & H).
  destruct (primaryImg_of (jobImages j)) as [primary|] eqn:Hprimary.
  2:{ apply bind_resolved in H as (f & w2 & Hf & _). discriminate. }
  apply bind_resolved in H as (f & w2 & Hf & H). injection Hf as <- <-.
  apply bind_resolved in H as (a & w3 & Ha & H).
  apply bind_resolved in H as (contextParts & w4 & Hctx & H).
  apply bind_resolved in H as (_ & w5 & _ & H).
  apply bind_resolved in H as (u & w6 & Hu & H).
  injection H as <- _.
  destruct (build_contextParts_resolved _ _ _ _ _ _ Hctx) as [-> Hread].
  eexists. split; [reflexivity|]. split; [|exact Hread].
  exists primary, w1, w3, a. split; [exact Hprimary|]. split; [exact Ha|].
  split; [reflexivity|]. cbn [url].
  exact (callGeminiGenerator_resolved _ _ _ _ _ _ _ _ _ Hu).
Qed.

(** X10. A single-generation run (the composite and the background
    strategies) that resolves returns exactly one result, named by the
    analysis of the primary image; its address is the image the service
    drew in answer to the request made of every source image, of the
    description of that analysis and of the aspect ratio of the job. *)
Theorem single_generation_run_result :
  forall (P : Platform) (j : Job) (w w' : World) (rs : list ProcessedImage),
    jobPreset j = LIFESTYLE \/ jobPreset j = BG_REMOVE_REPAIR ->
    run P j w = (Resolved rs, w') ->
    exists r, rs = [r] /\ composite_result P j r
              /\ Forall readable (jobImages j).
Proof.
  intros P j w w' rs. apply single_generation_run_resolved.
Qed.

Lemma single_generation_run_result_witness :
  let j := styled_job LIFESTYLE in
  exists r,
    [ {| url := "data:image/png;base64,AAAA";
         filename := "Acme-Runner-Red-Sneakers" |} ] = [r]
    /\ composite_result studio_platform j r
    /\ Forall readable (jobImages j).
Proof.
  intros j.
  apply (single_generation_run_result studio_platform j initial_world
           (snd (run studio_platform j initial_world)));
    [left; reflexivity|vm_compute; reflexivity].
Defined.

(** ** The analysis of an answer that parses *)

Lemma property_or_own_text (json : JsValue) (name fallback : string)
    (w : World) :
  json <> JNull ->
  property_or json name fallback w
  = (Resolved (own_text json name fallback), w).
Proof.
  intros Hjson. unfold property_or, own_text.
  destruct json; try reflexivity; [contradiction|].
  destruct (lookup_field name fields); reflexivity.
Qed.

Lemma analysis_attempt_run (P : Platform) (f : File) (apiKey : string)
    (w : World) (r : GenerateContentResponse) (json : JsValue) :
  readable_file f ->
  service P (calls w) apiKey (analysis_request (image_part f)) = inr r ->
  JSON_parse P (analysis_text r) = inr json ->
  json <> JNull ->
  analysis_attempt P f apiKey (record_events [EvInvoke] w)
  = (Resolved (analysis_of json),
     after_one_request apiKey (analysis_request (image_part f)) w).
Proof.
  unfold readable_file. intros Hread Hservice Hparse Hjson.
  destruct (readAsDataURL f) as [s|] eqn:Hs; [|contradiction].
  rewrite (image_part_readable _ _ Hs) in *.
  unfold analysis_attempt, try_catch, bind at 1, fileToGenerativePart.
  rewrite Hs. cbn [ret]. unfold bind at 1, generateContent.
  cbn [calls record_events]. rewrite Hservice. cbn [of_sum ret].
  unfold bind at 1. rewrite Hparse. cbn [of_sum ret].
  unfold bind at 1. rewrite (property_or_own_text _ _ _ _ Hjson).
  unfold bind at 1. rewrite (property_or_own_text _ _ _ _ Hjson).
  cbn [ret]. unfold after_one_request, analysis_of, record_events.
  cbn [trace calls]. now rewrite <- app_assoc.
Qed.

(** X11. When the file can be read, the service answers the analysis
    request and the answer parses to a value other than [null], the
    analysis adapter resolves at once, after one request and without any
    wait, with the description and the file name of the answer; a property
    that is missing or falsy (an answer that is not an object has none) is
    replaced by the empty description and by the stem processed-product. *)
Theorem analysis_of_a_parsed_answer :
  forall (P : Platform) (f : File) (apiKey : string) (sink : bool) (w : World)
         (r : GenerateContentResponse) (json : JsValue),
    Js.truthy apiKey = true ->
    readable_file f ->
    service P (calls w) apiKey (analysis_request (image_part f)) = inr r ->
    JSON_parse P (analysis_text r) = inr json ->
    json <> JNull ->
    analyzeProductFeatures P f apiKey sink w
    = (Resolved (analysis_of json),
       after_one_request apiKey (analysis_request (image_part f))
         (record_events (analysis_status sink) w)).
Proof.
  intros P f apiKey sink w r json Hkey Hread Hservice Hparse Hjson.
  unfold analyzeProductFeatures. rewrite Hkey. cbn [negb].
  unfold bind at 1. rewrite status_update_run. unfold try_catch.
  fold (analysis_status sink).
  rewrite (runWithRetry_first_attempt _ _ _
             (record_events (analysis_status sink) w)
             (after_one_request apiKey (analysis_request (image_part f))
                (record_events (analysis_status sink) w))
             (Resolved (analysis_of json))); [reflexivity| |exact I].
  now apply (analysis_attempt_run P f apiKey _ r json).
Qed.

Lemma analysis_of_a_parsed_answer_witness :
  analyzeProductFeatures studio_platform (png_file "SHOE") "key" true
    initial_world
  = (Resolved {| description := "red shoe";
                 analysisFilename := "Acme-Runner-Red-Sneakers" |},
     after_one_request "key" (analysis_request (image_part (png_file "SHOE")))
       (record_events (analysis_status true) initial_world)).
Proof.
  apply (analysis_of_a_parsed_answer studio_platform (png_file "SHOE") "key"
           true initial_world (text_response shoe_json)
           (JObject [("description", JString "red shoe");
                     ("filename", JString "Acme-Runner-Red-Sneakers")]));
    [reflexivity|discriminate|reflexivity|reflexivity|discriminate].
Defined.

(** ** A run without source image *)

(** X12. A run over no source image sends no request, whatever the
    credential and the service: the per-image strategy resolves with no
    result and no event at all; the other strategies reject with the
    TypeError of reading the file of the missing primary image, after the
    one status update that precedes the analysis. *)
Theorem run_without_source_image :
  forall (P : Platform) (j : Job) (w : World),
    jobImages j = [] ->
    run P j w
    = match jobPreset j with
      | GHOST_MANNEQUIN => (Resolved [], w)
      | _ =>
          (Rejected (typeError "Cannot read properties of undefined (reading 'file')"),
           record_events
             (if jobSink j
              then [EvStatus "Analyzing primary product features..."]
              else []) w)
      end.
Proof.
  intros P j w Himages. unfold run, processImagesWithGemini.
  destruct (find_preset (jobPreset j)) as [preset ->]. rewrite Himages.
  destruct (jobPreset j); cbn [PresetType_eqb];
    try (unfold bind at 1; rewrite status_update_run; reflexivity).
  reflexivity.
Qed.

Lemma run_without_source_image_witness :
  run overloaded_platform (example_job ANGLES [] None "1:1") initial_world
  = (Rejected (typeError "Cannot read properties of undefined (reading 'file')"),
     record_events [EvStatus "Analyzing primary product features..."]
       initial_world).
Proof.
  apply (run_without_source_image overloaded_platform
           (example_job ANGLES [] None "1:1") initial_world).
  reflexivity.
Defined.

(** ** Data addresses *)

Lemma free_of_app (c : ascii) (a b : string) :
  free_of c (a ++ b) = free_of c a && free_of c b.
Proof.
  induction a as [|d a IH]; [reflexivity|].
  cbn [append free_of]. now rewrite IH, andb_assoc.
Qed.

Lemma split_free (c : ascii) (s : string) :
  free_of c s = true -> Js.split c s = [s].
Proof.
  induction s as [|d s IH]; [reflexivity|]. cbn [free_of Js.split].
  intros H. apply andb_true_iff in H as [Hd Hs].
  apply negb_true_iff in Hd. rewrite Hd, (IH Hs). reflexivity.
Qed.

Lemma split_at_separator (c : ascii) (a b : string) :
  free_of c a = true ->
  Js.split c (a ++ String c b) = a :: Js.split c b.
Proof.
  induction a as [|d a IH]; cbn [append free_of Js.split].
  - intros _. now rewrite Ascii.eqb_refl.
  - intros H. apply andb_true_iff in H as [Hd Ha].
    apply negb_true_iff in Hd. rewrite Hd, (IH Ha). reflexivity.
Qed.

Lemma until_semicolon_at_separator (m rest : string) :
  free_of ";" m = true -> free_of (ascii_of_nat 10) m = true ->
  free_of (ascii_of_nat 13) m = true ->
  until_semicolon (m ++ String ";" rest) = Some m.
Proof.
  induction m as [|d m IH]; cbn [append free_of until_semicolon].
  - intros _ _ _. reflexivity.
  - intros H1 H2 H3.
    apply andb_true_iff in H1 as [Hd1 Hm1].
    apply andb_true_iff in H2 as [Hd2 Hm2].
    apply andb_true_iff in H3 as [Hd3 Hm3].
    apply negb_true_iff in Hd1. rewrite Hd1.
    apply negb_true_iff, Ascii.eqb_neq in Hd2.
    apply negb_true_iff, Ascii.eqb_neq in Hd3.
    assert (E10 : (nat_of_ascii d =? 10)%nat = false).
    { apply Nat.eqb_neq. intros E. apply Hd2.
      now rewrite <- (ascii_nat_embedding d), E. }
    assert (E13 : (nat_of_ascii d =? 13)%nat = false).
    { apply Nat.eqb_neq. intros E. apply Hd3.
      now rewrite <- (ascii_nat_embedding d), E. }
    rewrite E10, E13. cbn [orb]. now rewrite (IH Hm1 Hm2 Hm3).
Qed.

Lemma base64_payload_data_url (m d : string) :
  free_of "," m = true -> free_of "," d = true ->
  base64_payload (data_url m d) = Some d.
Proof.
  intros Hm Hd. unfold base64_payload, data_url.
  change ("data:" ++ m ++ ";base64," ++ d)
    with ("data:" ++ (m ++ (";base64" ++ String "," d))).
  rewrite <- !append_assoc.
  rewrite split_at_separator, (split_free _ _ Hd); [reflexivity|].
  rewrite !free_of_app, Hm. reflexivity.
Qed.

Lemma match_mime_data_url (m d : string) :
  plain_media_type m = true -> match_mime (data_url m d) = Some m.
Proof.
  unfold plain_media_type. intros H.
  apply andb_true_iff in H as [H H13]. apply andb_true_iff in H as [H H10].
  apply andb_true_iff in H as [_ Hsemi].
  unfold data_url. cbn [append match_mime Ascii.eqb Bool.eqb].
  change (";base64," ++ d) with (String ";" ("base64," ++ d)).
  now rewrite until_semicolon_at_separator.
Qed.

Lemma plain_media_type_comma (m : string) :
  plain_media_type m = true -> free_of "," m = true.
Proof.
  unfold plain_media_type. intros Hm.
  apply andb_true_iff in Hm as [Hm _]. apply andb_true_iff in Hm as [Hm _].
  now apply andb_true_iff in Hm as [Hm _].
Qed.

Lemma base64ToGenerativePart_data_url (m d : string) :
  plain_media_type m = true -> free_of "," d = true ->
  base64ToGenerativePart (data_url m d)
  = InlinePart (Some d) (Js.or_else m "image/png").
Proof.
  intros Hm Hd. unfold base64ToGenerativePart.
  rewrite (match_mime_data_url _ _ Hm), base64_payload_data_url;
    [reflexivity|now apply plain_media_type_comma|exact Hd].
Qed.

(** X13. Data addresses are read back exactly.  From the address
    data:<media type>;base64,<payload>, whose media type has no comma, no
    semicolon and no line break and whose payload has no comma,
    [base64ToGenerativePart] makes the inline part of that payload and of
    that media type (image/png when the media type is empty), and
    [fileToGenerativePart] of a file read as that address resolves with the
    inline part of that payload and of the type of the file. *)
Theorem data_url_round_trip :
  forall (mediaType payload : string),
    plain_media_type mediaType = true ->
    free_of "," payload = true ->
    base64ToGenerativePart (data_url mediaType payload)
    = InlinePart (Some payload) (Js.or_else mediaType "image/png")
    /\ forall (f : File) (w : World),
         readAsDataURL f = Some (data_url mediaType payload) ->
         fileToGenerativePart f w
         = (Resolved (InlinePart (Some payload) (type f)), w).
Proof.
  intros m d Hm Hd.
  pose proof (plain_media_type_comma _ Hm) as Hcomma. split.
  - now apply base64ToGenerativePart_data_url.
  - intros f w Hf. unfold fileToGenerativePart. rewrite Hf.
    now rewrite base64_payload_data_url.
Qed.

Lemma data_url_round_trip_witness :
  base64ToGenerativePart (data_url "image/webp" "UklGRg==")
  = InlinePart (Some "UklGRg==") "image/webp"
  /\ forall (f : File) (w : World),
       readAsDataURL f = Some (data_url "image/webp" "UklGRg==") ->
       fileToGenerativePart f w
       = (Resolved (InlinePart (Some "UklGRg==") (type f)), w).
Proof.
  apply (data_url_round_trip "image/webp" "UklGRg=="); reflexivity.
Defined.

(** ** Upscaling *)

Lemma emits_upscaleImage (P : Platform) (I : Event -> Prop)
    (base64Image : string) (resolution : ImageSize) (apiKey : string)
    (sink : bool) :
  controller_ok I ->
  I (EvRemote apiKey (upscale_request base64Image resolution)) ->
  emits I (upscaleImage P base64Image resolution apiKey sink).
Proof.
  intros Hctl Hreq. unfold upscaleImage.
  apply emits_bind; [apply emits_status_update, Hctl|intros _].
  now apply emits_callGeminiGenerator.
Qed.

Lemma upscaleImage_requests (P : Platform) (base64Image : string)
    (resolution : ImageSize) (apiKey : string) (sink : bool) (w : World) :
  Forall (fun kr => kr = (apiKey, upscale_request base64Image resolution))
    (remote_requests
       (new_events w
          (snd (upscaleImage P base64Image resolution apiKey sink w)))).
Proof.
  destruct (emits_upscaleImage P
              (fun ev => forall k q,
                   ev = EvRemote k q ->
                   (k, q) = (apiKey, upscale_request base64Image resolution))
              base64Image resolution apiKey sink) with (w := w)
    as (delta & Ht & HI).
  - repeat split; intros; discriminate.
  - intros k q [= -> ->]. reflexivity.
  - rewrite (new_events_app _ _ _ Ht). apply Forall_forall.
    intros [k q] Hin. apply In_remote_requests in Hin.
    rewrite Forall_forall in HI. exact (HI _ Hin k q eq_refl).
Qed.

(** X14. Upscaling: every request of [upscaleImage], at every retry, is
    the one request made of the given image, of the upscaling instruction
    for the requested resolution, of that resolution as image size and of
    the ratio 1:1, sent with the given credential; the address it resolves
    with is an image the service drew in answer to that request; and
    without a credential it rejects, after its status update, without any
    request. *)
Theorem upscale_requests_and_result :
  forall (P : Platform) (base64Image : string) (resolution : ImageSize)
         (apiKey : string) (sink : bool) (w : World),
    let done := upscaleImage P base64Image resolution apiKey sink w in
    Forall (fun kr => kr = (apiKey, upscale_request base64Image resolution))
      (remote_requests (new_events w (snd done)))
    /\ (forall u, fst done = Resolved u ->
                  drawn_by P apiKey (upscale_request base64Image resolution) u)
    /\ (Js.truthy apiKey = false ->
        fst done = Rejected missing_key_error
        /\ remote_requests (new_events w (snd done)) = []).
Proof.
  intros P img res apiKey sink w done. subst done. repeat split.
  - apply upscaleImage_requests.
  - unfold upscaleImage, bind at 1. rewrite status_update_run.
    destruct (callGeminiGenerator _ _ _ _ _ _ _) as [o w'] eqn:Hcall.
    cbn [fst]. intros u ->.
    exact (callGeminiGenerator_resolved _ _ _ _ _ _ _ _ _ Hcall).
  - unfold upscaleImage, bind at 1. rewrite status_update_run.
    unfold callGeminiGenerator. now rewrite H.
  - unfold upscaleImage, bind at 1. rewrite status_update_run.
    unfold callGeminiGenerator. rewrite H. cbn [negb throw snd].
    unfold new_events, record_events. cbn [trace].
    rewrite skipn_app, skipn_all, Nat.sub_diag. cbn [skipn app].
    now destruct sink.
Qed.

Lemma upscale_requests_and_result_witness :
  fst (upscaleImage studio_platform (data_url "image/png" "AAAA") Size4K
         EmptyString true initial_world)
  = Rejected missing_key_error
  /\ remote_requests
       (new_events initial_world
          (snd (upscaleImage studio_platform (data_url "image/png" "AAAA")
                  Size4K EmptyString true initial_world)))
     = [].
Proof.
  apply (upscale_requests_and_result studio_platform
           (data_url "image/png" "AAAA") Size4K EmptyString true initial_world).
  reflexivity.
Defined.

(** X15. Generating, then upscaling: the address the generation adapter
    resolves with is a data address of type image/png, and when its payload
    has no comma (base64 text has none), every request that upscales this
    address sends back exactly the payload that was drawn, as one inline
    part of type image/png. *)
Theorem upscale_of_a_generated_image :
  forall (P : Platform) (parts : list Part) (apiKey : string)
         (size : ImageSize) (sink : bool) (ratio : string) (w w1 : World)
         (u : string),
    callGeminiGenerator P parts apiKey size sink ratio w = (Resolved u, w1) ->
    exists d,
      u = data_url "image/png" d
      /\ (free_of "," d = true ->
          forall (Q : Platform) (resolution : ImageSize) (sink' : bool)
                 (w2 : World),
            Forall (fun kr => inline_parts (contents (snd kr))
                              = [InlinePart (Some d) "image/png"])
              (remote_requests
                 (new_events w2
                    (snd (upscaleImage Q u resolution apiKey sink' w2))))).
Proof.
  intros P parts apiKey size sink ratio w w1 u Hcall.
  destruct (callGeminiGenerator_resolved _ _ _ _ _ _ _ _ _ Hcall)
    as (n & r & d & _ & _ & ->).
  exists d. split; [reflexivity|]. intros Hd Q res sink' w2.
  change ("data:image/png;base64," ++ d) with (data_url "image/png" d).
  eapply Forall_impl;
    [|exact (upscaleImage_requests Q (data_url "image/png" d) res apiKey
               sink' w2)].
  cbn beta. intros kr ->. cbn [snd].
  unfold upscale_request, generation_request_of. cbn [contents].
  now rewrite (base64ToGenerativePart_data_url "image/png" d eq_refl Hd).
Qed.

Lemma upscale_of_a_generated_image_witness :
  exists d,
    "data:image/png;base64,AAAA" = data_url "image/png" d
    /\ (free_of "," d = true ->
        forall (Q : Platform) (resolution : ImageSize) (sink' : bool)
               (w2 : World),
          Forall (fun kr => inline_parts (contents (snd kr))
                            = [InlinePart (Some d) "image/png"])
            (remote_requests
               (new_events w2
                  (snd (upscaleImage Q "data:image/png;base64,AAAA" resolution
                          "key" sink' w2))))).
Proof.
  apply (upscale_of_a_generated_image studio_platform [] "key" Size1K false
           "1:1" initial_world
           (snd (callGeminiGenerator studio_platform [] "key" Size1K false
                   "1:1" initial_world))).
  vm_compute. reflexivity.
Defined.

(** ** Runs end *)

Lemma terminates_bind {A B} (c : M A) (k : A -> M B) :
  terminates c -> (forall a, terminates (k a)) -> terminates (bind c k).
Proof.
  intros Hc Hk.
  apply (post_bind c k (fun o => o <> Diverged) (fun o => o <> Diverged));
    [exact Hc|intros a _; apply Hk|congruence|congruence].
Qed.

Lemma terminates_status_update (sink : bool) (msg : string) :
  terminates (status_update sink msg).
Proof. intros w. now destruct sink. Qed.

Lemma terminates_of_resolves {A} (c : M A) : resolves c -> terminates c.
Proof. intros H w. destruct (H w) as [a ->]. discriminate. Qed.

Lemma run_all_settled {A} (units : list (M A)) :
  Forall terminates units ->
  forall w, Forall (fun o => o <> Diverged) (fst (run_all units w)).
Proof.
  induction 1 as [|u units Hu _ IH]; intros w; cbn [run_all].
  - constructor.
  - specialize (Hu w). destruct (u w) as [o w1]. simpl in Hu.
    specialize (IH w1). destruct (run_all units w1) as [os w2]. simpl in *.
    now constructor.
Qed.

Lemma settle_all_settled {A} (first : nat) (os : list (Outcome A)) :
  Forall (fun o => o <> Diverged) os -> settle_all first os <> Diverged.
Proof.
  intros Hall. unfold settle_all.
  assert (Hdiv : any_diverged os = false).
  { induction Hall as [|o os Ho _ IH]; [reflexivity|].
    destruct o; [exact IH|exact IH|congruence]. }
  rewrite Hdiv.
  destruct (all_resolved os) as [vs|] eqn:Hres; [discriminate|].
  assert (Hlow : exists e, lowest_rejection os = Some e).
  { induction Hall as [|o os Ho _ IH]; [discriminate|].
    destruct o as [a|e|]; [|now exists e|congruence].
    cbn [all_resolved] in Hres. cbn [lowest_rejection]. apply IH.
    + exact Hdiv.
    + destruct (all_resolved os); [discriminate Hres|reflexivity]. }
  destruct Hlow as [e ->].
  destruct (nth_error os first) as [[a|e'|]|]; discriminate.
Qed.

Lemma Promise_all_terminates {A} (P : Platform) (units : list (M A)) :
  Forall terminates units -> terminates (Promise_all P units).
Proof.
  intros Hall w. unfold Promise_all.
  pose proof (run_all_settled units Hall w) as Hos.
  destruct (run_all units w) as [os w']. simpl in *.
  now apply settle_all_settled.
Qed.

Lemma callGeminiGenerator_terminates (P : Platform) (parts : list Part)
    (apiKey : string) (size : ImageSize) (sink : bool) (ratio : string) :
  terminates (callGeminiGenerator P parts apiKey size sink ratio).
Proof.
  unfold callGeminiGenerator.
  destruct (negb (Js.truthy apiKey)); [intros w; discriminate|].
  apply runWithRetry_terminates. unfold generation_attempt.
  apply terminates_bind.
  - intros w. unfold generateContent.
    destruct (service P (calls w) apiKey _); discriminate.
  - intros r w. unfold extract_image.
    destruct (candidates r) as [|c cs]; [discriminate|].
    destruct (match content c with
              | Some responseParts => first_inline_data responseParts
              | None => None
              end); [discriminate|].
    destruct (Js.truthy _); discriminate.
Qed.

Lemma fileToGenerativePart_terminates (f : File) :
  terminates (fileToGenerativePart f).
Proof.
  intros w. unfold fileToGenerativePart.
  destruct (readAsDataURL f); discriminate.
Qed.

Lemma build_contextParts_terminates (images : list SourceImage) (sink : bool)
    (reference : option string) :
  terminates (build_contextParts images sink reference).
Proof.
  intros w.
  pose proof (build_contextParts_resolves_or_rejects images sink reference
                (fun _ => True) (or_introl I) w) as H.
  cbn beta in H.
  destruct (fst (build_contextParts images sink reference w));
    [discriminate|discriminate|contradiction].
Qed.

(** A run always ends: by a list of results or by a rejection. *)
Lemma run_terminates (P : Platform) (j : Job) : terminates (run P j).
Proof.
  unfold run, processImagesWithGemini.
  destruct (find_preset (jobPreset j)) as [preset ->].
  destruct (PresetType_eqb (jobPreset j) GHOST_MANNEQUIN).
  - apply Promise_all_terminates, Forall_mapi_from.
    intros img idx _. unfold ghost_unit.
    apply terminates_bind; [apply terminates_status_update|intros _].
    apply terminates_bind;
      [apply terminates_of_resolves, analyzeProductFeatures_resolves|].
    intros a.
    apply terminates_bind; [apply terminates_status_update|intros _].
    apply terminates_bind; [apply fileToGenerativePart_terminates|intros p].
    apply terminates_bind; [apply callGeminiGenerator_terminates|].
    intros u w. discriminate.
  - apply terminates_bind; [apply terminates_status_update|intros _].
    apply terminates_bind.
    { destruct (primaryImg_of (jobImages j)); intros w; discriminate. }
    intros f.
    apply terminates_bind;
      [apply terminates_of_resolves, analyzeProductFeatures_resolves|].
    intros a.
    apply terminates_bind; [apply build_contextParts_terminates|].
    intros contextParts.
    destruct (PresetType_eqb (jobPreset j) ANGLES).
    + apply Promise_all_terminates, Forall_mapi_from.
      intros angle idx _. unfold angle_unit.
      apply terminates_bind; [apply terminates_status_update|intros _].
      apply terminates_bind; [apply callGeminiGenerator_terminates|].
      intros u w. discriminate.
    + apply terminates_bind; [apply terminates_status_update|intros _].
      apply terminates_bind; [apply callGeminiGenerator_terminates|].
      intros u w. discriminate.
Qed.

(** ** The caller *)

Lemma shown_error_truthy (err : JsError) : Js.truthy (shown_error err) = true.
Proof.
  unfold shown_error. destruct (key_rejected err); [reflexivity|].
  destruct (message err) as [[|c m]|]; reflexivity.
Qed.

(** X16. [handleProcess] always ends and never rejects, whatever the
    service does, and what it leaves behind follows from the state it
    starts in: without a credential only the key prompt, and no event;
    with a credential but no source image or no preset nothing at all;
    otherwise, with the events of the run of its job and no other, the
    results of that run under the message Done! when it resolves, and when
    it rejects the message for its error and no result, the stored key
    being cleared exactly when the error is about the key.  So the state
    left is never processing, and holds either results or a non-empty
    error message, never both. *)
Theorem handleProcess_always_settles :
  forall (P : Platform) (st : App.State) (w : World),
    expected_outcome P st w (App.handleProcess P st w)
    /\ exists h, fst (App.handleProcess P st w) = Resolved h
                 /\ consistent_outcome st h.
Proof.
  intros P st w.
  assert (Hexp : expected_outcome P st w (App.handleProcess P st w)).
  { unfold expected_outcome, App.handleProcess.
    destruct (Js.truthy (App.apiKey st)); cbn [negb]; [|reflexivity].
    destruct (App.sourceImages st) as [|img images] eqn:Himages;
      [reflexivity|].
    destruct (App.selectedPreset st) as [preset|] eqn:Hpreset; [|reflexivity].
    pose proof (run_terminates P (job_of st preset) w) as Hend.
    unfold run, job_of in *. cbn [jobImages jobPreset jobPrompt jobKey
      jobQuality jobSink jobReference jobAngles jobBodyType jobRatio
      jobEnvironment jobContext] in *. rewrite Himages in *.
    unfold try_catch, bind.
    destruct (processImagesWithGemini _ _ _ _ _ _ _ _ _ _ _ _ _ w)
      as [[rs|e|] w']; [reflexivity| |now contradiction Hend].
    unfold failed_with, shown_error, key_rejected. cbn zeta.
    destruct (message e) as [m|]; [|reflexivity].
    destruct (Js.includes m "Requested entity was not found"
              || Js.includes m "403" || Js.includes m "API key");
      [reflexivity|now destruct m]. }
  split; [exact Hexp|].
  unfold expected_outcome in Hexp.
  destruct (Js.truthy (App.apiKey st)) eqn:Hkey;
    [|rewrite Hexp; exists App.ShowKeyInput; now split].
  destruct (App.sourceImages st) as [|img images] eqn:Himages;
    [rewrite Hexp; exists App.NothingToDo; split; [reflexivity|now left]|].
  destruct (App.selectedPreset st) as [preset|] eqn:Hpreset;
    [|rewrite Hexp; exists App.NothingToDo; split; [reflexivity|now right]].
  destruct (run P (job_of st preset) w) as [[rs|e|] w']; [| |contradiction];
    rewrite Hexp; eexists; (split; [reflexivity|]); (split; [reflexivity|]).
  - now left.
  - right. exists (shown_error e). split; [reflexivity|].
    split; [apply shown_error_truthy|]. split; [reflexivity|].
    unfold shown_error. intros ->. reflexivity.
Qed.

(** Without a credential, only the key prompt; at a service that does not
    know the key, the message about the key, and the key is cleared. *)
Lemma handleProcess_examples :
  App.handleProcess studio_platform keyless_state initial_world
  = (Resolved App.ShowKeyInput, initial_world)
  /\ fst (App.handleProcess blind_platform
            (example_state LIFESTYLE "1:1" true) initial_world)
     = Resolved (App.Finished (done_with [ {| url := "data:image/png;base64,AAAA";
                                              filename := "processed-product" |} ])
                   false)
  /\ fst (App.handleProcess closed_platform
            (example_state LIFESTYLE "1:1" true) initial_world)
     = Resolved (App.Finished (failed_with not_found_error) true).
Proof. repeat split; vm_compute; reflexivity. Qed.

Lemma emits_at_weaken {A} (I J : Event -> Prop) (c : M A) (w : World) :
  (forall ev, I ev -> J ev) -> emits_at I c w -> emits_at J c w.
Proof.
  intros HIJ (delta & Ht & HI). exists delta. split; [exact Ht|].
  eapply Forall_impl; [|exact HI]. exact HIJ.
Qed.

Lemma dispatched_ratio_displayed (st : App.State) (preset : Preset) :
  App.selectedPreset st = Some preset ->
  dispatched_ratio (job_of st preset) = View.displayed_ratio st.
Proof.
  intros Hpreset. unfold View.displayed_ratio, View.targetAspectRatio.
  rewrite Hpreset. unfold dispatched_ratio, job_of. cbn [jobPreset jobRatio].
  unfold App.targetAspectRatio_of. now destruct (id preset).
Qed.

(** X17. What is shown is what is asked for: every request that
    [handleProcess] sends to the generation model, at every retry and for
    every strategy, carries the aspect ratio that the component derives
    for display from the same state, whatever the text of the ratio
    control. *)
Theorem requested_ratio_is_the_displayed_ratio :
  forall (P : Platform) (st : App.State) (w : World),
    Forall (fun req => aspectRatio_of req = Some (View.displayed_ratio st))
      (generation_requests
         (new_events w (snd (App.handleProcess P st w)))).
Proof.
  intros P st w.
  assert (H : emits_at
                (fun ev => forall req,
                     generation_request ev = Some req ->
                     aspectRatio_of req = Some (View.displayed_ratio st))
                (App.handleProcess P st) w).
  { destruct (App.selectedPreset st) as [preset|] eqn:Hpreset.
    - apply (handleProcess_emits P st preset _ w Hpreset).
      eapply emits_at_weaken; [|apply run_well_formed].
      intros [| | | | |k q]; try discriminate.
      intros [_ Hshape] req. cbn [generation_request].
      destruct Hshape as [(parts & ratio & -> & Hcall)|(f & _ & _ & ->)];
        [|discriminate].
      intros [= <-]. cbn.
      rewrite <- (dispatched_ratio_displayed st preset Hpreset).
      now rewrite (exact_call_ratio _ _ _ _ _ Hcall).
    - unfold App.handleProcess. rewrite Hpreset.
      destruct (negb _); [apply emits_ret|].
      destruct (App.sourceImages st); apply emits_ret. }
  destruct H as (delta & Ht & HI). rewrite (new_events_app _ _ _ Ht).
  apply Forall_forall. intros req Hin.
  apply In_generation_requests in Hin as (ev & Hev & Hreq).
  rewrite Forall_forall in HI. exact (HI ev Hev req Hreq).
Qed.

(** The state of the worked example sends one request, with the ratio on
    display. *)
Lemma requested_ratio_example :
  let st := example_state LIFESTYLE "16:9" true in
  View.displayed_ratio st = "9:16"
  /\ map aspectRatio_of
       (generation_requests
          (new_events initial_world
             (snd (App.handleProcess studio_platform st initial_world))))
     = [Some "9:16"].
Proof. vm_compute. split; reflexivity. Qed.

(** ** The lightbox *)

(** X18. The lightbox goes round: among [count] results, from an index in
    range, the next and the previous index are in range, each undoes the
    other, and the closed lightbox stays closed. *)
Theorem lightbox_navigation :
  forall (count i : Z),
    (0 <= i < count)%Z ->
    (exists k, Gallery.nextImage count (Some i) = Some k /\ (0 <= k < count)%Z)
    /\ (exists k, Gallery.prevImage count (Some i) = Some k
                  /\ (0 <= k < count)%Z)
    /\ Gallery.prevImage count (Gallery.nextImage count (Some i)) = Some i
    /\ Gallery.nextImage count (Gallery.prevImage count (Some i)) = Some i
    /\ Gallery.nextImage count None = None
    /\ Gallery.prevImage count None = None.
Proof.
  intros count i Hi. unfold Gallery.nextImage, Gallery.prevImage.
  repeat split.
  - eexists. split; [reflexivity|]. destruct (Z.ltb_spec i (count - 1)); lia.
  - eexists. split; [reflexivity|]. destruct (Z.ltb_spec 0 i); lia.
  - f_equal. destruct (Z.ltb_spec i (count - 1)).
    + destruct (Z.ltb_spec 0 (i + 1)); lia.
    + destruct (Z.ltb_spec 0 0); lia.
  - f_equal. destruct (Z.ltb_spec 0 i).
    + destruct (Z.ltb_spec (i - 1) (count - 1)); lia.
    + destruct (Z.ltb_spec (count - 1) (count - 1)); lia.
Qed.

Lemma lightbox_navigation_witness :
  (exists k, Gallery.nextImage 3 (Some 2%Z) = Some k /\ (0 <= k < 3)%Z)
  /\ (exists k, Gallery.prevImage 3 (Some 2%Z) = Some k /\ (0 <= k < 3)%Z)
  /\ Gallery.prevImage 3 (Gallery.nextImage 3 (Some 2%Z)) = Some 2%Z
  /\ Gallery.nextImage 3 (Gallery.prevImage 3 (Some 2%Z)) = Some 2%Z
  /\ Gallery.nextImage 3 None = None
  /\ Gallery.prevImage 3 None = None.
Proof. apply (lightbox_navigation 3 2). lia. Defined.

(** ** Download names *)

Lemma last_separator (c : ascii) (a b x y : string) :
  free_of c x = true -> free_of c y = true ->
  a ++ String c x = b ++ String c y -> a = b /\ x = y.
Proof.
  intros Hx Hy. revert b.
  assert (Hno : forall s t, free_of c (s ++ String c t) = false).
  { intros s t. rewrite free_of_app. cbn [free_of].
    rewrite Ascii.eqb_refl. cbn. apply andb_false_r. }
  induction a as [|d a IH]; intros [|d' b]; cbn [append].
  - intros [= ->]. now split.
  - intros [= <- ->]. now rewrite Hno in Hx.
  - intros [= -> <-]. now rewrite Hno in Hy.
  - intros [= <- H]. destruct (IH _ H) as [-> ->]. now split.
Qed.

Lemma string_of_uint_free (c : ascii) (d : Decimal.uint) :
  (nat_of_ascii c < 48 \/ 57 < nat_of_ascii c)%nat ->
  free_of c (NilEmpty.string_of_uint d) = true.
Proof.
  intros Hc.
  assert (Hne : forall n, (48 <= n <= 57)%nat ->
                          Ascii.eqb (ascii_of_nat n) c = false).
  { intros n Hn. apply Ascii.eqb_neq. intros <-.
    rewrite nat_ascii_embedding in Hc; lia. }
  induction d; cbn [NilEmpty.string_of_uint free_of]; [reflexivity| | | | | | | | | |];
    rewrite IHd, andb_true_r; apply negb_true_iff.
  - apply (Hne 48); lia.
  - apply (Hne 49); lia.
  - apply (Hne 50); lia.
  - apply (Hne 51); lia.
  - apply (Hne 52); lia.
  - apply (Hne 53); lia.
  - apply (Hne 54); lia.
  - apply (Hne 55); lia.
  - apply (Hne 56); lia.
  - apply (Hne 57); lia.
Qed.

Lemma string_of_nat_inj (n m : nat) :
  Js.string_of_nat n = Js.string_of_nat m -> n = m.
Proof.
  unfold Js.string_of_nat. intros H. apply Unsigned.to_uint_inj.
  assert (E : Some (Nat.to_uint n) = Some (Nat.to_uint m))
    by now rewrite <- !NilEmpty.usu, H.
  now injection E.
Qed.

(** X19. Downloads of one result list do not overwrite each other: the
    names under which two results at different positions are saved differ,
    whatever their file names (also when both results carry the same file
    name), for every export format and whether the image loads or not. *)
Theorem download_names_distinct :
  forall (loaded : bool) (format : Gallery.ExportFormat)
         (r1 r2 : ProcessedImage) (i j : nat),
    i <> j ->
    Gallery.handleDownload loaded format r1 i
    <> Gallery.handleDownload loaded format r2 j.
Proof.
  intros loaded format r1 r2 i j Hij Heq. apply Hij.
  unfold Gallery.handleDownload, Gallery.download_name in Heq.
  assert (Hdigits : forall n ext,
             free_of "." ext = true -> free_of "-" ext = true ->
             free_of "-" (Js.string_of_nat n ++ String "." ext) = true).
  { intros n ext _ Hext. rewrite free_of_app. unfold Js.string_of_nat.
    rewrite string_of_uint_free; [|left; cbn; lia]. cbn [free_of].
    now rewrite Hext. }
  assert (Hmain : forall ext,
             free_of "." ext = true -> free_of "-" ext = true ->
             (filename r1 ++ "-" ++ Js.string_of_nat (i + 1)) ++ "." ++ ext
             = (filename r2 ++ "-" ++ Js.string_of_nat (j + 1)) ++ "." ++ ext ->
             i = j).
  { intros ext Hdot Hhyphen H. rewrite !append_assoc in H.
    change ("-" ++ Js.string_of_nat (i + 1) ++ "." ++ ext)
      with (String "-" (Js.string_of_nat (i + 1) ++ String "." ext)) in H.
    change ("-" ++ Js.string_of_nat (j + 1) ++ "." ++ ext)
      with (String "-" (Js.string_of_nat (j + 1) ++ String "." ext)) in H.
    apply last_separator in H as [_ H]; try now apply Hdigits.
    apply last_separator in H as [H _]; try exact Hdot.
    apply string_of_nat_inj in H. lia. }
  destruct loaded; [destruct format|]; now apply Hmain in Heq.
Qed.

Lemma download_names_distinct_witness :
  Gallery.handleDownload true Gallery.jpg
    {| url := "data:image/png;base64,AAAA"; filename := "processed-product" |} 0
  <> Gallery.handleDownload true Gallery.jpg
       {| url := "data:image/png;base64,BBBB"; filename := "processed-product" |} 1.
Proof. apply download_names_distinct. discriminate. Defined.

(** ** Uploads *)






(** Two uploads, of one and of two files. *)
Lemma uploads_example :
  fold_left Gallery.handleFileSelect
    [[png_file "SHOE"]; [png_file "HAT"; png_file "SOLE"]] []
  = [ {| file := png_file "SHOE"; label := "Front View" |};
      {| file := png_file "HAT"; label := "Back View" |};
      {| file := png_file "SOLE"; label := "Other" |} ].
Proof. reflexivity. Qed.

(** ** Saved prompts *)

Lemma filter_index_from_past {A} (i index : nat) (xs : list A) :
  (index < i)%nat -> Gallery.filter_index_from i index xs = xs.
Proof.
  revert i. induction xs as [|x xs IH]; intros i Hlt; [reflexivity|].
  cbn [Gallery.filter_index_from].
  destruct (Nat.eqb_spec i index); [lia|]. f_equal. apply IH. lia.
Qed.

Lemma filter_index_from_spec {A} (i index : nat) (xs : list A) :
  Gallery.filter_index_from i (i + index) xs
  = (firstn index xs ++ skipn (S index) xs)%list.
Proof.
  revert i index. induction xs as [|x xs IH]; intros i index.
  - now destruct index.
  - cbn [Gallery.filter_index_from]. destruct index as [|index].
    + rewrite Nat.add_0_r, Nat.eqb_refl. cbn [firstn skipn app].
      apply filter_index_from_past. lia.
    + destruct (Nat.eqb_spec i (i + S index)); [lia|].
      cbn [firstn skipn app]. f_equal.
      replace (i + S index) with (S i + index) by lia. apply IH.
Qed.

(** X21. A saved prompt is deleted only by two clicks in a row on it.  A
    click on the delete button of an index that is not armed deletes
    nothing and arms that index; a click on the armed index removes exactly
    the prompt at that index, keeps the others in their order, and disarms;
    and over any sequence of clicks and timers that never clicks the armed
    index, the saved prompts stay as they are. *)
Theorem saved_prompt_deletion :
  forall (A : Type) (st : Gallery.Prompts A),
    (forall index,
        Gallery.promptToDelete st <> Some index ->
        Gallery.deletePrompt st index
        = {| Gallery.savedPrompts := Gallery.savedPrompts st;
             Gallery.promptToDelete := Some index |})
    /\ (forall index,
           Gallery.promptToDelete st = Some index ->
           Gallery.deletePrompt st index
           = {| Gallery.savedPrompts :=
                  (firstn index (Gallery.savedPrompts st)
                   ++ skipn (S index) (Gallery.savedPrompts st))%list;
                Gallery.promptToDelete := None |})
    /\ (forall actions,
           confirms (Gallery.promptToDelete st) actions = false ->
           Gallery.savedPrompts (fold_left Gallery.act actions st)
           = Gallery.savedPrompts st).
Proof.
  intros A st. repeat split.
  - intros index Harmed. unfold Gallery.deletePrompt.
    destruct (Gallery.promptToDelete st) as [armed|]; [|reflexivity].
    destruct (Nat.eqb_spec armed index); [congruence|reflexivity].
  - intros index Harmed. unfold Gallery.deletePrompt.
    rewrite Harmed, Nat.eqb_refl. f_equal.
    apply (filter_index_from_spec 0 index).
  - intros actions. revert st.
    induction actions as [|[index|] actions IH]; intros st; cbn [confirms fold_left];
      [reflexivity| |].
    + intros H. apply orb_false_iff in H as [Harmed Hrest].
      assert (E : Gallery.deletePrompt st index
                  = {| Gallery.savedPrompts := Gallery.savedPrompts st;
                       Gallery.promptToDelete := Some index |}).
      { unfold Gallery.deletePrompt.
        destruct (Gallery.promptToDelete st) as [armed|]; [|reflexivity].
        now rewrite Harmed. }
      cbn [Gallery.act]. rewrite E. now rewrite IH.
    + intros H. cbn [Gallery.act]. unfold Gallery.disarm. now rewrite IH.
Qed.

Lemma saved_prompt_deletion_witness :
  Gallery.deletePrompt
    (Gallery.deletePrompt
       {| Gallery.savedPrompts := ["studio"; "street"; "beach"];
          Gallery.promptToDelete := None |} 1) 1
  = {| Gallery.savedPrompts := ["studio"; "beach"];
       Gallery.promptToDelete := None |}
  /\ Gallery.savedPrompts
       (fold_left Gallery.act
          [Gallery.Click 1; Gallery.Timer; Gallery.Click 1; Gallery.Click 0]
          {| Gallery.savedPrompts := ["studio"; "street"; "beach"];
             Gallery.promptToDelete := None |})
     = ["studio"; "street"; "beach"].
Proof.
  split.
  - destruct (saved_prompt_deletion string
                (Gallery.deletePrompt
                   {| Gallery.savedPrompts := ["studio"; "street"; "beach"];
                      Gallery.promptToDelete := None |} 1)) as (_ & H & _).
    apply (H 1). reflexivity.
  - destruct (saved_prompt_deletion string
                {| Gallery.savedPrompts := ["studio"; "street"; "beach"];
                   Gallery.promptToDelete := None |}) as (_ & _ & H).
    apply (H [Gallery.Click 1; Gallery.Timer; Gallery.Click 1; Gallery.Click 0]).
    reflexivity.
Defined.

(** ** Captions *)

Lemma handleProcess_finished (P : Platform) (st : App.State) (preset : Preset)
    (w w' : World) (s : App.ProcessingState) (cleared : bool) :
  App.selectedPreset st = Some preset ->
  App.handleProcess P st w = (Resolved (App.Finished s cleared), w') ->
  App.error s = None ->
  run P (job_of st preset) w = (Resolved (App.processedImages s), w').
Proof.
  intros Hpreset. unfold App.handleProcess.
  destruct (negb _); [intros [=]|]. rewrite Hpreset.
  destruct (App.sourceImages st) as [|img images] eqn:Himages; [intros [=]|].
  unfold run, job_of. cbn [jobImages jobPreset jobPrompt jobKey
    jobQuality jobSink jobReference jobAngles jobBodyType jobRatio
    jobEnvironment jobContext]. rewrite Himages.
  unfold try_catch, bind at 1.
  destruct (processImagesWithGemini _ _ _ _ _ _ _ _ _ _ _ _ _ w)
    as [[rs|e|] w1]; [| |intros [=]].
  - intros [= <- _ <-] _. reflexivity.
  - destruct (_ || _); intros [= <- _ _] He; discriminate He.
Qed.

Lemma map_nth_error_seq {A B} (f : A -> B) (l : list A) :
  forall g : nat -> B,
    map (fun i => match nth_error l i with
                  | Some a => f a
                  | None => g i
                  end) (seq 0 (List.length l))
    = map f l.
Proof.
  induction l as [|x l IH]; intros g; [reflexivity|].
  cbn [List.length seq map nth_error]. f_equal.
  rewrite <- seq_shift, map_map. cbn [nth_error]. apply IH.
Qed.

Lemma captions_angles (st : App.State) (preset : Preset)
    (rs : list ProcessedImage) :
  App.selectedPreset st = Some preset -> id preset = ANGLES ->
  List.length rs = List.length (App.selectedAngles st) ->
  Gallery.captions st rs = App.selectedAngles st.
Proof.
  intros Hpreset Hid Hlen. unfold Gallery.captions, Gallery.getResultLabel.
  rewrite Hpreset, Hid, Hlen. cbn [PresetType_eqb].
  rewrite (map_nth_error_seq (fun a => a)). apply map_id.
Qed.

Lemma captions_enhanced (st : App.State) (preset : Preset)
    (r : ProcessedImage) :
  App.selectedPreset st = Some preset -> id preset <> ANGLES ->
  (1 <? List.length (App.sourceImages st))%nat
  && (1 =? List.length (App.sourceImages st))%nat = false ->
  Gallery.captions st [r] = ["Enhanced Result"].
Proof.
  intros Hpreset Hid Hcond. unfold Gallery.captions, Gallery.getResultLabel.
  rewrite Hpreset. cbn [List.length seq map]. rewrite Hcond.
  destruct (id preset); try reflexivity. contradiction.
Qed.

Lemma captions_processed (st : App.State) (preset : Preset)
    (rs : list ProcessedImage) :
  App.selectedPreset st = Some preset -> id preset <> ANGLES ->
  (1 < List.length (App.sourceImages st))%nat ->
  List.length rs = List.length (App.sourceImages st) ->
  Gallery.captions st rs
  = map (fun img => label img ++ " (Processed)") (App.sourceImages st).
Proof.
  intros Hpreset Hid Hmany Hlen.
  unfold Gallery.captions, Gallery.getResultLabel.
  rewrite Hpreset, Hlen.
  replace (PresetType_eqb (id preset) ANGLES) with false
    by (destruct (id preset); try reflexivity; contradiction).
  apply Nat.ltb_lt in Hmany. rewrite Hmany, Nat.eqb_refl. cbn [andb].
  rewrite <- (map_nth_error_seq (fun img => label img ++ " (Processed)")
                (App.sourceImages st)
                (fun _ => "undefined" ++ " (Processed)")).
  apply map_ext. intros i.
  now destruct (nth_error (App.sourceImages st) i).
Qed.

Lemma captions_same_selection (st shown : App.State)
    (rs : list ProcessedImage) :
  same_selection st shown -> Gallery.captions shown rs = Gallery.captions st rs.
Proof.
  intros (Hp & Ha & Hi). unfold Gallery.captions. now rewrite Hp, Ha, Hi.
Qed.

(** X22. Captions name the results under them, as long as the selection
    is the one of the run.  When [handleProcess] ends with results and the
    preset, the selected angles and the source images are, when the
    captions are shown, those it started with: for the per-angle strategy
    the captions are the selected angles, in order, and each result is the
    one generated for the angle of its caption (its file name ends with the
    text of that angle before its first space, lower-cased and hyphenated;
    with no angle selected the captions are View 1, View 2, View 3); for
    the per-image strategy over several source images the caption of each
    result is the label of the source image it was made from; in every
    other case the caption is Enhanced Result. *)
Theorem captions_name_the_results :
  forall (P : Platform) (st shown : App.State) (preset : Preset)
         (w w' : World) (s : App.ProcessingState) (cleared : bool),
    App.selectedPreset st = Some preset ->
    App.handleProcess P st w = (Resolved (App.Finished s cleared), w') ->
    App.error s = None ->
    same_selection st shown ->
    captions_follow P st preset shown (App.processedImages s).
Proof.
  intros P st shown preset w w' s cleared Hpreset Hdone Herror Hsame.
  pose proof (handleProcess_finished P st preset w w' s cleared Hpreset Hdone
                Herror) as Hrun.
  unfold captions_follow. rewrite (captions_same_selection st shown _ Hsame).
  destruct (id preset) eqn:Hid.
  - pose proof (per_image_run_resolved P (job_of st preset) w w' _ Hid Hrun)
      as Hall.
    split; [exact Hall|]. apply Forall2_length in Hall.
    cbn [job_of jobImages] in Hall.
    destruct (App.sourceImages st) as [|i1 [|i2 images]] eqn:Himages.
    + destruct (App.processedImages s); [reflexivity|discriminate].
    + destruct (App.processedImages s) as [|r [|r' rs]]; try discriminate.
      apply (captions_enhanced st preset r Hpreset); [congruence|].
      now rewrite Himages.
    + rewrite <- Himages.
      apply (captions_processed st preset _ Hpreset); [congruence| |].
      * rewrite Himages. cbn. lia.
      * now rewrite Himages.
  - destruct (single_generation_run_resolved P (job_of st preset) w w' _
                (or_introl Hid) Hrun) as (r & -> & _).
    apply (captions_enhanced st preset r Hpreset); [congruence|].
    destruct (List.length (App.sourceImages st)) as [|[|n]]; reflexivity.
  - destruct (angles_run_resolved P (job_of st preset) w w' _ Hid Hrun)
      as (stem & _ & Hall).
    cbn [job_of jobAngles anglesToGenerate_of] in Hall.
    destruct (App.selectedAngles st) as [|angle angles] eqn:Hangles.
    + apply Forall2_length in Hall.
      unfold Gallery.captions, Gallery.getResultLabel.
      rewrite Hpreset, Hid, Hangles, <- Hall. reflexivity.
    + split.
      * rewrite <- Hangles. apply (captions_angles st preset _ Hpreset Hid).
        rewrite Hangles. symmetry. exact (Forall2_length Hall).
      * eapply Forall2_impl; [|exact Hall]. cbn beta.
        intros caption r [Hname _]. now exists stem.
  - destruct (single_generation_run_resolved P (job_of st preset) w w' _
                (or_intror Hid) Hrun) as (r & -> & _).
    apply (captions_enhanced st preset r Hpreset); [congruence|].
    destruct (List.length (App.sourceImages st)) as [|[|n]]; reflexivity.
Qed.

Lemma captions_name_the_results_witness :
  Gallery.captions (example_state ANGLES "16:9" false) example_angle_results
  = ["Front View"; "Side View"; "3/4 Perspective View"]
  /\ Forall2 (fun caption r =>
                exists stem,
                  filename r
                  = stem ++ "-"
                    ++ Js.hyphenate
                         (Js.toLowerCase
                            (hd EmptyString (Js.split " " caption))))
       ["Front View"; "Side View"; "3/4 Perspective View"]
       example_angle_results.
Proof.
  apply (captions_name_the_results studio_platform
           (example_state ANGLES "1:1" true)
           (example_state ANGLES "16:9" false)
           {| id := ANGLES; presetLabel := "preset" |} initial_world
           (snd (App.handleProcess studio_platform
                   (example_state ANGLES "1:1" true) initial_world))
           {| App.isProcessing := false;
              App.statusMessage := Some "Done!";
              App.error := None;
              App.processedImages := example_angle_results |} false);
    [reflexivity|vm_compute; reflexivity|reflexivity|repeat split].
Defined.

(** The condition on the selection is needed: the boxes of the angles can
    be clicked while the run goes on, and the captions follow the boxes.
    With the box of the front view cleared before the results of the worked
    example are shown, the result made for the front view stands under the
    caption of the side view. *)
Lemma captions_follow_the_boxes :
  Gallery.captions example_state_without_front example_angle_results
  = ["Side View"; "3/4 Perspective View"; "View 3"]
  /\ map filename example_angle_results
     = ["Acme-Runner-Red-Sneakers-front"; "Acme-Runner-Red-Sneakers-side";
        "Acme-Runner-Red-Sneakers-3/4"].
Proof. split; reflexivity. Qed.

(** ** The selection of angles *)

Lemma includes_In (angle : string) (prev : list string) :
  existsb (String.eqb angle) prev = true <-> In angle prev.
Proof.
  rewrite existsb_exists. split.
  - intros (a & Hin & Ha). apply String.eqb_eq in Ha. now subst.
  - intros Hin. exists angle. split; [exact Hin|apply String.eqb_refl].
Qed.

Lemma toggleAngle_In (prev : list string) (angle b : string) :
  In b (toggleAngle prev angle)
  <-> (b = angle /\ ~ In angle prev) \/ (b <> angle /\ In b prev).
Proof.
  unfold toggleAngle.
  destruct (existsb (String.eqb angle) prev) eqn:Hin.
  - apply includes_In in Hin. rewrite filter_In. split.
    + intros [Hb Hne]. right. split; [|exact Hb].
      apply negb_true_iff, String.eqb_neq in Hne. exact Hne.
    + intros [[-> Hno]|[Hne Hb]]; [contradiction|].
      split; [exact Hb|]. now apply negb_true_iff, String.eqb_neq.
  - assert (Hno : ~ In angle prev).
    { intros H. apply includes_In in H. congruence. }
    rewrite in_app_iff. cbn [In]. split.
    + intros [Hb|[<-|[]]].
      * right. split; [|exact Hb]. intros ->. contradiction.
      * left. now split.
    + intros [[-> _]|[_ Hb]]; [right; now left|now left].
Qed.

Lemma toggleAngle_NoDup (prev : list string) (angle : string) :
  NoDup prev -> NoDup (toggleAngle prev angle).
Proof.
  intros Hnd. unfold toggleAngle.
  destruct (existsb (String.eqb angle) prev) eqn:Hin.
  - now apply NoDup_filter.
  - apply NoDup_app; [exact Hnd|repeat constructor; intros []|].
    intros a Ha [<-|[]]. apply includes_In in Ha. congruence.
Qed.

(** X23. The selection of angles stays free of duplicates.  A click on
    the box of an angle selects it when it was not selected and deselects
    it when it was, and touches no other angle; so, from the three angles
    selected at the start and over any sequence of clicks, no angle is
    selected twice, and the per-angle run generates no angle twice. *)
Theorem angle_selection_has_no_duplicate :
  forall (clicks : list string),
    let selected := fold_left toggleAngle clicks default_angles in
    NoDup selected
    /\ NoDup (anglesToGenerate_of (Some selected))
    /\ forall angle b,
         In b (toggleAngle selected angle)
         <-> (b = angle /\ ~ In angle selected)
             \/ (b <> angle /\ In b selected).
Proof.
  intros clicks.
  assert (Hdefault : NoDup default_angles).
  { repeat constructor; cbn; intuition discriminate. }
  assert (H : forall start, NoDup start ->
                            NoDup (fold_left toggleAngle clicks start)).
  { induction clicks as [|angle clicks IH]; intros start Hstart;
      [exact Hstart|].
    cbn [fold_left]. apply IH. now apply toggleAngle_NoDup. }
  cbn zeta. repeat split.
  - now apply H.
  - pose proof (H _ Hdefault) as Hsel.
    destruct (fold_left toggleAngle clicks default_angles);
      [exact Hdefault|exact Hsel].
  - apply toggleAngle_In.
  - apply toggleAngle_In.
Qed.

(** Three clicks: one angle off, one offered angle on, the first one on
    again, which moves it to the end. *)
Lemma angle_selection_example :
  fold_left toggleAngle
    ["Side View"; "Top Down View"; "Side View"] default_angles
  = ["Front View"; "3/4 Perspective View"; "Top Down View"; "Side View"].
Proof. reflexivity. Qed.

(** ** What the instruction of a request says *)

Lemma includes_refl (p : string) : Js.includes p p = true.
Proof.
  assert (H : prefix p p = true).
  { induction p as [|c p IH]; [reflexivity|]. cbn [prefix].
    destruct (ascii_dec c c); [exact IH|contradiction]. }
  destruct p; cbn [Js.includes]; now rewrite H.
Qed.

Lemma includes_here (p b : string) : Js.includes (p ++ b) p = true.
Proof.
  pose proof (prefix_append p b) as H.
  destruct (p ++ b); cbn [Js.includes]; now rewrite H.
Qed.

Lemma includes_app_l (a s pat : string) :
  Js.includes s pat = true -> Js.includes (a ++ s) pat = true.
Proof.
  intros H. induction a as [|c a IH]; [exact H|].
  cbn [append Js.includes]. rewrite IH. apply orb_true_r.
Qed.

Ltac find_inside :=
  rewrite ?append_assoc;
  repeat first [apply includes_here | apply includes_refl
               | apply includes_app_l].

Lemma strictBodyInstruction_constraint (body : string) :
  strictBodyInstruction_of body = Js.nl ++ Js.nl ++ body_type_constraint body.
Proof. reflexivity. Qed.

Lemma augmentedPrompt_says (prompt body d : string) :
  Js.includes ("TASK: " ++ augmentedPrompt_of prompt body d)
    (body_type_constraint body) = true.
Proof.
  unfold augmentedPrompt_of. rewrite strictBodyInstruction_constraint.
  generalize (body_type_constraint body). intros constraint. find_inside.
Qed.

Lemma anglePrompt_says (prompt body d angle : string) :
  Js.includes ("TASK: " ++ anglePromptWithAnalysis_of prompt body d angle)
    (body_type_constraint body) = true.
Proof.
  unfold anglePromptWithAnalysis_of. rewrite strictBodyInstruction_constraint.
  generalize (body_type_constraint body). intros constraint.
  generalize (anglePrompt_of (Js.replace prompt "<BodyType>" body) angle).
  intros anglePrompt. find_inside.
Qed.

Lemma lifestyle_prompt_says (prompt body : string)
    (environment additionalContext : option string) (d : string) :
  Js.includes
    ("TASK: " ++ finalPromptWithAnalysis_of LIFESTYLE prompt body environment
                   additionalContext d)
    (body_type_constraint body) = true.
Proof.
  unfold finalPromptWithAnalysis_of. cbn [PresetType_eqb].
  rewrite strictBodyInstruction_constraint.
  generalize (body_type_constraint body). intros constraint.
  generalize (cleanPrompt_of prompt body environment additionalContext).
  intros cleanPrompt. find_inside.
Qed.

Lemma cleanPrompt_says_environment (prompt body env : string)
    (additionalContext : option string) :
  Js.truthy env = true ->
  exists a b,
    cleanPrompt_of prompt body (Some env) additionalContext
    = a ++ environment_sentence env ++ b.
Proof.
  intros Henv. unfold cleanPrompt_of. rewrite Henv.
  fold (environment_sentence env).
  set (base := Js.replace _ "<BodyType>" body).
  destruct additionalContext as [ctx|]; [destruct (Js.truthy ctx)|].
  - exists (base ++ Js.nl ++ Js.nl),
      (Js.nl ++ Js.nl ++ "SPECIFIC SCENE DETAILS: " ++ ctx).
    now rewrite !append_assoc.
  - exists (base ++ Js.nl ++ Js.nl), EmptyString.
    now rewrite !append_assoc, append_nil_r.
  - exists (base ++ Js.nl ++ Js.nl), EmptyString.
    now rewrite !append_assoc, append_nil_r.
Qed.

Lemma cleanPrompt_says_scene (prompt body ctx : string)
    (environment : option string) :
  Js.truthy ctx = true ->
  exists a,
    cleanPrompt_of prompt body environment (Some ctx)
    = a ++ scene_sentence ctx.
Proof.
  intros Hctx. unfold cleanPrompt_of. rewrite Hctx.
  fold (scene_sentence ctx).
  match goal with
  | |- exists a, ?x ++ _ = _ => exists (x ++ Js.nl ++ Js.nl)
  end.
  now rewrite !append_assoc.
Qed.

Lemma finalPrompt_says (presetId : PresetType) (prompt body : string)
    (environment additionalContext : option string) (d p : string) :
  (exists a b,
      cleanPrompt_of prompt body environment additionalContext
      = a ++ p ++ b) ->
  Js.includes
    ("TASK: " ++ finalPromptWithAnalysis_of presetId prompt body environment
                   additionalContext d) p = true.
Proof.
  intros (a & b & E). unfold finalPromptWithAnalysis_of. rewrite E.
  destruct (PresetType_eqb presetId LIFESTYLE); find_inside.
Qed.

Lemma single_generation_says (j : Job) (d : string) :
  (forall env, jobEnvironment j = Some env -> Js.truthy env = true ->
               Js.includes
                 ("TASK: " ++ finalPromptWithAnalysis_of (jobPreset j)
                                (jobPrompt j)
                                (selectedBodyType_of (jobBodyType j))
                                (jobEnvironment j) (jobContext j) d)
                 (environment_sentence env) = true)
  /\ (forall ctx, jobContext j = Some ctx -> Js.truthy ctx = true ->
                  Js.includes
                    ("TASK: " ++ finalPromptWithAnalysis_of (jobPreset j)
                                   (jobPrompt j)
                                   (selectedBodyType_of (jobBodyType j))
                                   (jobEnvironment j) (jobContext j) d)
                    (scene_sentence ctx) = true).
Proof.
  split.
  - intros env -> Henv. apply finalPrompt_says.
    now apply cleanPrompt_says_environment.
  - intros ctx -> Hctx. apply finalPrompt_says.
    destruct (cleanPrompt_says_scene (jobPrompt j)
                (selectedBodyType_of (jobBodyType j)) ctx (jobEnvironment j)
                Hctx) as [a E].
    exists a, EmptyString. now rewrite append_nil_r.
Qed.

Lemma task_text_generation (pre : list Part) (t : string) (size : ImageSize)
    (ratio : string) :
  task_text (generation_request_of (pre ++ [TextPart t]) size ratio) = Some t.
Proof. now apply (task_text_last _ pre t). Qed.

(** X24. What the instruction of a single generation says about the scene.
    Every request that a run of the lifestyle or of the background strategy
    sends to the generation model ends with an instruction text, and that
    text holds the environment sentence and the scene details whenever
    these are given and not empty: for the background strategy as well as
    for the lifestyle one. *)
Theorem instructions_name_the_scene :
  forall (P : Platform) (j : Job) (w : World),
    jobPreset j = LIFESTYLE \/ jobPreset j = BG_REMOVE_REPAIR ->
    Forall (fun req => exists t, task_text req = Some t
                                 /\ instruction_says j t)
      (requests_of_run P j w).
Proof.
  intros P j w Hp. apply Forall_forall. intros req Hin.
  destruct (requests_of_run_exact P j w req Hin) as (parts & ratio & -> & H).
  unfold exact_call in H. unfold instruction_says.
  destruct Hp as [Hp|Hp]; rewrite Hp in H; destruct H as (_ & _ & ->);
    (eexists; split; [apply task_text_generation|]);
    rewrite <- Hp; apply single_generation_says.
Qed.

Lemma instructions_name_the_scene_witness :
  Forall (fun req =>
            exists t, task_text req = Some t
                      /\ instruction_says (garden_job BG_REMOVE_REPAIR) t)
    (requests_of_run studio_platform (garden_job BG_REMOVE_REPAIR)
       initial_world).
Proof.
  apply (instructions_name_the_scene studio_platform
           (garden_job BG_REMOVE_REPAIR) initial_world).
  right. reflexivity.
Defined.

Lemma requested_body_selected (j : Job) :
  selectedBodyType_of (jobBodyType j) = requested_body j.
Proof.
  unfold selectedBodyType_of, requested_body, Js.or_else.
  now destruct (jobBodyType j) as [[|c b]|].
Qed.

(** X25. What the instruction says about the body type.  But for the
    background strategy, every request that a run sends to the generation
    model ends with an instruction text that holds the two sentences about
    the body type: the first names, in capitals, the body type asked for
    (Men when none is given), the second names it as given.  The capitals
    are those of [toUpperCase], for a body type whose upper case the model
    covers. *)
Theorem instructions_name_the_body_type :
  forall (P : Platform) (j : Job) (w : World),
    jobPreset j <> BG_REMOVE_REPAIR ->
    Js.upper_covered (requested_body j) = true ->
    Forall (fun req =>
              exists t, task_text req = Some t
                        /\ Js.includes t (body_type_constraint (requested_body j))
                           = true)
      (requests_of_run P j w).
Proof.
  intros P j w Hp _. apply Forall_forall. intros req Hin.
  destruct (requests_of_run_exact P j w req Hin) as (parts & ratio & -> & H).
  unfold exact_call in H. rewrite <- requested_body_selected.
  destruct (jobPreset j) eqn:Hpreset.
  - destruct H as (_ & img & d' & _ & _ & _ & ->).
    eexists. split; [apply task_text_generation|].
    apply augmentedPrompt_says.
  - destruct H as (_ & _ & ->).
    eexists. split; [apply task_text_generation|].
    apply lifestyle_prompt_says.
  - destruct H as (_ & _ & angle & _ & ->).
    eexists. split; [apply task_text_generation|].
    apply anglePrompt_says.
  - now contradiction Hp.
Qed.

Lemma instructions_name_the_body_type_witness :
  Forall (fun req =>
            exists t,
              task_text req = Some t
              /\ Js.includes t
                   ("CRITICAL REQUIREMENT: The target body type for this generation is strict: KID. "
                    ++ Js.nl
                    ++ "If the prompt implies a human figure, model, or mannequin, it MUST match the Kid anatomy and proportions. Do not generate any other gender or age group.")
                 = true)
    (requests_of_run studio_platform (garden_job LIFESTYLE) initial_world).
Proof.
  apply (instructions_name_the_body_type studio_platform
           (garden_job LIFESTYLE) initial_world);
    [discriminate|reflexivity].
Defined.

(** The background run of the garden job sends one request, whose
    instruction names the garden although the strategy is not the lifestyle
    one, and not the body type; the lifestyle run names all three. *)
Lemma garden_requests :
  map (fun j =>
         map (fun req =>
                match task_text req with
                | Some t =>
                    (Js.includes t (environment_sentence "Outdoor"),
                     Js.includes t (scene_sentence "a garden in spring"),
                     Js.includes t (body_type_constraint "Kid"))
                | None => (false, false, false)
                end)
           (requests_of_run studio_platform j initial_world))
    [garden_job BG_REMOVE_REPAIR; garden_job LIFESTYLE]
  = [[(true, true, false)]; [(true, true, true)]].
Proof. vm_compute. reflexivity. Qed.
